(** * db.js: a shallow embedding of the storage engine (class [DBjs])

    The engine keeps recent writes in an in-memory cache (newest first),
    archives the cache into timestamp-named segment files, and answers
    point lookups, position ranges and time ranges.  The definitions below
    follow [dbjs.js] method by method; state is passed explicitly, the
    system clock is an argument of every method that reads it, and the
    database directory is part of the state. *)

From Stdlib Require Import Ascii String QArith Qround.
From stdpp Require Import base gmap strings list fin_maps pretty sorting.

Local Open Scope Z_scope.
Local Open Scope string_scope.

(** ** JavaScript values *)

(** JavaScript numbers are doubles.  The numbers of the model are the safe
    integers, from [-(2^53 - 1)] to [2^53 - 1], which are doubles and which
    JavaScript prints in decimal, and [Infinity]. *)
Definition MAX_SAFE_INTEGER : Z := 9007199254740991.

Definition safe (n : Z) : Prop := - MAX_SAFE_INTEGER <= n <= MAX_SAFE_INTEGER.

#[global] Instance safe_dec (n : Z) : Decision (safe n).
Proof. unfold safe. apply _. Defined.

Definition safe_integer : Type := dsig safe.

(** The values a caller can hand to the engine.  The characters of a string
    are the code points U+0000 to U+00FF, one UTF-16 code unit each, so that
    [String.length] is the JavaScript [length]. *)
Inductive value : Type :=
  | VUndefined
  | VNull
  | VBool (b : bool)
  | VNum (n : safe_integer)
  | VInfinity
  | VStr (s : string)
  | VFunction
  | VBigInt (n : Z).

#[global] Instance value_eq_dec : EqDecision value.
Proof. solve_decision. Defined.

(** The number [n], with the evidence that it is a safe integer. *)
Definition VInt (n : Z) (H : Is_true (bool_decide (safe n))) : value := VNum (n ↾ H).

(** [if (x)] *)
Definition truthy (v : value) : bool :=
  match v with
  | VUndefined | VNull => false
  | VBool b => b
  | VNum n => negb (Z.eqb (`n) 0)
  | VInfinity => true
  | VStr s => negb (String.eqb s EmptyString)
  | VFunction => true
  | VBigInt n => negb (Z.eqb n 0)
  end.

(** ** JSON.stringify / JSON.parse *)

Inductive stringified : Type :=
  | SThrows                (* TypeError: BigInt is not serializable *)
  | SUndefined             (* JSON.stringify(undefined) === undefined *)
  | SString (s : string).

Definition dquote : ascii := ascii_of_N 34.

Definition hex_digit (n : N) : ascii :=
  ascii_of_N (if (n <? 10)%N then 48 + n else 87 + n)%N.

(** The JSON text of one character inside a string literal. *)
Definition json_escape_char (c : ascii) : string :=
  let n := N_of_ascii c in
  if (n =? 34)%N then String "\"%char (String dquote EmptyString)
  else if (n =? 92)%N then "\\"
  else if (n =? 8)%N then "\b"
  else if (n =? 9)%N then "\t"
  else if (n =? 10)%N then "\n"
  else if (n =? 12)%N then "\f"
  else if (n =? 13)%N then "\r"
  else if (n <? 32)%N then
    "\u00" ++ String (hex_digit (n / 16)) (String (hex_digit (n mod 16)) "")
  else String c "".

Fixpoint json_escape (s : string) : string :=
  match s with
  | EmptyString => ""
  | String c s' => json_escape_char c ++ json_escape s'
  end.

Definition json_quote (s : string) : string :=
  String dquote (json_escape s) ++ String dquote EmptyString.

Definition JSON_stringify (v : value) : stringified :=
  match v with
  | VUndefined => SUndefined
  | VNull => SString "null"
  | VBool true => SString "true"
  | VBool false => SString "false"
  | VNum n => SString (pretty (`n))
  | VInfinity => SString "null"
  | VStr s => SString (json_quote s)
  | VFunction => SUndefined
  | VBigInt _ => SThrows
  end.

(** An array element that has no JSON text is written as [null]. *)
Definition json_element (v : value) : string :=
  match JSON_stringify v with
  | SString s => s
  | _ => "null"
  end.

Fixpoint json_join (l : list string) : string :=
  match l with
  | [] => ""
  | [s] => s
  | s :: l' => s ++ "," ++ json_join l'
  end.

(** [JSON.stringify(array)] for an array without BigInt elements. *)
Definition JSON_stringify_array (l : list value) : string :=
  "[" ++ json_join (map json_element l) ++ "]".

(** What [JSON.parse(JSON.stringify(x))] gives back for an array element:
    [undefined], functions and [Infinity] are written as [null]. *)
Definition json_reparse (v : value) : value :=
  match v with
  | VUndefined | VFunction | VInfinity => VNull
  | _ => v
  end.

(** The content of a segment file after [writeFileSync(p, JSON.stringify(a))],
    as the array [JSON.parse] reads from it. *)
Definition file_content (a : list value) : list value := map json_reparse a.

(** ** Configuration *)

Record config : Type := {
  persist_after_MB : Q;
  persist_after_seconds : Q;
  flush_interval : Q;
  file_prefix : string;
  max_key_size_bytes : Z;
  max_value_size_bytes : Z;
}.

Definition default_config : config := {|
  persist_after_MB := 20%Q;
  persist_after_seconds := (12 * 60 * 60)%Q;
  flush_interval := (5 * 60)%Q;
  file_prefix := "dbjs_";
  max_key_size_bytes := 1024;
  max_value_size_bytes := 1048576;
|}.

Definition strlen (s : string) : Z := Z.of_nat (String.length s).

(** [_check_key]: 1 when the key is usable, -1 otherwise. *)
Definition _check_key (c : config) (key : value) : Z :=
  match key with
  | VStr s => if Z.ltb (max_key_size_bytes c) (strlen s) then -1 else 1
  | _ => -1
  end.

(** [_check_value]: 1 when the value is usable, -1 otherwise. *)
Definition _check_value (c : config) (v : value) : Z :=
  match JSON_stringify v with
  | SThrows => -1
  | SUndefined => -1
  | SString s => if Z.ltb (max_value_size_bytes c) (strlen s) then -1 else 1
  end.

(** ** The index objects *)

(** One entry of [this.index]: [{i: seq, f: cache file name, c: created at}].
    A cache file is named [<timestamp>.json]; [f] holds the timestamp. *)
Record entry : Type := {
  i : Z;
  f : Z;
  c : Z;
}.

(** [this.index] is a plain object that starts as [{}]: its own properties
    are kept in insertion order, and every read [this.index[key]] that finds
    no own property falls through to [Object.prototype]. *)
Definition object_prototype_names : list string :=
  [ "constructor"; "__defineGetter__"; "__defineSetter__"; "hasOwnProperty";
    "__lookupGetter__"; "__lookupSetter__"; "isPrototypeOf";
    "propertyIsEnumerable"; "toString"; "valueOf"; "__proto__";
    "toLocaleString" ].

Inductive property : Type :=
  | Own (e : entry)      (* an entry written by [set] *)
  | Inherited            (* a member of [Object.prototype]: truthy, and its
                            [.i], [.f], [.c] are [undefined] *)
  | Absent.              (* [undefined] *)

Fixpoint own_property {A : Type} (o : list (string * A)) (key : string) : option A :=
  match o with
  | [] => None
  | (k, a) :: o' => if String.eqb k key then Some a else own_property o' key
  end.

Definition is_inherited (key : string) : bool :=
  existsb (String.eqb key) object_prototype_names.

(** [this.index[key]] *)
Definition index_get (o : list (string * entry)) (key : string) : property :=
  match own_property o key with
  | Some e => Own e
  | None => if is_inherited key then Inherited else Absent
  end.

(** ** Segment file names *)

(** [(new Date()).getTime() + '.json'] *)
Definition cache_name (ts : Z) : string := pretty ts ++ ".json".

(** [this.config.file_prefix + this.cache_file_name] *)
Definition archive_name (cfg : config) (ts : Z) : string :=
  file_prefix cfg ++ cache_name ts.

(** [s.indexOf(sub) !== -1] *)
Fixpoint includes (s sub : string) : bool :=
  String.prefix sub s ||
  match s with
  | EmptyString => false
  | String _ s' => includes s' sub
  end.

(** ** Engine state *)

(** The four hit counters. *)
Record counters : Type := {
  _memory_cache_read_counter : Z;
  _memory_cache_write_counter : Z;
  _file_cache_read_counter : Z;
  _file_cache_write_counter : Z;
}.

(** The database directory. *)
Record disk : Type := {
  cache_files : gmap Z (list value);      (* <ts>.json *)
  archived_files : gmap Z (list value);   (* <prefix><ts>.json *)
  index_json : option (list (string * entry));
  rindex_json : option (gmap Z string);
  meta_json : option (list (Z * Z));
}.

(** [meta.archive] maps the name of an archived file to its [size]; the
    object keeps its keys in insertion order, which [_get_archived_index]
    relies on.  Segment files and archive keys are identified by the
    timestamp in their name. *)
Record db : Type := {
  cfg : config;
  cache : list value;
  cache_file_name : Z;
  started : Z;
  index : list (string * entry);
  rindex : gmap Z string;
  meta_archive : list (Z * Z);
  stats : counters;
  dir : disk;
}.

Definition with_cache (d : db) (x : list value) : db :=
  {| cfg := cfg d; cache := x; cache_file_name := cache_file_name d;
     started := started d; index := index d; rindex := rindex d;
     meta_archive := meta_archive d; stats := stats d; dir := dir d |}.

Definition with_cache_file_name (d : db) (x : Z) : db :=
  {| cfg := cfg d; cache := cache d; cache_file_name := x;
     started := started d; index := index d; rindex := rindex d;
     meta_archive := meta_archive d; stats := stats d; dir := dir d |}.

Definition with_started (d : db) (x : Z) : db :=
  {| cfg := cfg d; cache := cache d; cache_file_name := cache_file_name d;
     started := x; index := index d; rindex := rindex d;
     meta_archive := meta_archive d; stats := stats d; dir := dir d |}.

Definition with_index (d : db) (x : list (string * entry)) : db :=
  {| cfg := cfg d; cache := cache d; cache_file_name := cache_file_name d;
     started := started d; index := x; rindex := rindex d;
     meta_archive := meta_archive d; stats := stats d; dir := dir d |}.

Definition with_rindex (d : db) (x : gmap Z string) : db :=
  {| cfg := cfg d; cache := cache d; cache_file_name := cache_file_name d;
     started := started d; index := index d; rindex := x;
     meta_archive := meta_archive d; stats := stats d; dir := dir d |}.

Definition with_meta_archive (d : db) (x : list (Z * Z)) : db :=
  {| cfg := cfg d; cache := cache d; cache_file_name := cache_file_name d;
     started := started d; index := index d; rindex := rindex d;
     meta_archive := x; stats := stats d; dir := dir d |}.

Definition with_stats (d : db) (x : counters) : db :=
  {| cfg := cfg d; cache := cache d; cache_file_name := cache_file_name d;
     started := started d; index := index d; rindex := rindex d;
     meta_archive := meta_archive d; stats := x; dir := dir d |}.

Definition with_dir (d : db) (x : disk) : db :=
  {| cfg := cfg d; cache := cache d; cache_file_name := cache_file_name d;
     started := started d; index := index d; rindex := rindex d;
     meta_archive := meta_archive d; stats := stats d; dir := x |}.

(** [this._memory_cache_read_counter++] and its three siblings. *)
Definition memory_read (d : db) : db :=
  let s := stats d in
  with_stats d
    {| _memory_cache_read_counter := _memory_cache_read_counter s + 1;
       _memory_cache_write_counter := _memory_cache_write_counter s;
       _file_cache_read_counter := _file_cache_read_counter s;
       _file_cache_write_counter := _file_cache_write_counter s |}.

Definition memory_write (d : db) : db :=
  let s := stats d in
  with_stats d
    {| _memory_cache_read_counter := _memory_cache_read_counter s;
       _memory_cache_write_counter := _memory_cache_write_counter s + 1;
       _file_cache_read_counter := _file_cache_read_counter s;
       _file_cache_write_counter := _file_cache_write_counter s |}.

Definition file_read (d : db) : db :=
  let s := stats d in
  with_stats d
    {| _memory_cache_read_counter := _memory_cache_read_counter s;
       _memory_cache_write_counter := _memory_cache_write_counter s;
       _file_cache_read_counter := _file_cache_read_counter s + 1;
       _file_cache_write_counter := _file_cache_write_counter s |}.

Definition file_write (d : db) : db :=
  let s := stats d in
  with_stats d
    {| _memory_cache_read_counter := _memory_cache_read_counter s;
       _memory_cache_write_counter := _memory_cache_write_counter s;
       _file_cache_read_counter := _file_cache_read_counter s;
       _file_cache_write_counter := _file_cache_write_counter s + 1 |}.

Definition with_cache_files (k : disk) (x : gmap Z (list value)) : disk :=
  {| cache_files := x; archived_files := archived_files k;
     index_json := index_json k; rindex_json := rindex_json k;
     meta_json := meta_json k |}.

Definition with_archived_files (k : disk) (x : gmap Z (list value)) : disk :=
  {| cache_files := cache_files k; archived_files := x;
     index_json := index_json k; rindex_json := rindex_json k;
     meta_json := meta_json k |}.

Definition index_size (d : db) : Z := Z.of_nat (length (index d)).
Definition cache_size (d : db) : Z := Z.of_nat (length (cache d)).
Definition rindex_size (d : db) : Z := Z.of_nat (size (rindex d)).

(** ** Arrays *)

(** [a[n]] for an integer [n]: [undefined] outside the array. *)
Definition array_get (a : list value) (n : Z) : value :=
  if Z.ltb n 0 then VUndefined else default VUndefined (a !! Z.to_nat n).

(** [a[n] = v] for [0 <= n <= a.length]; at [n = a.length] the array grows
    by one. *)
Definition array_set (a : list value) (n : Z) (v : value) : list value :=
  if Z.eqb n (Z.of_nat (length a)) then a ++ [v] else <[Z.to_nat n := v]> a.

(** ** Locating a key *)

(** [_get_memory_cache_index]: the cache position of the key, or -1.  For an
    inherited property [index[key].i + 1] is NaN and the comparison with the
    cache size is false. *)
Definition _get_memory_cache_index (d : db) (key : string) : Z :=
  match index_get (index d) key with
  | Own e =>
      let cache_index := index_size d - (i e + 1) in
      if Z.ltb cache_index (cache_size d) then cache_index else -1
  | Inherited => -1
  | Absent => -1
  end.

(** The loop of [_get_archived_index]: sum the sizes of the archive entries
    that come before the first one whose name contains [file]. *)
Fixpoint archive_offset (cfg : config) (archive : list (Z * Z)) (file : Z) : Z :=
  match archive with
  | [] => 0
  | (archive_file, size) :: rest =>
      if includes (archive_name cfg archive_file) (cache_name file) then 0
      else size + archive_offset cfg rest file
  end.

Definition _get_archived_index (d : db) (index file length : Z) : Z :=
  let offset := archive_offset (cfg d) (meta_archive d) file in
  let file_index := index - offset in
  (length - 1) - file_index.

(** [_load_from_file]: the value, [undefined] when the computed position is
    outside the file, [null] when the archived file does not exist.  The
    path of an inherited property is [<prefix>undefined], which is no segment
    file. *)
Definition _load_from_file (d : db) (key : string) : value * db :=
  match index_get (index d) key with
  | Own e =>
      match archived_files (dir d) !! f e with
      | Some parsed =>
          let d' := file_read d in
          let file_index :=
            _get_archived_index d' (i e) (f e) (Z.of_nat (length parsed)) in
          (array_get parsed file_index, d')
      | None => (VNull, d)
      end
  | _ => (VNull, d)
  end.

(** [_update_file]: overwrite the slot of an archived key and rewrite the
    file; nothing happens when the file does not exist or the position is
    out of range. *)
Definition _update_file (d : db) (key : string) (v : value) : db :=
  match index_get (index d) key with
  | Own e =>
      match archived_files (dir d) !! f e with
      | Some parsed =>
          let d1 := file_read d in
          let len := Z.of_nat (length parsed) in
          let file_index := _get_archived_index d1 (i e) (f e) len in
          if Z.leb 0 file_index && Z.leb file_index len then
            let parsed' := array_set parsed file_index v in
            file_write
              (with_dir d1
                 (with_archived_files (dir d1)
                    (<[f e := file_content parsed']> (archived_files (dir d1)))))
          else d1
      | None => d
      end
  | _ => d
  end.

(** ** set and get *)

(** [_persist] sets [_persist_lock] and clears it again before it returns,
    and nothing else runs in between, so the flag is [false] whenever [set],
    [get] or [getn] starts and [_wait_persist_lock] returns at once; flag and
    wait are left out of the state.  Log output is not part of the state
    either. *)

(** [set(key, value)] at clock reading [now]. *)
Definition set (d : db) (now : Z) (key v : value) : bool * db :=
  if negb (Z.eqb (_check_key (cfg d) key) 1) then (false, d)
  else if negb (Z.eqb (_check_value (cfg d) v) 1) then (false, d)
  else
    match key with
    | VStr k =>
        match index_get (index d) k with
        | Absent =>
            let d1 := memory_write (with_cache d (v :: cache d)) in
            let idx := index_size d1 in
            let d2 :=
              with_index d1
                (index d1 ++ [(k, {| i := idx; f := cache_file_name d1; c := now |})]) in
            (true, with_rindex d2 (<[idx := k]> (rindex d2)))
        | _ =>
            let cache_index := _get_memory_cache_index d k in
            if negb (Z.eqb cache_index (-1)) then
              let d1 :=
                if Z.leb 0 cache_index && Z.leb cache_index (cache_size d)
                then with_cache d (array_set (cache d) cache_index v)
                else d in
              (true, memory_write d1)
            else (true, _update_file d k v)
        end
    | _ => (false, d)
    end.

(** [get(key)] *)
Definition get (d : db) (key : value) : value * db :=
  if negb (Z.eqb (_check_key (cfg d) key) 1) then (VUndefined, d)
  else
    match key with
    | VStr k =>
        match index_get (index d) k with
        | Absent => (VUndefined, d)
        | _ =>
            let cache_index := _get_memory_cache_index d k in
            if negb (Z.eqb cache_index (-1)) then
              (array_get (cache d) cache_index, memory_read d)
            else _load_from_file d k
        end
    | _ => (VUndefined, d)
    end.

(** ** Checkpoint and rotation *)

(** [round(number, 3)]: [Math.round(number * 1000) / 1000]. *)
Definition round3 (number : Q) : Q :=
  (inject_Z (Qfloor (number * 1000 + (1 # 2))) / 1000)%Q.

(** [Buffer.byteLength(stringified)]: the length of the UTF-8 encoding.  A
    code point below U+0080 takes one byte, the others of the model (up to
    U+00FF) take two. *)
Fixpoint byteLength (s : string) : Z :=
  match s with
  | EmptyString => 0
  | String ch s' => (if (N_of_ascii ch <? 128)%N then 1 else 2) + byteLength s'
  end.

(** [meta.archive[name] = {size}]: an existing key keeps its place. *)
Fixpoint archive_put (archive : list (Z * Z)) (name size : Z) : list (Z * Z) :=
  match archive with
  | [] => [(name, size)]
  | (n, s) :: rest =>
      if Z.eqb n name then (n, size) :: rest else (n, s) :: archive_put rest name size
  end.

Definition _flush_meta_file (d : db) : db :=
  with_dir d
    {| cache_files := cache_files (dir d);
       archived_files := archived_files (dir d);
       index_json := index_json (dir d);
       rindex_json := rindex_json (dir d);
       meta_json := Some (meta_archive d) |}.

(** [_flush]: write cache (when not empty), index, reverse index and meta;
    returns the JSON text of the cache. *)
Definition _flush (d : db) : string * db :=
  let stringified := JSON_stringify_array (cache d) in
  let files :=
    if Z.ltb 0 (cache_size d)
    then <[cache_file_name d := file_content (cache d)]> (cache_files (dir d))
    else cache_files (dir d) in
  let d1 :=
    with_dir d
      {| cache_files := files;
         archived_files := archived_files (dir d);
         index_json := Some (index d);
         rindex_json := Some (rindex d);
         meta_json := meta_json (dir d) |} in
  (stringified, _flush_meta_file d1).

(** [_create_cache_file] at clock reading [now]. *)
Definition _create_cache_file (d : db) (now : Z) : db :=
  let d1 := with_cache (with_cache_file_name d now) [] in
  with_dir d1
    (with_cache_files (dir d1) (<[now := file_content []]> (cache_files (dir d1)))).

(** [const archive = (space_exceeded || time_exceeded)] of [_persist], from
    the JSON text of the cache and the clock reading [now]. *)
Definition archive_due (d : db) (stringified : string) (now : Z) : bool :=
  let mbsize :=
    round3 (inject_Z (byteLength stringified) / inject_Z (1024 * 1024))%Q in
  let delta := (inject_Z (now - started d) / 1000)%Q in
  let space_exceeded := Qle_bool (persist_after_MB (cfg d)) mbsize in
  let time_exceeded := Qle_bool (persist_after_seconds (cfg d)) delta in
  space_exceeded || time_exceeded.

(** [fs.renameSync(cache file, archived file)]; [None] is the ENOENT error. *)
Definition rename_to_archive (k : disk) (name : Z) : option disk :=
  match cache_files k !! name with
  | Some content =>
      Some (with_archived_files
              (with_cache_files k (delete name (cache_files k)))
              (<[name := content]> (archived_files k)))
  | None => None
  end.

(** [_persist]: the clock is read three times, for [delta], for the name of
    the fresh cache file and for [started]. *)
Definition _persist (d : db) (t_delta t_name t_started : Z) : option db :=
  let '(stringified, d1) := _flush d in
  if archive_due d1 stringified t_delta && Z.ltb 0 (cache_size d1) then
    match rename_to_archive (dir d1) (cache_file_name d1) with
    | Some k =>
        let d2 := with_dir d1 k in
        let d3 :=
          with_meta_archive d2
            (archive_put (meta_archive d2) (cache_file_name d2) (cache_size d2)) in
        let d4 := _flush_meta_file d3 in
        let d5 := _create_cache_file d4 t_name in
        Some (with_started d5 t_started)
    | None => None
    end
  else Some d1.

(** Whether [_persist] takes the archiving branch. *)
Definition rotates (d : db) (t_delta : Z) : bool :=
  archive_due d (JSON_stringify_array (cache d)) t_delta && Z.ltb 0 (cache_size d).

(** ** Opening a fresh database *)

Definition empty_disk : disk :=
  {| cache_files := ∅; archived_files := ∅;
     index_json := None; rindex_json := None; meta_json := None |}.

Definition zero_counters : counters :=
  {| _memory_cache_read_counter := 0; _memory_cache_write_counter := 0;
     _file_cache_read_counter := 0; _file_cache_write_counter := 0 |}.

(** [new DBjs(config)] on an empty directory: [started] is read first, then
    [_load_cache] finds no file and creates the cache file at [t_name]. *)
Definition open_fresh (c : config) (t_started t_name : Z) : db :=
  _create_cache_file
    {| cfg := c; cache := []; cache_file_name := 0; started := t_started;
       index := []; rindex := ∅; meta_archive := [];
       stats := zero_counters; dir := empty_disk |}
    t_name.

(** ** Listing segment files *)

(** [_getFiles(false)]: the archived files, most recently created first.  The
    creation time is the number in front of [.json]. *)
Definition _getFiles (d : db) : list Z :=
  merge_sort (flip Z.le) (map fst (map_to_list (archived_files (dir d)))).

(** ** Outcomes of a call that can throw *)

Inductive outcome (A : Type) : Type :=
  | Returns (a : A)
  | ReferenceError          (* [retn] is not defined *)
  | TypeError.              (* property read on [undefined] *)
Arguments Returns {A} a.
Arguments ReferenceError {A}.
Arguments TypeError {A}.

(** ** Enumeration order of an object *)

Fixpoint parse_digits (s : string) (acc : N) : option N :=
  match s with
  | EmptyString => Some acc
  | String ch s' =>
      let n := N_of_ascii ch in
      if (48 <=? n)%N && (n <=? 57)%N
      then parse_digits s' (10 * acc + (n - 48))%N
      else None
  end.

(** The array index a property name denotes: a canonical decimal numeral
    below 2^32 - 1. *)
Definition array_index (key : string) : option N :=
  match parse_digits key 0%N with
  | Some n =>
      if String.eqb (pretty n) key && (n <=? 4294967294)%N then Some n else None
  | None => None
  end.

Definition numeric_props {A : Type} (o : list (string * A)) : list (N * A) :=
  omap (fun p => match array_index (fst p) with
                 | Some n => Some (n, snd p)
                 | None => None
                 end) o.

Definition named_props {A : Type} (o : list (string * A)) : list A :=
  omap (fun p => match array_index (fst p) with
                 | Some _ => None
                 | None => Some (snd p)
                 end) o.

Definition index_le {A : Type} (p q : N * A) : Prop := (fst p <= fst q)%N.

#[global] Instance index_le_dec {A : Type} (p q : N * A) : Decision (index_le p q).
Proof. unfold index_le. apply _. Defined.

(** The values of [for (let key in o)]: array-index keys in ascending order
    first, then the other keys in insertion order. *)
Definition for_in_values {A : Type} (o : list (string * A)) : list A :=
  map snd (merge_sort index_le (numeric_props o)) ++ named_props o.

(** ** Binary search over the insertion times *)

(** The [while] loop of [_binary_search]; [None] when [fuel] runs out. *)
Fixpoint binary_search_loop (fuel : nat) (sortedArray : list Z) (key start end_ : Z)
  : option (Z * Z) :=
  match fuel with
  | O => None
  | S fuel' =>
      if Z.leb start end_ then
        let middle := (start + end_) / 2 in
        let x := default 0 (sortedArray !! Z.to_nat middle) in
        if Z.eqb x key then Some (start, end_)
        else if Z.ltb x key
             then binary_search_loop fuel' sortedArray key (middle + 1) end_
             else binary_search_loop fuel' sortedArray key start (middle - 1)
      else Some (start, end_)
  end.

Definition _binary_search (sortedArray : list Z) (key : Z) : option (Z * Z) :=
  binary_search_loop (S (length sortedArray)) sortedArray key
    0 (Z.of_nat (length sortedArray) - 1).

Definition insertion_times (d : db) : list Z := map c (for_in_values (index d)).

(** [_binary_search_index]: the [end] of the pair. *)
Definition _binary_search_index (d : db) (ts : Z) : option Z :=
  snd <$> _binary_search (insertion_times d) ts.

(** ** getn *)

(** [a.slice(start, end)] for [0 <= start <= end]. *)
Definition slice (a : list value) (start end_ : Z) : list value :=
  take (Z.to_nat (end_ - start)) (drop (Z.to_nat start) a).

(** The [while] loop that collects the files to load: every file up to and
    including the first one whose name contains [up_to_file]. *)
Fixpoint files_to_load (cfg : config) (files : list Z) (up_to_file : string) : list Z :=
  match files with
  | [] => []
  | file :: rest =>
      if includes (archive_name cfg file) up_to_file then [file]
      else file :: files_to_load cfg rest up_to_file
  end.

(** [JSON.parse(fs.readFileSync(this._path(file)))] for a listed file. *)
Definition read_archived (d : db) (file : Z) : list value :=
  default [] (archived_files (dir d) !! file).

(** [retval = retval.concat(parsed_data)] over the files, counting reads. *)
Fixpoint load_files (d : db) (retval : list value) (to_load : list Z) : list value * db :=
  match to_load with
  | [] => (retval, d)
  | file :: rest =>
      let parsed_data := read_archived d file in
      load_files (file_read d) (retval ++ parsed_data) rest
  end.

(** The bounds [getn] starts from: [None] when an argument is not a pair
    (the call returns the empty array), [Some None] when the binary search
    does not come back. *)
Definition getn_bounds (d : db) (index_range time_range : option (list Z))
  : option (option (Z * Z)) :=
  match index_range with
  | Some [_] | Some [] | Some (_ :: _ :: _ :: _) => None
  | _ =>
      let by_index :=
        match index_range with
        | Some [a; b] => (a, b)
        | _ => (0, cache_size d)
        end in
      match time_range with
      | None => Some (Some by_index)
      | Some [t0; t1] =>
          match _binary_search_index d t0, _binary_search_index d t1 with
          | Some e0, Some e1 => Some (Some (e0 + 1, e1 + 1))
          | _, _ => Some None
          end
      | Some _ => None
      end
  end.

(** The part of [getn] after the bounds are known. *)
Definition getn_range (d : db) (start_index end_index : Z) : outcome (list value) * db :=
  let size := index_size d in
  (* if we are overshooting, just return all data *)
  let '(start_index, end_index) :=
    if Z.ltb size end_index || Z.ltb size start_index
    then (0, size) else (start_index, end_index) in
  if Z.ltb start_index 0 || Z.ltb end_index 0 || Z.ltb end_index start_index
  then (Returns [], d)
  else if Z.leb end_index (cache_size d)
  then (Returns (slice (cache d) start_index end_index), memory_read d)
  else
    match rindex d !! (size - end_index) with
    | Some key =>
        if negb (String.eqb key EmptyString) then
          match index_get (index d) key with
          | Absent => (TypeError, d)
          | p =>
              let up_to_file :=
                match p with Own e => cache_name (f e) | _ => "undefined" end in
              let to_load := files_to_load (cfg d) (_getFiles d) up_to_file in
              let '(retval, d') := load_files (memory_read d) (cache d) to_load in
              (Returns (slice retval start_index end_index), d')
          end
        else (ReferenceError, d)
    | None => (ReferenceError, d)
    end.

(** [getn(index_range, time_range)]; an argument is [null] ([None]) or an
    array of integers. *)
Definition getn (d : db) (index_range time_range : option (list Z))
  : option (outcome (list value) * db) :=
  match getn_bounds d index_range time_range with
  | None => Some (Returns [], d)
  | Some None => None
  | Some (Some (start_index, end_index)) => Some (getn_range d start_index end_index)
  end.

(** ** filter *)

(** The two locals of [filter] that the evaluated text is meant to fill. *)
Record frame : Type := {
  results : list value;
  obj : list (string * value);
}.

(** What else is in scope when [eval(callback_str)] runs inside [filter]:
    [this] (with the read counters as they are at that moment), the array
    [files], the count [num], the parameter [limit] (an integer or not), and
    in the loop over the files the variables [file] and [parsed_data]. *)
Record scope : Type := {
  sc_this : db;
  sc_files : list Z;
  sc_num : Z;
  sc_limit : option Z;
  sc_file : option Z;
  sc_parsed_data : option (list value);
}.

(** How one [eval(callback_str)] ends.  The call is a direct eval inside
    [filter]: the text runs in the scope of the method and can do anything
    there.  [Normal fr]: it returned, what it did depends on nothing but the
    text and what is in scope, and all it changed are the contents of
    [results] and [obj], now [fr].  [Thrown err]: it threw, with
    [err.toString()] being [err].  [Beyond]: anything else (it changed
    [files], [num], [limit], [this], the array being traversed, the
    directory, ...); what [filter] does from then on is up to the text and
    is not modelled. *)
Inductive completion : Type :=
  | Normal (fr : frame)
  | Thrown (err : string)
  | Beyond.

(** [eval(callback_str)] with [data] bound to one item: the JavaScript
    engine runs the text against everything in scope.  The engine is an
    argument of the model; the text is whatever the caller passed. *)
Definition evaluator : Type := string -> scope -> value -> frame -> completion.

Inductive filter_return : Type :=
  | FResults (r : list value)                      (* [return results] *)
  | FError (err : string)                          (* [return err.toString()] *)
  | FObject (r : list value) (o : list (string * value)).

(** [for (let data of items) if (data) eval(callback_str)] *)
Fixpoint eval_items (eval : evaluator) (callback_str : string) (sc : scope)
    (items : list value) (fr : frame) : completion :=
  match items with
  | [] => Normal fr
  | data :: rest =>
      if truthy data then
        match eval callback_str sc data fr with
        | Normal fr' => eval_items eval callback_str sc rest fr'
        | Thrown err => Thrown err
        | Beyond => Beyond
        end
      else eval_items eval callback_str sc rest fr
  end.

(** [Number.isInteger(limit) && num >= limit]; a limit that is no integer is
    [None]. *)
Definition limit_reached (limit : option Z) (num : Z) : bool :=
  match limit with
  | Some l => Z.leb l num
  | None => false
  end.

(** The loop of [filter] over the archived files, [files] being the whole
    array and [rest] what is left of it; [None] after an evaluation that
    went beyond [results] and [obj]. *)
Fixpoint filter_files (eval : evaluator) (callback_str : string) (limit : option Z)
    (files rest : list Z) (num : Z) (fr : frame) (d : db)
  : option (filter_return * db) :=
  match rest with
  | [] => Some (FObject (results fr) (obj fr), d)
  | file :: rest' =>
      let parsed_data := read_archived d file in
      let d1 := file_read d in
      let num1 := num + Z.of_nat (length parsed_data) in
      let sc :=
        {| sc_this := d1; sc_files := files; sc_num := num1; sc_limit := limit;
           sc_file := Some file; sc_parsed_data := Some parsed_data |} in
      match eval_items eval callback_str sc parsed_data fr with
      | Thrown err => Some (FError err, d1)
      | Beyond => None
      | Normal fr1 =>
          if limit_reached limit num1 then Some (FObject (results fr1) (obj fr1), d1)
          else filter_files eval callback_str limit files rest' num1 fr1 d1
      end
  end.

(** [filter(callback_str, limit)]: what it returns and the engine
    afterwards; [None] after an evaluation that went beyond [results] and
    [obj]. *)
Definition filter (eval : evaluator) (d : db) (callback_str : string)
    (limit : option Z) : option (filter_return * db) :=
  let files := _getFiles d in
  let d1 := memory_read d in
  let sc :=
    {| sc_this := d1; sc_files := files; sc_num := 0; sc_limit := limit;
       sc_file := None; sc_parsed_data := None |} in
  match eval_items eval callback_str sc (cache d) {| results := []; obj := [] |} with
  | Thrown err => Some (FError err, d1)
  | Beyond => None
  | Normal fr =>
      let num := Z.of_nat (length (cache d)) in
      if limit_reached limit num then Some (FResults (results fr), d1)
      else filter_files eval callback_str limit files files num fr d1
  end.

(** ** Startup *)

Inductive startup : Type :=
  | Serving (d : db)
  | Fatal (msg : string).      (* [throw Error(msg)] *)

(** The comparison of [sum] with [sum2] on the parsed keys of the reverse
    index ([Object.keys(this.rindex).map(parseInt)]). *)
Definition rindex_sum_ok (rindex_keys : list Z) : bool :=
  let sum := foldr Z.add 0 rindex_keys in
  let n := Z.of_nat (length rindex_keys) in
  let sum2 := ((n - 1) * n) / 2 in
  Z.eqb sum sum2.

(** The sum of an array of numbers. *)
Definition zsum (l : list Z) : Z := foldr Z.add 0 l.

(** [meta.archive[file]] is set. *)
Definition in_archive (archive : list (Z * Z)) (file : Z) : bool :=
  existsb (fun p => Z.eqb (fst p) file) archive.

(** The number of items in all segment files of the directory. *)
Definition items_on_disk (k : disk) : Z :=
  foldr Z.add 0 (map (fun p => Z.of_nat (length (snd p))) (map_to_list (cache_files k)))
  + foldr Z.add 0 (map (fun p => Z.of_nat (length (snd p))) (map_to_list (archived_files k))).

Definition archive_total (archive : list (Z * Z)) : Z :=
  foldr Z.add 0 (map snd archive).

(** [_consistency_checks]: [Some msg] when a check throws. *)
Definition _consistency_checks (d : db) : option string :=
  let rindex_keys := map fst (map_to_list (rindex d)) in
  if Z.ltb 0 (rindex_size d) && negb (rindex_sum_ok rindex_keys)
  then Some "ConsistencyCheck: Broken rindex"
  else if negb (Z.eqb (index_size d) (rindex_size d))
  then Some "ConsistencyCheck: Conflicting index sizes"
  else if negb (forallb (in_archive (meta_archive d)) (_getFiles d))
  then Some "ConsistencyCheck: file not included in meta.json archive"
  else
    let num_items := items_on_disk (dir d) in
    if negb (Z.eqb (index_size d) num_items) && negb (Z.eqb num_items (rindex_size d))
    then Some "ConsistencyCheck: Conflicting number of items in database"
    else
      let sum := archive_total (meta_archive d) in
      if negb (Z.eqb sum (index_size d - cache_size d))
         || negb (Z.eqb sum (rindex_size d - cache_size d))
      then Some "ConsistencyCheck: meta archive file size does not amount to index/rindex size"
      else None.

(** [_check_config]: [Some msg] when an option is out of range. *)
Definition _check_config (c : config) : option string :=
  if Qle_bool (persist_after_MB c) 0 || negb (Qle_bool (persist_after_MB c) 100)
  then Some "InvalidConfig: persist_after_MB"
  else if Qle_bool (persist_after_seconds c) 4
          || negb (Qle_bool (persist_after_seconds c) (100 * 24 * 60 * 60))
  then Some "InvalidConfig: persist_after_seconds"
  else if Qle_bool (flush_interval c) 3
          || negb (Qle_bool (flush_interval c) (10 * 60 * 60))
  then Some "InvalidConfig: flush_interval"
  else if Z.leb (max_key_size_bytes c) 100 || Z.ltb (1024 * 64) (max_key_size_bytes c)
  then Some "InvalidConfig: max_key_size_bytes"
  else if Z.ltb (max_value_size_bytes c) 1024
          || Z.ltb (1048576 * 10) (max_value_size_bytes c)
  then Some "InvalidConfig: max_value_size_bytes"
  else if Z.leb (strlen (file_prefix c)) 0 || negb (includes (file_prefix c) "_")
  then Some "InvalidConfig: file_prefix must include a `_`"
  else None.

(** [_load_cache]: the most recent file without the prefix is the cache
    file; without one a fresh cache file is created at [t_name]. *)
Definition _load_cache (d : db) (t_name : Z) : db :=
  match merge_sort (flip Z.le) (map fst (map_to_list (cache_files (dir d)))) with
  | actual :: _ =>
      with_cache_file_name
        (with_cache d (default [] (cache_files (dir d) !! actual))) actual
  | [] => _create_cache_file d t_name
  end.

(** [new DBjs(config)] on the directory [k]. *)
Definition DBjs_new (c : config) (k : disk) (t_started t_name : Z) : startup :=
  match _check_config c with
  | Some msg => Fatal msg
  | None =>
  let d0 :=
    {| cfg := c; cache := []; cache_file_name := 0; started := t_started;
       index := []; rindex := ∅; meta_archive := [];
       stats := zero_counters; dir := k |} in
  let d1 := _load_cache d0 t_name in
  let d2 := with_index d1 (default [] (index_json k)) in
  let d3 := with_rindex d2 (default ∅ (rindex_json k)) in
  let d4 := with_meta_archive d3 (default [] (meta_json k)) in
  match _consistency_checks d4 with
  | Some msg => Fatal msg
  | None => Serving d4
  end
  end.

(** ** Sequences of calls *)

(** The public calls, each with the clock readings it makes. *)
Inductive op : Type :=
  | Set_ (now : Z) (key v : value)
  | Get (key : value)
  | Getn (index_range time_range : option (list Z))
  | Persist (t_delta t_name t_started : Z).

(** The state after one call, for a caller that goes on after a call whether
    it returned or threw: a [getn] that ends in a ReferenceError or
    TypeError has changed nothing, and the sequence continues from the same
    state.  [None] stands for the two ways a call could leave no state to
    go on from, a [renameSync] on a missing file inside [_persist] and a
    binary search without end; neither happens (lemmas [_persist_total] and
    [getn_total]). *)
Definition run_op (d : db) (o : op) : option db :=
  match o with
  | Set_ now key v => Some (snd (set d now key v))
  | Get key => Some (snd (get d key))
  | Getn index_range time_range => snd <$> getn d index_range time_range
  | Persist t_delta t_name t_started => _persist d t_delta t_name t_started
  end.

Fixpoint run (d : db) (ops : list op) : option db :=
  match ops with
  | [] => Some d
  | o :: rest =>
      match run_op d o with
      | Some d' => run d' rest
      | None => None
      end
  end.

(** A clock reading gives a usable name for the next cache file when no
    segment file of the database has a name that contains it.  Readings of
    a millisecond clock have thirteen digits, and two of them taken at
    different times differ; such readings are usable whenever the prefix has
    no dot (lemma [fresh_name_timestamp] below). *)
Definition fresh_name (d : db) (t_name : Z) : bool :=
  forallb (fun a => negb (includes (archive_name (cfg d) a) (cache_name t_name)))
    (map fst (meta_archive d) ++ [cache_file_name d]).

(** The clock readings of a sequence of calls are usable: whenever a
    [_persist] archives the cache, the name it picks next is fresh. *)
Fixpoint clock_ok (d : db) (ops : list op) : bool :=
  match ops with
  | [] => true
  | o :: rest =>
      match o with
      | Persist t_delta t_name _ => if rotates d t_delta then fresh_name d t_name else true
      | _ => true
      end
      && match run_op d o with
         | Some d' => clock_ok d' rest
         | None => true
         end
  end.

(** ** Keys and values a call rejects *)

(** A key that is no string, or a string longer than [max_key_size_bytes]. *)
Definition rejected_key (c : config) (key : value) : Prop :=
  match key with
  | VStr s => max_key_size_bytes c < strlen s
  | _ => True
  end.

(** A value without JSON text, or with a text longer than
    [max_value_size_bytes]. *)
Definition rejected_value (c : config) (v : value) : Prop :=
  match JSON_stringify v with
  | SString s => max_value_size_bytes c < strlen s
  | _ => True
  end.

(** The configuration of the test suite. *)
Definition test_config : config := {|
  persist_after_MB := (5 # 100)%Q;
  persist_after_seconds := 7%Q;
  flush_interval := 4%Q;
  file_prefix := "dbjs_";
  max_key_size_bytes := 1024;
  max_value_size_bytes := 1048576;
|}.

(** ** Small databases used in examples *)

Definition fresh_db : db := open_fresh test_config 1000 1001.

(** Three keys inserted one millisecond apart, nothing archived. *)
Definition three_keys : db :=
  let d1 := snd (set fresh_db 1002 (VStr "a") (VStr "va")) in
  let d2 := snd (set d1 1003 (VStr "b") (VStr "vb")) in
  snd (set d2 1004 (VStr "c") (VStr "vc")).

(** The key [b], then the key [7] one millisecond later. *)
Definition numeric_key_db : db :=
  let d1 := snd (set fresh_db 1002 (VStr "b") (VStr "vb")) in
  snd (set d1 1003 (VStr "7") (VStr "v7")).

(** The position the specification asks of the search: the insertion point
    of [ts] in the ascending array, which is the number of elements below
    [ts], hence the first position when [ts] occurs. *)
Definition insertion_point (sortedArray : list Z) (ts : Z) : Z :=
  Z.of_nat (length (List.filter (fun x => Z.ltb x ts) sortedArray)).

(** ** The items filter visits *)







(** ** Rotation examples *)

Fixpoint repeat_char (n : nat) (ch : ascii) : string :=
  match n with
  | O => EmptyString
  | S n' => String ch (repeat_char n' ch)
  end.

(** One value whose cache text [JSON.stringify([v])] has 52000 bytes. *)
Definition big_value : value := VStr (repeat_char (Z.to_nat 51996) "A").



(** ** The invariant of a running engine *)

(** The names of the segments in creation order: the archived ones, then the
    cache file. *)
Definition seg_names (d : db) : list Z :=
  map fst (meta_archive d) ++ [cache_file_name d].

(** No archived file has a name that contains the name a later segment had
    as cache file. *)
Definition names_ok (c : config) (names : list Z) : Prop :=
  forall (p q : nat) (a b : Z),
    names !! p = Some a -> names !! q = Some b -> (p < q)%nat ->
    includes (archive_name c a) (cache_name b) = false.

Record Inv (d : db) : Prop := {
  (* the entry at position n of the index has seq n, and its key occurs once *)
  inv_seq : forall (n : nat) (k : string) (e : entry),
    index d !! n = Some (k, e) ->
    i e = Z.of_nat n /\ own_property (index d) k = Some e;
  (* every stored key passes [_check_key] and is no inherited name *)
  inv_keys : forall (n : nat) (k : string) (e : entry),
    index d !! n = Some (k, e) ->
    _check_key (cfg d) (VStr k) = 1 /\ is_inherited k = false;
  (* the reverse index is the inverse of the seq field *)
  inv_rindex : forall (j : Z) (k : string),
    rindex d !! j = Some k <->
    exists (n : nat) (e : entry), j = Z.of_nat n /\ index d !! n = Some (k, e);
  inv_rsize : size (rindex d) = length (index d);
  (* cache length = index size - sum of the archive sizes *)
  inv_cache : cache_size d = index_size d - archive_total (meta_archive d);
  inv_names : names_ok (cfg d) (seg_names d);
  (* an archived entry lies in its file, at the place the offsets give *)
  inv_archived : forall (k : string) (e : entry),
    own_property (index d) k = Some e ->
    i e < archive_total (meta_archive d) ->
    In (f e) (map fst (meta_archive d)) /\
    exists content : list value,
      archived_files (dir d) !! f e = Some content /\
      archive_offset (cfg d) (meta_archive d) (f e) <= i e
        < archive_offset (cfg d) (meta_archive d) (f e) + Z.of_nat (length content);
  (* an entry that is not archived belongs to the current cache file *)
  inv_cached : forall (k : string) (e : entry),
    own_property (index d) k = Some e ->
    archive_total (meta_archive d) <= i e ->
    f e = cache_file_name d;
}.

(** Two states that differ in counters and in files other than the archived
    ones. *)
Definition same_core (d d' : db) : Prop :=
  cfg d' = cfg d /\ cache d' = cache d /\ cache_file_name d' = cache_file_name d /\
  index d' = index d /\ rindex d' = rindex d /\ meta_archive d' = meta_archive d /\
  archived_files (dir d') = archived_files (dir d).

(** Two keys, an archiving checkpoint eight seconds after the start, then a
    third key: [a] and [b] are archived, [c] is in the cache. *)
Definition archive_ops : list op :=
  [ Set_ 1002 (VStr "a") (VStr "va");
    Set_ 1003 (VStr "b") (VStr "vb");
    Persist 9000 9001 9002;
    Set_ 9003 (VStr "c") (VStr "vc") ].

Definition archived_db : db := default fresh_db (run fresh_db archive_ops).

(** ** Where the value of a stored key lives *)

(** The test of [_get_memory_cache_index] on an entry. *)
Definition cached (d : db) (e : entry) : bool :=
  Z.ltb (index_size d - (i e + 1)) (cache_size d).

(** The key is stored and its value is in an archived file. *)
Definition is_archived (d : db) (k : string) : bool :=
  match own_property (index d) k with
  | Some e => negb (cached d e)
  | None => false
  end.

(** The entries of [meta.archive] in front of the entry called [name]: the
    segments that were archived before that one. *)
Fixpoint sealed_before (archive : list (Z * Z)) (name : Z) : list (Z * Z) :=
  match archive with
  | [] => []
  | (n, s) :: rest =>
      if Z.eqb n name then [] else (n, s) :: sealed_before rest name
  end.

(** An array in ascending order. *)
Definition ascending (a : list Z) : Prop :=
  forall (j1 j2 : nat) (x y : Z),
    a !! j1 = Some x -> a !! j2 = Some y -> (j1 <= j2)%nat -> x <= y.

(** The text has no dot. *)
Fixpoint no_dot (s : string) : bool :=
  match s with
  | EmptyString => true
  | String ch s' => negb (Ascii.eqb ch ".") && no_dot s'
  end.

(** ** The keys a sequence of calls stores *)

(** The key of a [set] that passes both checks and is no inherited name. *)
Definition storable (c : config) (key v : value) : option string :=
  match key with
  | VStr k =>
      if Z.eqb (_check_key c key) 1 && Z.eqb (_check_value c v) 1
         && negb (is_inherited k)
      then Some k else None
  | _ => None
  end.

(** The storable keys of the [set] calls of a sequence, each once, in the
    order of their first [set], after the keys [seen] so far. *)
Fixpoint put_keys (c : config) (ops : list op) (seen : list string) : list string :=
  match ops with
  | [] => seen
  | Set_ _ key v :: rest =>
      match storable c key v with
      | Some k =>
          if existsb (String.eqb k) seen then put_keys c rest seen
          else put_keys c rest (seen ++ [k])
      | None => put_keys c rest seen
      end
  | _ :: rest => put_keys c rest seen
  end.

(** ** The invariant of the database directory *)

(** What holds of the files next to [Inv]: archived files hold what JSON
    reads, they are the files of the catalogue, with the sizes the catalogue
    records, and the only other segment file is the cache file. *)
Record DiskInv (d : db) : Prop := {
  disk_json : forall (a : Z) (content : list value),
    archived_files (dir d) !! a = Some content ->
    map json_reparse content = content;
  disk_files : forall a : Z,
    is_Some (archived_files (dir d) !! a) <-> In a (map fst (meta_archive d));
  disk_sizes : forall (a s : Z) (content : list value),
    In (a, s) (meta_archive d) -> archived_files (dir d) !! a = Some content ->
    Z.of_nat (length content) = s;
  disk_nodup : NoDup (map fst (meta_archive d));
  disk_positive : forall a s : Z, In (a, s) (meta_archive d) -> 0 < s;
  disk_cache_file : exists fc : list value,
    cache_files (dir d) = {[cache_file_name d := fc]} /\ (cache d = [] -> fc = []);
}.

(** The five ways a call of [set] can go. *)
Inductive set_case (d : db) (now : Z) (key v : value) : Prop :=
  | set_rejects :
      set d now key v = (false, d) -> set_case d now key v
  | set_ignores (k : string) :
      key = VStr k -> index_get (index d) k = Inherited ->
      set d now key v = (true, d) -> set_case d now key v
  | set_inserts (k : string) :
      key = VStr k -> own_property (index d) k = None -> is_inherited k = false ->
      set d now key v =
        (true,
         with_rindex
           (with_index (memory_write (with_cache d (v :: cache d)))
              (index d ++ [(k, {| i := index_size d; f := cache_file_name d; c := now |})]))
           (<[index_size d := k]> (rindex d))) ->
      set_case d now key v
  | set_overwrites_cache (k : string) (e : entry) :
      key = VStr k -> own_property (index d) k = Some e ->
      0 <= index_size d - (i e + 1) < cache_size d ->
      set d now key v =
        (true,
         memory_write
           (with_cache d (<[Z.to_nat (index_size d - (i e + 1)) := v]> (cache d)))) ->
      set_case d now key v
  | set_overwrites_file (k : string) (e : entry) (parsed : list value) :
      key = VStr k -> own_property (index d) k = Some e ->
      cache_size d <= index_size d - (i e + 1) ->
      archived_files (dir d) !! f e = Some parsed ->
      0 <= _get_archived_index d (i e) (f e) (Z.of_nat (length parsed))
        < Z.of_nat (length parsed) ->
      set d now key v =
        (true,
         file_write
           (with_dir (file_read d)
              (with_archived_files (dir d)
                 (<[f e := file_content
                             (<[Z.to_nat (_get_archived_index d (i e) (f e)
                                            (Z.of_nat (length parsed))) := v]> parsed)]>
                    (archived_files (dir d)))))) ->
      set_case d now key v.

(** The key is stored and its value is in the cache. *)
Definition is_cached (d : db) (k : string) : bool :=
  match own_property (index d) k with
  | Some e => cached d e
  | None => false
  end.

(** ** _getn and walk *)

(** The loop of [_getn] over the archived files. *)
Fixpoint _getn_files (d : db) (limit : Z) (retval : list value) (files : list Z)
  : list value * db :=
  match files with
  | [] => (retval, d)
  | file :: rest =>
      let parsed_data := read_archived d file in
      let d1 := file_read d in
      let retval1 := (retval ++ parsed_data)%list in
      if Z.ltb limit (Z.of_nat (length retval1)) then (retval1, d1)
      else _getn_files d1 limit retval1 rest
  end.

(** [_getn(limit)]: everything until the limit is reached. *)
Definition _getn (d : db) (limit : Z) : list value * db :=
  let retval := cache d in
  let d1 := memory_read d in
  if Z.ltb limit (Z.of_nat (length retval)) then (retval, d1)
  else _getn_files d1 limit retval (_getFiles d).






(** The engine [d'] is [d] with other counters. *)
Definition counters_apart (d d' : db) : Prop :=
  exists s : counters, d' = with_stats d s.

(** ** All stored values, most recent first *)


(** The timestamps in the names of the archived files grow along the
    catalogue. *)
Definition timestamps_ascending (d : db) : Prop :=
  StronglySorted Z.lt (map fst (meta_archive d)).

(** They all have the same number of digits, as millisecond timestamps of
    one era have. *)
Definition same_digits (d : db) : Prop :=
  forall a b : Z,
    In a (map fst (meta_archive d)) -> In b (map fst (meta_archive d)) ->
    String.length (pretty a) = String.length (pretty b).

(** Five keys over two archiving checkpoints: [a] and [b] are in the oldest
    file, [c] and [d] in the next one, [e] is in the cache. *)
Definition two_archives_ops : list op :=
  [ Set_ 10002 (VStr "a") (VStr "va");
    Set_ 10003 (VStr "b") (VStr "vb");
    Persist 18000 18001 18002;
    Set_ 18003 (VStr "c") (VStr "vc");
    Set_ 18004 (VStr "d") (VStr "vd");
    Persist 26000 26001 26002;
    Set_ 26003 (VStr "e") (VStr "ve") ].

Definition two_archives_db : db :=
  default fresh_db (run (open_fresh test_config 10000 10001) two_archives_ops).

(** ** Clock readings that grow *)

(** Whenever a [_persist] archives the cache, the new cache file gets a
    later timestamp with as many digits as the old one. *)
Fixpoint clock_ascending (d : db) (ops : list op) : bool :=
  match ops with
  | [] => true
  | o :: rest =>
      match o with
      | Persist t_delta t_name _ =>
          if rotates d t_delta
          then Z.ltb (cache_file_name d) t_name
               && Nat.eqb (String.length (pretty (cache_file_name d)))
                          (String.length (pretty t_name))
          else true
      | _ => true
      end
      && match run_op d o with
         | Some d' => clock_ascending d' rest
         | None => true
         end
  end.

(** The segment names grow in creation order and have the same number of
    digits. *)
Definition segments_ascending (d : db) : Prop :=
  StronglySorted Z.lt (seg_names d) /\
  forall a : Z, In a (seg_names d) ->
    String.length (pretty a) = String.length (pretty (cache_file_name d)).

(** The store of [two_archives_db] after a checkpoint that archives
    nothing: two archived files with two items each, one item in the cache
    file, and the three JSON files of index, reverse index and catalogue. *)
Definition persisted_db : db :=
  default fresh_db (_persist two_archives_db 26500 26501 26502).

(** Two checkpoints that archive within one millisecond: the cache file
    created at 1001 is archived at 1001, and the next cache file gets the
    same name [1001.json].  Both values have 52000 bytes of cache text, which
    is the size threshold of the test suite. *)
Definition big_value' : value := VStr (repeat_char (Z.to_nat 51996) "B").

Definition reused_name_ops : list op :=
  [ Set_ 1001 (VStr "a") big_value;
    Persist 1001 1001 1001;
    Set_ 1001 (VStr "b") big_value';
    Persist 1001 1002 1002 ].

Definition reused_name_db : db := default fresh_db (run fresh_db reused_name_ops).

(** * Properties *)

Local Open Scope list_scope.

(** ** Rejected keys and values *)

Lemma check_key_rejected c key : rejected_key c key -> _check_key c key = -1.
Proof.
  destruct key; simpl; try reflexivity.
  intros H. destruct (Z.ltb_spec (max_key_size_bytes c) (strlen s)); [reflexivity | lia].
Qed.

Lemma check_value_rejected c v : rejected_value c v -> _check_value c v = -1.
Proof.
  unfold rejected_value, _check_value. destruct (JSON_stringify v); try reflexivity.
  intros H. destruct (Z.ltb_spec (max_value_size_bytes c) (strlen s)); [reflexivity | lia].
Qed.

Lemma check_key_values c key : _check_key c key = 1 \/ _check_key c key = -1.
Proof. destruct key; simpl; auto. destruct (Z.ltb _ _); auto. Qed.

Lemma check_key_accepts c key :
  _check_key c key = 1 <-> exists s, key = VStr s /\ strlen s <= max_key_size_bytes c.
Proof.
  split.
  - destruct key; simpl; try discriminate.
    destruct (Z.ltb_spec (max_key_size_bytes c) (strlen s)); [discriminate |].
    intros _. exists s. split; [reflexivity | lia].
  - intros (s & -> & Hs). simpl.
    destruct (Z.ltb_spec (max_key_size_bytes c) (strlen s)); [lia | reflexivity].
Qed.

(** C3, as stated, fails: the empty string is not a non-empty string, yet
    [set] accepts it, returns [true] and the index grows. *)
Lemma C3_empty_key_accepted :
  let key := VStr EmptyString in
  let r := set fresh_db 1002 key (VStr "v") in
  fst r = true /\ index_size fresh_db = 0 /\ index_size (snd r) = 1.
Proof. vm_compute. auto. Qed.

(** C3 (amended): a key that is no string or is longer than
    [max_key_size_bytes], or a value that has no JSON text or whose text is
    longer than [max_value_size_bytes], makes [set] return [false] and leave
    the whole state (index, reverse index, cache, counters, files) as it
    was. *)
Theorem C3_rejected_set_no_mutation (d : db) (now : Z) (key v : value) :
  rejected_key (cfg d) key \/ rejected_value (cfg d) v ->
  set d now key v = (false, d).
Proof.
  intros [Hk | Hv]; unfold set.
  - rewrite (check_key_rejected _ _ Hk). reflexivity.
  - rewrite (check_value_rejected _ _ Hv).
    destruct (check_key_values (cfg d) key) as [-> | ->]; reflexivity.
Qed.

Lemma C3_rejected_set_no_mutation_witness :
  rejected_key (cfg fresh_db) (VInt 7 I) /\
  set fresh_db 1002 (VInt 7 I) (VStr "v") = (false, fresh_db).
Proof.
  split; [exact I |].
  apply (C3_rejected_set_no_mutation fresh_db 1002 (VInt 7 I) (VStr "v")).
  left. exact I.
Defined.

(** ** get on keys that are not stored *)

Lemma get_rejected (d : db) (key : value) :
  rejected_key (cfg d) key -> get d key = (VUndefined, d).
Proof. intros H. unfold get. rewrite (check_key_rejected _ _ H). reflexivity. Qed.

Lemma get_absent (d : db) (s : string) :
  index_get (index d) s = Absent -> get d (VStr s) = (VUndefined, d).
Proof.
  intros H. unfold get. simpl. destruct (Z.ltb _ _); simpl; [reflexivity |].
  rewrite H. reflexivity.
Qed.

(** C10, at the failing input: [constructor] is a valid key that no [set]
    ever stored, yet [get] answers [null], not [undefined], because the read
    [this.index[key]] finds [Object.prototype.constructor]. *)
Theorem C10_get_inherited_name :
  _check_key (cfg fresh_db) (VStr "constructor") = 1 /\
  own_property (index fresh_db) "constructor" = None /\
  get fresh_db (VStr "constructor") = (VNull, fresh_db).
Proof. vm_compute. auto. Qed.

(** ** getn by position *)



(** ** getn by time *)



(** C7, at the failing input: three keys inserted at 1002, 1003, 1004.  The
    boundary 1003 occurs in the array; its insertion point is 1, but the
    search stops at its first probe and hands back the right end of the
    window, so the position used is 3, and the range from 1003 to 1004 comes
    back empty. *)
Theorem C7_tie_gives_window_end :
  insertion_times three_keys = [1002; 1003; 1004] /\
  insertion_point (insertion_times three_keys) 1003 = 1 /\
  (fun e => e + 1) <$> _binary_search_index three_keys 1003 = Some 3 /\
  fst <$> getn three_keys None (Some [1003; 1004]) = Some (Returns []).
Proof. vm_compute. auto. Qed.

(** [for (let key in this.index)] lists a key that is an array index before
    the other keys: the insertion times of [b] (seq 0) and [7] (seq 1) come
    out in the order 1003, 1002, which is neither seq order nor ascending. *)
Lemma for_in_lists_array_indices_first :
  map (fun p => (fst p, i (snd p), c (snd p))) (index numeric_key_db)
    = [("b", 0, 1002); ("7", 1, 1003)] /\
  insertion_times numeric_key_db = [1003; 1002].
Proof. vm_compute. auto. Qed.

(** ** The search when the timestamp does not occur *)

Lemma insertion_point_split (key : Z) (a : list Z) : forall s : nat,
  (forall (j : nat) (x : Z), a !! j = Some x -> (j < s)%nat -> x < key) ->
  (forall (j : nat) (x : Z), a !! j = Some x -> (s <= j)%nat -> key < x) ->
  (s <= length a)%nat ->
  insertion_point a key = Z.of_nat s.
Proof.
  unfold insertion_point.
  induction a as [| x a IH]; intros s Hlow Hhigh Hs.
  - simpl in *. f_equal. lia.
  - cbn [List.filter]. destruct s as [| s].
    + pose proof (Hhigh 0%nat x eq_refl ltac:(lia)) as Hx.
      destruct (Z.ltb_spec x key); [lia |].
      apply (IH 0%nat); [intros; lia | | lia].
      intros j y Hj _. apply (Hhigh (S j) y Hj). lia.
    + pose proof (Hlow 0%nat x eq_refl ltac:(lia)) as Hx.
      destruct (Z.ltb_spec x key); [| lia]. cbn [length].
      assert (Z.of_nat (length (List.filter (fun x0 : Z => Z.ltb x0 key) a)) = Z.of_nat s)
        as Hrec.
      { apply IH; [| | simpl in Hs; lia].
        - intros j y Hj Hlt. apply (Hlow (S j) y Hj). lia.
        - intros j y Hj Hge. apply (Hhigh (S j) y Hj). lia. }
      lia.
Qed.

Lemma binary_search_loop_not_found (a : list Z) (key : Z) (fuel : nat) :
  forall start end_ : Z,
  ascending a -> ~ In key a ->
  0 <= start -> end_ < Z.of_nat (length a) -> start <= end_ + 1 ->
  (forall (j : nat) (x : Z), a !! j = Some x -> Z.of_nat j < start -> x < key) ->
  (forall (j : nat) (x : Z), a !! j = Some x -> end_ < Z.of_nat j -> key < x) ->
  (Z.to_nat (end_ - start + 1) < fuel)%nat ->
  exists s : nat,
    binary_search_loop fuel a key start end_ = Some (Z.of_nat s, Z.of_nat s - 1) /\
    insertion_point a key = Z.of_nat s.
Proof.
  induction fuel as [| fuel IH]; intros start end_ Hasc Hnotin H0 Hend Hse Hlow Hhigh Hfuel;
    [lia |].
  simpl. destruct (Z.leb_spec start end_) as [Hle | Hgt].
  - assert (start <= (start + end_) / 2 <= end_) as Hmid.
    { split; [apply Z.div_le_lower_bound | apply Z.div_le_upper_bound]; lia. }
    set (middle := (start + end_) / 2) in *.
    destruct (a !! Z.to_nat middle) as [x |] eqn:Hx;
      [| apply lookup_ge_None in Hx; lia].
    simpl. destruct (Z.eqb_spec x key) as [-> | Hne].
    { exfalso. apply Hnotin. apply list_elem_of_In, list_elem_of_lookup. eauto. }
    destruct (Z.ltb_spec x key) as [Hlt | Hge].
    + apply IH; try assumption; try lia.
      intros j y Hj Hjm. 
      assert (y <= x) by (apply (Hasc j (Z.to_nat middle) y x Hj Hx); lia). lia.
    + apply IH; try assumption; try lia.
      intros j y Hj Hjm.
      assert (x <= y) by (apply (Hasc (Z.to_nat middle) j x y Hx Hj); lia). lia.
  - exists (Z.to_nat start). replace (Z.of_nat (Z.to_nat start)) with start by lia.
    assert (end_ = start - 1) as -> by lia. split; [reflexivity |].
    replace start with (Z.of_nat (Z.to_nat start)) at 1 by lia.
    apply insertion_point_split.
    + intros j x Hj Hlt. apply (Hlow j x Hj). lia.
    + intros j x Hj Hge. apply (Hhigh j x Hj). lia.
    + lia.
Qed.

(** X15: for an ascending array and a timestamp that does not occur in it, the
    position [getn] uses ([end + 1]) is the insertion point. *)
Lemma _binary_search_not_found (a : list Z) (ts : Z) :
  ascending a -> ~ In ts a ->
  (fun p => snd p + 1) <$> _binary_search a ts = Some (insertion_point a ts).
Proof.
  intros Hasc Hnotin. unfold _binary_search.
  destruct (binary_search_loop_not_found a ts (S (length a)) 0 (Z.of_nat (length a) - 1))
    as (s & Hs & Hip); try assumption; try lia.
  - intros j x Hj Hlt. apply lookup_lt_Some in Hj. lia.
  - rewrite Hs, Hip. simpl. f_equal. lia.
Qed.

(** ** The startup check of the reverse index *)

Lemma zsum_Permutation (l k : list Z) : l ≡ₚ k -> zsum l = zsum k.
Proof. induction 1; simpl in *; lia. Qed.

Lemma zsum_app (l k : list Z) : zsum (l ++ k) = zsum l + zsum k.
Proof. induction l; simpl in *; lia. Qed.

Lemma zsum_seqZ (a : Z) (n : nat) :
  2 * zsum (seqZ a (Z.of_nat n)) = 2 * Z.of_nat n * a + Z.of_nat n * (Z.of_nat n - 1).
Proof.
  induction n as [| n IH]; [reflexivity |].
  rewrite seqZ_S, zsum_app. simpl zsum. lia.
Qed.

Lemma half_exact (n : Z) : 2 * (((n - 1) * n) / 2) = (n - 1) * n.
Proof.
  destruct (Z.Even_or_Odd n) as [[k ->] | [k ->]].
  - replace ((2 * k - 1) * (2 * k)) with (((2 * k - 1) * k) * 2) by lia.
    rewrite Z.div_mul by lia. lia.
  - replace ((2 * k + 1 - 1) * (2 * k + 1)) with ((k * (2 * k + 1)) * 2) by lia.
    rewrite Z.div_mul by lia. lia.
Qed.

Lemma rindex_sum_ok_spec (keys : list Z) :
  rindex_sum_ok keys = true <->
  2 * zsum keys = Z.of_nat (length keys) * (Z.of_nat (length keys) - 1).
Proof.
  unfold rindex_sum_ok. fold (zsum keys). rewrite Z.eqb_eq.
  pose proof (half_exact (Z.of_nat (length keys))). lia.
Qed.

(** An ascending list of distinct integers that are all at least [a] sums
    to at least [a + (a+1) + ... ], and only the contiguous range reaches
    that sum. *)
Lemma ascending_sum (s : list Z) : forall a : Z,
  StronglySorted Z.le s -> NoDup s -> Forall (Z.le a) s ->
  2 * Z.of_nat (length s) * a + Z.of_nat (length s) * (Z.of_nat (length s) - 1)
    <= 2 * zsum s
  /\ (2 * zsum s
      = 2 * Z.of_nat (length s) * a + Z.of_nat (length s) * (Z.of_nat (length s) - 1)
      -> s = seqZ a (Z.of_nat (length s))).
Proof.
  induction s as [| x s IH]; intros a Hsort Hnd Hlow.
  - simpl. split; [lia | reflexivity].
  - apply StronglySorted_inv in Hsort as [Hsort Hx].
    apply NoDup_cons in Hnd as [Hnotin Hnd].
    apply Forall_cons in Hlow as [Hax Hlow].
    assert (Forall (Z.le (x + 1)) s) as Hup.
    { apply Forall_forall. intros y Hy.
      rewrite Forall_forall in Hx. specialize (Hx y Hy).
      assert (x <> y) by (intros ->; contradiction). lia. }
    destruct (IH (x + 1) Hsort Hnd Hup) as [Hge Heq].
    cbn [length zsum foldr]. fold (zsum s).
    set (n := Z.of_nat (length s)) in *.
    assert (0 <= n) by (subst n; lia).
    replace (Z.of_nat (S (length s))) with (n + 1) by (subst n; lia).
    split; [nia |].
    intros Hsum.
    assert (x = a) as -> by nia.
    rewrite seqZ_cons by lia.
    f_equal. replace (Z.pred (n + 1)) with n by lia.
    apply Heq. nia.
Qed.

Lemma distinct_sum_range (keys : list Z) :
  NoDup keys -> Forall (Z.le 0) keys ->
  2 * zsum keys = Z.of_nat (length keys) * (Z.of_nat (length keys) - 1) ->
  keys ≡ₚ seqZ 0 (Z.of_nat (length keys)).
Proof.
  intros Hnd Hlow Hsum.
  pose proof (merge_sort_Permutation Z.le keys) as Hperm.
  set (s := merge_sort Z.le keys) in *.
  assert (length s = length keys) as Hlen by (apply Permutation_length; exact Hperm).
  destruct (ascending_sum s 0) as [_ Heq].
  - apply StronglySorted_merge_sort; apply _.
  - rewrite Hperm. exact Hnd.
  - rewrite Hperm. exact Hlow.
  - rewrite <- Hlen, <- Hperm. rewrite <- Heq; [reflexivity |].
    rewrite (zsum_Permutation _ _ Hperm), Hlen. lia.
Qed.

(** C8: for a reverse index with at least one key, the keys being distinct
    non-negative integers, the comparison of their sum with n(n-1)/2 succeeds
    exactly when the keys are the range 0..n-1 (in some order).  On an engine
    with these keys [_consistency_checks] throws its [Broken rindex] error
    exactly when they are not that range, and so does the constructor on a
    directory whose reverse index has these keys; whenever the constructor
    returns an engine, the keys are that range. *)
Theorem C8_rindex_sum_check (keys : list Z) :
  NoDup keys -> Forall (Z.le 0) keys -> (1 <= length keys)%nat ->
  (rindex_sum_ok keys = true <-> keys ≡ₚ seqZ 0 (Z.of_nat (length keys))) /\
  (forall d : db, map fst (map_to_list (rindex d)) = keys ->
     (_consistency_checks d = Some "ConsistencyCheck: Broken rindex"%string
      <-> ~ keys ≡ₚ seqZ 0 (Z.of_nat (length keys)))) /\
  (forall (c : config) (k : disk) (r : gmap Z string) (t_started t_name : Z),
     rindex_json k = Some r -> map fst (map_to_list r) = keys ->
     (~ keys ≡ₚ seqZ 0 (Z.of_nat (length keys)) ->
      exists msg, DBjs_new c k t_started t_name = Fatal msg) /\
     (_check_config c = None ->
      (DBjs_new c k t_started t_name = Fatal "ConsistencyCheck: Broken rindex"%string
       <-> ~ keys ≡ₚ seqZ 0 (Z.of_nat (length keys)))) /\
     (forall d : db, DBjs_new c k t_started t_name = Serving d ->
                     keys ≡ₚ seqZ 0 (Z.of_nat (length keys)))).
Proof.
  intros Hnd Hlow Hlen.
  assert (rindex_sum_ok keys = true <-> keys ≡ₚ seqZ 0 (Z.of_nat (length keys))) as Hiff.
  { rewrite rindex_sum_ok_spec. split.
    - apply distinct_sum_range; assumption.
    - intros Hperm. rewrite (zsum_Permutation _ _ Hperm).
      rewrite zsum_seqZ. lia. }
  assert (forall d : db, map fst (map_to_list (rindex d)) = keys ->
            (_consistency_checks d = Some "ConsistencyCheck: Broken rindex"%string
             <-> ~ keys ≡ₚ seqZ 0 (Z.of_nat (length keys)))) as Hchecks.
  { intros d Hkeys. rewrite <- Hiff. unfold _consistency_checks. rewrite Hkeys.
    assert (Z.ltb 0 (rindex_size d) = true) as ->.
    { apply Z.ltb_lt. unfold rindex_size.
      rewrite <- length_map_to_list, <- (length_map fst), Hkeys. lia. }
    destruct (rindex_sum_ok keys); cbn [andb negb].
    - split; [| intros H; exfalso; apply H; reflexivity].
      repeat (match goal with |- context [if ?b then _ else _] => destruct b end);
        discriminate.
    - split; [intros _; discriminate | reflexivity]. }
  split; [exact Hiff |]. split; [exact Hchecks |].
  intros c k r t_started t_name Hr Hkeys.
  set (d4 := with_meta_archive
               (with_rindex
                  (with_index
                     (_load_cache
                        {| cfg := c; cache := []; cache_file_name := 0;
                           started := t_started; index := []; rindex := ∅;
                           meta_archive := []; stats := zero_counters; dir := k |} t_name)
                     (default [] (index_json k)))
                  (default ∅ (rindex_json k)))
               (default [] (meta_json k))).
  assert (map fst (map_to_list (rindex d4)) = keys) as Hkeys4.
  { subst d4. cbn [rindex with_meta_archive with_rindex]. rewrite Hr. exact Hkeys. }
  pose proof (Hchecks d4 Hkeys4) as H4.
  assert (DBjs_new c k t_started t_name =
          match _check_config c with
          | Some msg => Fatal msg
          | None => match _consistency_checks d4 with
                    | Some msg => Fatal msg
                    | None => Serving d4
                    end
          end) as Hnew by reflexivity.
  split; [| split].
  - intros Hbad. rewrite Hnew. destruct (_check_config c); [eauto |].
    rewrite (proj2 H4 Hbad). eauto.
  - intros Hc. rewrite Hnew, Hc, <- H4.
    destruct (_consistency_checks d4); split; congruence.
  - intros d. rewrite Hnew. destruct (_check_config c); [discriminate |].
    destruct (_consistency_checks d4) eqn:Hcc; [discriminate |]. intros _.
    destruct (rindex_sum_ok keys) eqn:Hsum; [apply Hiff; reflexivity |].
    exfalso. assert (~ keys ≡ₚ seqZ 0 (Z.of_nat (length keys))) as Hbad
      by (intros Hperm; apply Hiff in Hperm; congruence).
    apply H4 in Hbad. congruence.
Qed.

Lemma C8_rindex_sum_check_witness :
  (rindex_sum_ok [1; 0; 2] = true <-> [1; 0; 2] ≡ₚ seqZ 0 3) /\
  forall d : db, map fst (map_to_list (rindex d)) = [1; 0; 2] ->
    (_consistency_checks d = Some "ConsistencyCheck: Broken rindex"%string
     <-> ~ [1; 0; 2] ≡ₚ seqZ 0 3).
Proof.
  destruct (C8_rindex_sum_check [1; 0; 2]) as (H1 & H2 & _).
  - apply (bool_decide_unpack _). vm_compute. reflexivity.
  - repeat constructor; lia.
  - simpl. lia.
  - split; [exact H1 | exact H2].
Defined.

(** ** filter *)

Lemma read_archived_file_read (d : db) (file : Z) :
  read_archived (file_read d) file = read_archived d file.
Proof. reflexivity. Qed.

Lemma map_read_archived_file_read (d : db) (files : list Z) :
  map (read_archived (file_read d)) files = map (read_archived d) files.
Proof. reflexivity. Qed.





(** *** Own properties *)

Lemma own_property_app {A : Type} (o o' : list (string * A)) (k : string) :
  own_property (o ++ o') k =
  match own_property o k with
  | Some a => Some a
  | None => own_property o' k
  end.
Proof.
  induction o as [| [k' a] o IH]; simpl; [reflexivity |].
  destruct (String.eqb k' k); [reflexivity | exact IH].
Qed.

Lemma own_property_lookup {A : Type} (o : list (string * A)) (k : string) (a : A) :
  own_property o k = Some a -> exists n : nat, o !! n = Some (k, a).
Proof.
  induction o as [| [k' a'] o IH]; simpl; [discriminate |].
  destruct (String.eqb k' k) eqn:E.
  - intros [= ->]. apply String.eqb_eq in E as ->. exists 0%nat. reflexivity.
  - intros H. destruct (IH H) as [n Hn]. exists (S n). exact Hn.
Qed.

Lemma own_property_None_lookup {A : Type} (o : list (string * A)) (k : string) :
  own_property o k = None -> forall (n : nat) (a : A), o !! n <> Some (k, a).
Proof.
  induction o as [| [k' a'] o IH]; simpl; intros H n a; [destruct n; discriminate |].
  destruct (String.eqb k' k) eqn:E; [discriminate |].
  destruct n as [| n]; simpl.
  - intros [= -> ->]. rewrite String.eqb_refl in E. discriminate.
  - apply IH. exact H.
Qed.

Lemma index_get_Own (o : list (string * entry)) (k : string) (e : entry) :
  index_get o k = Own e <-> own_property o k = Some e.
Proof.
  unfold index_get. destruct (own_property o k).
  - split; congruence.
  - destruct (is_inherited k); split; discriminate.
Qed.

Lemma index_get_Absent (o : list (string * entry)) (k : string) :
  index_get o k = Absent <-> own_property o k = None /\ is_inherited k = false.
Proof.
  unfold index_get. destruct (own_property o k).
  - split; [discriminate | intros [? _]; discriminate].
  - destruct (is_inherited k); split; try discriminate; auto. intros [_ ?]. discriminate.
Qed.

Lemma index_get_Inherited (o : list (string * entry)) (k : string) :
  index_get o k = Inherited <-> own_property o k = None /\ is_inherited k = true.
Proof.
  unfold index_get. destruct (own_property o k).
  - split; [discriminate | intros [? _]; discriminate].
  - destruct (is_inherited k); split; try discriminate; auto. intros [_ ?]. discriminate.
Qed.

(** *** File names *)

Lemma prefix_refl (s : string) : String.prefix s s = true.
Proof.
  induction s as [| ch s IH]; simpl; [reflexivity |].
  destruct (Ascii.ascii_dec ch ch); [exact IH | contradiction].
Qed.

Lemma includes_prefix (s sub : string) :
  String.prefix sub s = true -> includes s sub = true.
Proof. intros H. destruct s; cbn [includes]; rewrite H; reflexivity. Qed.

Lemma includes_refl (s : string) : includes s s = true.
Proof. apply includes_prefix, prefix_refl. Qed.

Lemma includes_suffix (p s : string) : includes (String.append p s) s = true.
Proof.
  induction p as [| ch p IH].
  - apply includes_refl.
  - change (String.append (String ch p) s) with (String ch (String.append p s)).
    cbn [includes].
    rewrite IH. apply orb_true_r.
Qed.

Lemma includes_own_name (c : config) (a : Z) :
  includes (archive_name c a) (cache_name a) = true.
Proof. unfold archive_name. apply includes_suffix. Qed.

(** *** The archive catalogue *)

Lemma archive_total_app (a b : list (Z * Z)) :
  archive_total (a ++ b) = archive_total a + archive_total b.
Proof. unfold archive_total. rewrite map_app. apply zsum_app. Qed.

Lemma archive_put_fresh (archive : list (Z * Z)) (name size : Z) :
  ~ In name (map fst archive) ->
  archive_put archive name size = archive ++ [(name, size)].
Proof.
  induction archive as [| [n s] rest IH]; simpl; intros H; [reflexivity |].
  destruct (Z.eqb_spec n name) as [-> | Hne]; [tauto |].
  rewrite IH; [reflexivity | tauto].
Qed.


Lemma archive_offset_found (c : config) (archive rest : list (Z * Z)) (file : Z) :
  (exists a, In a (map fst archive) /\ includes (archive_name c a) (cache_name file) = true) ->
  archive_offset c (archive ++ rest) file = archive_offset c archive file.
Proof.
  induction archive as [| [n s] archive IH]; simpl; intros (a & Hin & Ha); [contradiction |].
  destruct (includes (archive_name c n) (cache_name file)) eqn:E; [reflexivity |].
  rewrite IH; [reflexivity |].
  destruct Hin as [-> | Hin]; [congruence | eauto].
Qed.

Lemma archive_offset_new (c : config) (archive : list (Z * Z)) (file size : Z) :
  (forall a, In a (map fst archive) -> includes (archive_name c a) (cache_name file) = false) ->
  archive_offset c (archive ++ [(file, size)]) file = archive_total archive.
Proof.
  induction archive as [| [n s] archive IH]; simpl; intros H.
  - rewrite includes_own_name. reflexivity.
  - rewrite (H n) by auto. rewrite IH by auto. reflexivity.
Qed.

(** ** Checkpoint and rotation *)







(** ** Names made from millisecond timestamps *)

Lemma no_dot_app (s1 s2 : string) :
  no_dot (String.append s1 s2) = no_dot s1 && no_dot s2.
Proof.
  induction s1 as [| ch s1 IH]; simpl; [reflexivity |].
  rewrite IH. apply andb_assoc.
Qed.

Lemma pretty_N_char_no_dot (x : N) : Ascii.eqb (pretty_N_char x) "." = false.
Proof. unfold pretty_N_char. repeat case_match; reflexivity. Qed.

Lemma no_dot_pretty_N_go (x : N) : forall s : string,
  no_dot s = true -> no_dot (pretty_N_go x s) = true.
Proof.
  induction (N.lt_wf_0 x) as [x _ IH]; intros s Hs.
  destruct (N.eq_0_gt_0_cases x) as [-> | Hpos].
  - rewrite pretty_N_go_0. exact Hs.
  - rewrite pretty_N_go_step by exact Hpos. apply IH.
    + apply N.div_lt; [exact Hpos | reflexivity].
    + simpl. rewrite pretty_N_char_no_dot, Hs. reflexivity.
Qed.

Lemma no_dot_pretty_N (x : N) : no_dot (pretty x) = true.
Proof.
  unfold pretty, pretty_N. destruct (decide (x = 0%N)); [reflexivity |].
  apply no_dot_pretty_N_go. reflexivity.
Qed.

Lemma no_dot_pretty_Z (x : Z) : no_dot (pretty x) = true.
Proof.
  destruct x as [| p | p]; [reflexivity | apply (no_dot_pretty_N (Npos p)) |].
  change (pretty (Zneg p)) with (String.append "-" (pretty (Npos p))).
  rewrite no_dot_app, (no_dot_pretty_N (Npos p)). reflexivity.
Qed.

Lemma prefix_length (n h : string) :
  String.prefix n h = true -> (String.length n <= String.length h)%nat.
Proof.
  revert h. induction n as [| ch n IH]; intros h; simpl; [lia |].
  destruct h as [| ch' h]; simpl; [discriminate |].
  destruct (Ascii.ascii_dec ch ch'); [| discriminate].
  intros H. apply IH in H. lia.
Qed.

Lemma prefix_same_length (n h : string) :
  String.prefix n h = true -> String.length n = String.length h -> n = h.
Proof.
  revert h. induction n as [| ch n IH]; intros h; simpl.
  - destruct h; [reflexivity | discriminate].
  - destruct h as [| ch' h]; simpl; [discriminate |].
    destruct (Ascii.ascii_dec ch ch') as [-> |]; [| discriminate].
    intros H Hl. f_equal. apply IH; [exact H | lia].
Qed.

Lemma includes_short (h n : string) :
  (String.length h < String.length n)%nat -> includes h n = false.
Proof.
  induction h as [| ch h IH]; intros Hl; cbn [includes].
  - destruct (String.prefix n EmptyString) eqn:E; [| reflexivity].
    apply prefix_length in E. lia.
  - destruct (String.prefix n (String ch h)) eqn:E.
    + apply prefix_length in E. lia.
    + simpl. apply IH. simpl in Hl. lia.
Qed.

Lemma prefix_cons (ch ch' : ascii) (n h : string) :
  String.prefix (String ch n) (String ch' h)
  = if Ascii.ascii_dec ch ch' then String.prefix n h else false.
Proof. reflexivity. Qed.

Lemma append_cons (ch : ascii) (s t : string) :
  String.append (String ch s) t = String ch (String.append s t).
Proof. reflexivity. Qed.

Lemma append_nil (t : string) : String.append EmptyString t = t.
Proof. reflexivity. Qed.

(** A needle with a dot at position [length digits] is no prefix of a text
    whose first dot comes later. *)
Lemma prefix_dot_mismatch (digits rest : string) : forall q t : string,
  no_dot q = true -> (String.length digits < String.length q)%nat ->
  String.prefix (String.append digits (String "." rest)) (String.append q t) = false.
Proof.
  induction digits as [| x digits IH]; intros q t Hq Hl;
    (destruct q as [| ch q]; [simpl in Hl; lia |]);
    cbn [no_dot] in Hq; apply andb_true_iff in Hq as [Hch Hq];
    rewrite ?append_cons, ?append_nil, prefix_cons.
  - destruct (Ascii.ascii_dec "." ch) as [<- |]; [simpl in Hch; discriminate | reflexivity].
  - destruct (Ascii.ascii_dec x ch); [| reflexivity].
    apply IH; [exact Hq | simpl in Hl; lia].
Qed.

Lemma append_same_length_inj (s1 s2 t : string) :
  String.length s1 = String.length s2 ->
  String.append s1 t = String.append s2 t -> s1 = s2.
Proof.
  revert s2. induction s1 as [| ch s1 IH]; intros [| ch' s2] Hl H;
    try discriminate; [reflexivity |].
  simpl in H. injection H as -> H. f_equal. apply IH; [simpl in Hl; lia | exact H].
Qed.

Lemma append_length (s1 s2 : string) :
  String.length (String.append s1 s2) = (String.length s1 + String.length s2)%nat.
Proof. induction s1 as [| ch s1 IH]; simpl; [reflexivity | rewrite IH; reflexivity]. Qed.

Lemma string_app_assoc (s1 s2 s3 : string) :
  String.append (String.append s1 s2) s3 = String.append s1 (String.append s2 s3).
Proof.
  induction s1 as [| ch s1 IH]; [reflexivity |].
  rewrite !append_cons, IH. reflexivity.
Qed.

(** In front of the name of the archived file, nothing matches. *)
Lemma includes_skip_prefix (p digits_a digits_b : string) :
  no_dot p = true -> no_dot digits_a = true ->
  String.length digits_a = String.length digits_b ->
  includes (String.append p (String.append digits_a ".json"))
           (String.append digits_b ".json")
  = includes (String.append digits_a ".json") (String.append digits_b ".json").
Proof.
  intros Hp Ha Hl. induction p as [| ch p IH]; [reflexivity |].
  pose proof Hp as Hp'. simpl in Hp'. apply andb_true_iff in Hp' as [_ Hp'].
  rewrite <- string_app_assoc.
  change (String.append digits_b ".json") with (String.append digits_b (String "." "json")).
  change (String.append (String.append (String ch p) digits_a) ".json")
    with (String ch (String.append (String.append p digits_a) ".json")).
  cbn [includes].
  change (String ch (String.append (String.append p digits_a) ".json"))
    with (String.append (String.append (String ch p) digits_a) ".json").
  rewrite prefix_dot_mismatch.
  - simpl orb. rewrite string_app_assoc. apply (IH Hp').
  - rewrite no_dot_app, Hp, Ha. reflexivity.
  - rewrite append_length. simpl. lia.
Qed.

(** Two different timestamps with the same number of digits give names
    that do not contain each other, whatever the prefix, as long as the
    prefix has no dot. *)
Lemma timestamp_names_differ (c : config) (a b : Z) :
  no_dot (file_prefix c) = true ->
  String.length (pretty a) = String.length (pretty b) ->
  a <> b ->
  includes (archive_name c a) (cache_name b) = false.
Proof.
  intros Hp Hl Hne. unfold archive_name, cache_name.
  rewrite (includes_skip_prefix _ _ _ Hp (no_dot_pretty_Z a) Hl).
  destruct (String.append (pretty a) ".json") as [| ch rest] eqn:E.
  - destruct (pretty a); discriminate.
  - cbn [includes].
    assert (includes rest (String.append (pretty b) ".json") = false) as ->.
    { apply includes_short. rewrite append_length, <- Hl.
      assert (String.length (String ch rest) = String.length (pretty a) + 5)%nat as Hlen
        by (rewrite <- E, append_length; reflexivity).
      simpl in Hlen. simpl. lia. }
    rewrite orb_false_r.
    destruct (String.prefix (String.append (pretty b) ".json") (String ch rest)) eqn:Hpre;
      [| reflexivity].
    exfalso. apply Hne. rewrite <- E in Hpre.
    apply prefix_same_length in Hpre; [| rewrite !append_length; lia].
    apply append_same_length_inj in Hpre; [| lia].
    apply (inj pretty). congruence.
Qed.

(** A clock reading that differs from the timestamps of all segments, and
    has as many digits, is a fresh name. *)
Lemma fresh_name_timestamp (d : db) (t_name : Z) :
  no_dot (file_prefix (cfg d)) = true ->
  (forall a, In a (seg_names d) ->
     a <> t_name /\ String.length (pretty a) = String.length (pretty t_name)) ->
  fresh_name d t_name = true.
Proof.
  intros Hp Hall. unfold fresh_name. apply forallb_forall. intros a Ha.
  destruct (Hall a Ha) as [Hne Hl].
  apply negb_true_iff, timestamp_names_differ; assumption.
Qed.

(** ** The invariant holds in every reachable state *)

Lemma same_core_refl (d : db) : same_core d d.
Proof. repeat split. Qed.

Lemma same_core_trans (d1 d2 d3 : db) :
  same_core d1 d2 -> same_core d2 d3 -> same_core d1 d3.
Proof.
  unfold same_core. intros (?&?&?&?&?&?&?) (?&?&?&?&?&?&?).
  repeat split; congruence.
Qed.

Lemma Inv_same_core (d d' : db) : same_core d d' -> Inv d -> Inv d'.
Proof.
  intros (Hc & Hca & Hn & Hi & Hr & Hm & Ha) [H1 H2 H3 H4 H5 H6 H7 H8].
  split; unfold cache_size, index_size, seg_names in *;
    rewrite ?Hc, ?Hca, ?Hn, ?Hi, ?Hr, ?Hm, ?Ha; assumption.
Qed.

Lemma same_core_memory_read (d : db) : same_core d (memory_read d).
Proof. repeat split. Qed.

Lemma same_core_memory_write (d : db) : same_core d (memory_write d).
Proof. repeat split. Qed.

Lemma same_core_file_read (d : db) : same_core d (file_read d).
Proof. repeat split. Qed.

Lemma same_core_flush (d : db) : same_core d (snd (_flush d)).
Proof. repeat split. Qed.

Lemma same_core_load_files (to_load : list Z) : forall (d : db) (retval : list value),
  same_core d (snd (load_files d retval to_load)).
Proof.
  induction to_load as [| file rest IH]; intros d retval; simpl.
  - apply same_core_refl.
  - eapply same_core_trans; [apply same_core_file_read | apply IH].
Qed.

Lemma same_core_get (d : db) (key : value) : same_core d (snd (get d key)).
Proof.
  unfold get. destruct (negb _); [apply same_core_refl |].
  destruct key; try apply same_core_refl.
  destruct (index_get (index d) s) eqn:Hg; try apply same_core_refl.
  - destruct (negb _); [apply same_core_memory_read |].
    unfold _load_from_file. rewrite Hg.
    destruct (archived_files (dir d) !! f e); [apply same_core_file_read | apply same_core_refl].
  - destruct (negb _); [apply same_core_memory_read |].
    unfold _load_from_file. rewrite Hg. apply same_core_refl.
Qed.

Ltac core_of_load :=
  match goal with
  | |- same_core ?d (snd (let '(_, _) := load_files ?d1 ?r ?l in _)) =>
      let retval := fresh "retval" in
      let d' := fresh "d'" in
      let Hl := fresh "Hl" in
      destruct (load_files d1 r l) as [retval d'] eqn:Hl;
      change d' with (snd (retval, d')); rewrite <- Hl;
      eapply same_core_trans; [apply same_core_memory_read | apply same_core_load_files]
  end.

Lemma same_core_getn_range (d : db) (s e : Z) : same_core d (snd (getn_range d s e)).
Proof.
  unfold getn_range.
  destruct (Z.ltb (index_size d) e || Z.ltb (index_size d) s);
    (destruct (_ || _ || _); [apply same_core_refl |]);
    (destruct (Z.leb _ _); [apply same_core_memory_read |]);
    (destruct (rindex d !! _); [| apply same_core_refl]);
    (destruct (negb _); [| apply same_core_refl]);
    destruct (index_get _ _); try apply same_core_refl; core_of_load.
Qed.

Lemma same_core_getn (d d' : db) (ir tr : option (list Z)) (r : outcome (list value)) :
  getn d ir tr = Some (r, d') -> same_core d d'.
Proof.
  unfold getn. destruct (getn_bounds d ir tr) as [[[s e] |] |].
  - intros [= H]. replace d' with (snd (getn_range d s e)) by (rewrite H; reflexivity).
    apply same_core_getn_range.
  - discriminate.
  - intros [= <- <-]. apply same_core_refl.
Qed.

(** *** Preservation by the state changes of [set] *)

Lemma Inv_open_fresh (c : config) (t_started t_name : Z) :
  Inv (open_fresh c t_started t_name).
Proof.
  split; cbn.
  - intros n k e H. destruct n; discriminate.
  - intros n k e H. destruct n; discriminate.
  - intros j k. rewrite lookup_empty. split; [discriminate |].
    intros (n & e & _ & H). destruct n; discriminate.
  - reflexivity.
  - reflexivity.
  - intros p q a b Hp Hq Hlt.
    destruct p, q; simpl in *; try lia; discriminate.
  - discriminate.
  - discriminate.
Qed.

Lemma archive_total_le_index (d : db) :
  Inv d -> archive_total (meta_archive d) <= index_size d.
Proof. intros H. pose proof (inv_cache d H). unfold cache_size in *. lia. Qed.

Lemma Inv_insert (d d' : db) (k : string) (enew : entry) :
  Inv d ->
  own_property (index d) k = None -> is_inherited k = false ->
  _check_key (cfg d) (VStr k) = 1 ->
  i enew = index_size d -> f enew = cache_file_name d ->
  cfg d' = cfg d -> length (cache d') = S (length (cache d)) ->
  cache_file_name d' = cache_file_name d ->
  index d' = index d ++ [(k, enew)] ->
  rindex d' = <[index_size d := k]> (rindex d) ->
  meta_archive d' = meta_archive d ->
  archived_files (dir d') = archived_files (dir d) ->
  Inv d'.
Proof.
  intros HI Hown Hinh Hkey Hi Hf Hcfg Hcache Hname Hindex Hrindex Hmeta Hfiles.
  pose proof (archive_total_le_index d HI) as Htot.
  destruct HI as [H1 H2 H3 H4 H5 H6 H7 H8].
  unfold index_size, cache_size in *.
  split; unfold index_size, cache_size, seg_names;
    rewrite ?Hcfg, ?Hname, ?Hindex, ?Hrindex, ?Hmeta, ?Hfiles.
  - intros n k0 e0 Hn. apply lookup_app_Some in Hn as [Hn | [Hge Hn]].
    + destruct (H1 n k0 e0 Hn) as [Hi0 Ho]. split; [exact Hi0 |].
      rewrite own_property_app, Ho. reflexivity.
    + destruct (n - length (index d))%nat as [| m] eqn:Hm; [| destruct m; discriminate].
      injection Hn as <- <-. split; [lia |].
      rewrite own_property_app, Hown. simpl. rewrite String.eqb_refl. reflexivity.
  - intros n k0 e0 Hn. apply lookup_app_Some in Hn as [Hn | [Hge Hn]].
    + exact (H2 n k0 e0 Hn).
    + destruct (n - length (index d))%nat as [| m] eqn:Hm; [| destruct m; discriminate].
      injection Hn as <- <-. auto.
  - intros j k0. destruct (decide (j = Z.of_nat (length (index d)))) as [-> | Hne].
    + rewrite lookup_insert_eq. split.
      * intros [= <-]. exists (length (index d)), enew. split; [reflexivity |].
        rewrite lookup_app_r by lia. rewrite Nat.sub_diag. reflexivity.
      * intros (n & e0 & Hj & Hn). assert (n = length (index d)) as -> by lia.
        rewrite lookup_app_r in Hn by lia. rewrite Nat.sub_diag in Hn.
        injection Hn as <- <-. reflexivity.
    + rewrite lookup_insert_ne by congruence. rewrite H3. split.
      * intros (n & e0 & Hj & Hn). exists n, e0. split; [exact Hj |].
        apply lookup_app_Some. left. exact Hn.
      * intros (n & e0 & Hj & Hn). exists n, e0. split; [exact Hj |].
        apply lookup_app_Some in Hn as [Hn | [Hge Hn]]; [exact Hn |].
        destruct (n - length (index d))%nat as [| m] eqn:Hm; [lia | destruct m; discriminate].
  - rewrite length_app. simpl. rewrite map_size_insert_None.
    + rewrite H4. lia.
    + destruct (rindex d !! Z.of_nat (length (index d))) as [k0 |] eqn:E; [| reflexivity].
      apply H3 in E as (n & e0 & Hj & Hn). apply lookup_lt_Some in Hn. lia.
  - rewrite Hcache, length_app. simpl. lia.
  - exact H6.
  - intros k0 e0 Ho Hlt. rewrite own_property_app in Ho.
    destruct (own_property (index d) k0) as [a |] eqn:E.
    + injection Ho as <-. exact (H7 k0 a E Hlt).
    + simpl in Ho. destruct (String.eqb k k0); [| discriminate].
      injection Ho as <-. lia.
  - intros k0 e0 Ho Hge. rewrite own_property_app in Ho.
    destruct (own_property (index d) k0) as [a |] eqn:E.
    + injection Ho as <-. exact (H8 k0 a E Hge).
    + simpl in Ho. destruct (String.eqb k k0); [| discriminate].
      injection Ho as <-. exact Hf.
Qed.

Lemma Inv_same_lengths (d d' : db) :
  Inv d ->
  cfg d' = cfg d -> length (cache d') = length (cache d) ->
  cache_file_name d' = cache_file_name d -> index d' = index d ->
  rindex d' = rindex d -> meta_archive d' = meta_archive d ->
  (forall (a : Z) (content : list value),
     archived_files (dir d) !! a = Some content ->
     exists content', archived_files (dir d') !! a = Some content'
                      /\ length content' = length content) ->
  Inv d'.
Proof.
  intros [H1 H2 H3 H4 H5 H6 H7 H8] Hcfg Hcache Hname Hindex Hrindex Hmeta Hfiles.
  unfold index_size, cache_size in *.
  split; unfold index_size, cache_size, seg_names;
    rewrite ?Hcfg, ?Hname, ?Hindex, ?Hrindex, ?Hmeta, ?Hcache; try assumption.
  intros k e Ho Hlt. destruct (H7 k e Ho Hlt) as (Hin & content & Hc & Hrange).
  split; [exact Hin |].
  destruct (Hfiles _ _ Hc) as (content' & Hc' & Hlen).
  exists content'. split; [exact Hc' |]. rewrite Hlen. exact Hrange.
Qed.

(** *** Preservation by archiving *)

Lemma names_ok_earlier (d : db) (a : Z) :
  Inv d -> In a (map fst (meta_archive d)) ->
  includes (archive_name (cfg d) a) (cache_name (cache_file_name d)) = false.
Proof.
  intros HI Hin. apply list_elem_of_In, list_elem_of_lookup in Hin as [p Hp].
  apply (inv_names d HI p (length (map fst (meta_archive d))) a (cache_file_name d)).
  - unfold seg_names. apply lookup_app_Some. left. exact Hp.
  - unfold seg_names. rewrite lookup_app_r by lia. rewrite Nat.sub_diag. reflexivity.
  - apply lookup_lt_Some in Hp. exact Hp.
Qed.

Lemma cache_file_not_archived (d : db) :
  Inv d -> ~ In (cache_file_name d) (map fst (meta_archive d)).
Proof.
  intros HI Hin. pose proof (names_ok_earlier d _ HI Hin) as H.
  rewrite includes_own_name in H. discriminate.
Qed.

Lemma own_seq_bound (d : db) (k : string) (e : entry) :
  Inv d -> own_property (index d) k = Some e -> 0 <= i e < index_size d.
Proof.
  intros HI Ho. destruct (own_property_lookup _ _ _ Ho) as [n Hn].
  destruct (inv_seq d HI n k e Hn) as [Hi _].
  apply lookup_lt_Some in Hn. unfold index_size. lia.
Qed.

Lemma Inv_rotate (d d' : db) (t_name : Z) :
  Inv d -> fresh_name d t_name = true ->
  cfg d' = cfg d -> cache d' = [] -> cache_file_name d' = t_name ->
  index d' = index d -> rindex d' = rindex d ->
  meta_archive d' = archive_put (meta_archive d) (cache_file_name d) (cache_size d) ->
  archived_files (dir d')
    = <[cache_file_name d := file_content (cache d)]> (archived_files (dir d)) ->
  Inv d'.
Proof.
  intros HI Hfresh Hcfg Hcache Hname Hindex Hrindex Hmeta Hfiles.
  pose proof (cache_file_not_archived d HI) as Hnotin.
  rewrite (archive_put_fresh _ _ _ Hnotin) in Hmeta.
  pose proof (names_ok_earlier d) as Hearlier.
  pose proof (own_seq_bound d) as Hbound.
  pose proof HI as [H1 H2 H3 H4 H5 H6 H7 H8].
  assert (archive_total (meta_archive d') = index_size d) as Htotal.
  { rewrite Hmeta, archive_total_app. unfold archive_total at 2. simpl. lia. }
  split; unfold seg_names; rewrite ?Hcfg, ?Hindex, ?Hrindex; try assumption.
  - unfold cache_size, index_size in *. rewrite Htotal, Hcache, Hindex. simpl. lia.
  - rewrite Hmeta, Hname, map_app. simpl. rewrite <- app_assoc. simpl.
    change (map fst (meta_archive d) ++ [cache_file_name d; t_name])
      with (map fst (meta_archive d) ++ [cache_file_name d] ++ [t_name]).
    rewrite app_assoc. fold (seg_names d).
    intros p q a b Hp Hq Hlt.
    apply lookup_app_Some in Hq as [Hq | [Hge Hq]].
    + apply lookup_app_Some in Hp as [Hp | [Hge' _]].
      * exact (H6 p q a b Hp Hq Hlt).
      * apply lookup_lt_Some in Hq. lia.
    + destruct (q - length (seg_names d))%nat as [| m] eqn:Hm; [| destruct m; discriminate].
      injection Hq as <-.
      apply lookup_app_Some in Hp as [Hp | [Hge' _]]; [| lia].
      unfold fresh_name in Hfresh. rewrite forallb_forall in Hfresh.
      apply negb_true_iff, Hfresh.
      apply list_elem_of_In, list_elem_of_lookup. exists p. exact Hp.
  - intros k e Ho Hlt. rewrite Hfiles, Hmeta.
    destruct (Z.lt_ge_cases (i e) (archive_total (meta_archive d))) as [Hold | Hnew].
    + destruct (H7 k e Ho Hold) as (Hin & content & Hc & Hrange).
      split; [rewrite map_app; apply in_or_app; left; exact Hin |].
      exists content. split.
      * rewrite lookup_insert_ne; [exact Hc |]. intros Heq. apply Hnotin. rewrite Heq. exact Hin.
      * rewrite archive_offset_found; [exact Hrange |].
        exists (f e). split; [exact Hin | apply includes_own_name].
    + pose proof (H8 k e Ho Hnew) as Hf. rewrite Hf.
      split; [rewrite map_app; apply in_or_app; right; left; reflexivity |].
      exists (file_content (cache d)). split; [apply lookup_insert_eq |].
      rewrite archive_offset_new by (intros a Ha; apply Hearlier; assumption).
      unfold file_content. rewrite length_map. fold (cache_size d).
      pose proof (Hbound k e HI Ho). lia.
  - intros k e Ho Hge. pose proof (Hbound k e HI Ho). lia.
Qed.

(** *** What [set] does, case by case *)

Lemma array_set_inside (a : list value) (n : Z) (v : value) :
  0 <= n < Z.of_nat (length a) -> array_set a n v = <[Z.to_nat n := v]> a.
Proof.
  intros H. unfold array_set. destruct (Z.eqb_spec n (Z.of_nat (length a))); [lia | reflexivity].
Qed.

Lemma array_get_insert (a : list value) (n : Z) (v : value) :
  0 <= n < Z.of_nat (length a) -> array_get (<[Z.to_nat n := v]> a) n = v.
Proof.
  intros H. unfold array_get. destruct (Z.ltb_spec n 0); [lia |].
  rewrite list_lookup_insert_eq by lia. reflexivity.
Qed.

Lemma memory_cache_index_own (d : db) (k : string) (e : entry) :
  own_property (index d) k = Some e ->
  _get_memory_cache_index d k =
    if Z.ltb (index_size d - (i e + 1)) (cache_size d)
    then index_size d - (i e + 1) else -1.
Proof.
  intros Ho. unfold _get_memory_cache_index.
  apply index_get_Own in Ho. rewrite Ho. reflexivity.
Qed.

(** A new key: the value goes to the front of the cache, the entry to the end
    of the index. *)
Lemma set_new (d : db) (now : Z) (k : string) (v : value) :
  _check_key (cfg d) (VStr k) = 1 -> _check_value (cfg d) v = 1 ->
  index_get (index d) k = Absent ->
  set d now (VStr k) v =
  (true,
   with_rindex
     (with_index (memory_write (with_cache d (v :: cache d)))
        (index d ++ [(k, {| i := index_size d; f := cache_file_name d; c := now |})]))
     (<[index_size d := k]> (rindex d))).
Proof.
  intros Hk Hv Ha. unfold set. rewrite Hk, Hv. simpl negb. cbv iota. rewrite Ha. reflexivity.
Qed.

(** A key whose value is in the cache: the slot is overwritten. *)
Lemma set_cached (d : db) (now : Z) (k : string) (e : entry) (v : value) :
  Inv d ->
  _check_key (cfg d) (VStr k) = 1 -> _check_value (cfg d) v = 1 ->
  own_property (index d) k = Some e ->
  index_size d - (i e + 1) < cache_size d ->
  set d now (VStr k) v =
  (true,
   memory_write
     (with_cache d (<[Z.to_nat (index_size d - (i e + 1)) := v]> (cache d)))).
Proof.
  intros HI Hk Hv Ho Hlt. pose proof (own_seq_bound d k e HI Ho) as Hb.
  unfold set. rewrite Hk, Hv. simpl negb. cbv iota.
  rewrite (memory_cache_index_own d k e Ho).
  pose proof Ho as Hg. apply index_get_Own in Hg. rewrite Hg.
  destruct (Z.ltb_spec (index_size d - (i e + 1)) (cache_size d)); [| lia].
  destruct (Z.eqb_spec (index_size d - (i e + 1)) (-1)); [lia |]. simpl negb. cbv iota.
  destruct (Z.leb_spec 0 (index_size d - (i e + 1))); [| lia].
  destruct (Z.leb_spec (index_size d - (i e + 1)) (cache_size d)); [| lia].
  simpl andb. cbv iota.
  rewrite array_set_inside by (unfold cache_size in *; lia). reflexivity.
Qed.

(** A key whose value is archived: [_update_file] takes over. *)
Lemma set_archived (d : db) (now : Z) (k : string) (e : entry) (v : value) :
  _check_key (cfg d) (VStr k) = 1 -> _check_value (cfg d) v = 1 ->
  own_property (index d) k = Some e ->
  cache_size d <= index_size d - (i e + 1) ->
  set d now (VStr k) v = (true, _update_file d k v).
Proof.
  intros Hk Hv Ho Hge.
  unfold set. rewrite Hk, Hv. simpl negb. cbv iota.
  rewrite (memory_cache_index_own d k e Ho).
  pose proof Ho as Hg. apply index_get_Own in Hg. rewrite Hg.
  destruct (Z.ltb_spec (index_size d - (i e + 1)) (cache_size d)); [lia |].
  reflexivity.
Qed.

(** An inherited name: [set] reports success and stores nothing. *)
Lemma set_inherited (d : db) (now : Z) (k : string) (v : value) :
  _check_key (cfg d) (VStr k) = 1 -> _check_value (cfg d) v = 1 ->
  index_get (index d) k = Inherited ->
  set d now (VStr k) v = (true, d).
Proof.
  intros Hk Hv Hg. unfold set, _get_memory_cache_index, _update_file.
  rewrite Hk, Hv. simpl negb. cbv iota. rewrite Hg. reflexivity.
Qed.

(** The slot of an archived entry lies inside its file. *)
Lemma archived_slot (d : db) (k : string) (e : entry) :
  Inv d -> own_property (index d) k = Some e ->
  i e < archive_total (meta_archive d) ->
  exists parsed : list value,
    archived_files (dir d) !! f e = Some parsed /\
    0 <= _get_archived_index d (i e) (f e) (Z.of_nat (length parsed))
      < Z.of_nat (length parsed).
Proof.
  intros HI Ho Hlt.
  destruct (inv_archived d HI k e Ho Hlt) as (_ & parsed & Hp & Hrange).
  exists parsed. split; [exact Hp |]. unfold _get_archived_index. lia.
Qed.

Lemma _update_file_archived (d : db) (k : string) (e : entry) (v : value)
    (parsed : list value) :
  own_property (index d) k = Some e ->
  archived_files (dir d) !! f e = Some parsed ->
  0 <= _get_archived_index d (i e) (f e) (Z.of_nat (length parsed))
    < Z.of_nat (length parsed) ->
  _update_file d k v =
  file_write
    (with_dir (file_read d)
       (with_archived_files (dir d)
          (<[f e := file_content
                      (<[Z.to_nat (_get_archived_index d (i e) (f e)
                                     (Z.of_nat (length parsed))) := v]> parsed)]>
             (archived_files (dir d))))).
Proof.
  intros Ho Hp Hrange. unfold _update_file.
  apply index_get_Own in Ho. rewrite Ho, Hp.
  change (_get_archived_index (file_read d)) with (_get_archived_index d).
  set (fi := _get_archived_index d (i e) (f e) (Z.of_nat (length parsed))) in *.
  destruct (Z.leb_spec 0 fi); [| lia].
  destruct (Z.leb_spec fi (Z.of_nat (length parsed))); [| lia].
  simpl andb. cbv iota. rewrite array_set_inside by lia. reflexivity.
Qed.

(** *** Every call keeps the invariant *)

Lemma check_value_values (c : config) (v : value) :
  _check_value c v = 1 \/ _check_value c v = -1.
Proof.
  unfold _check_value. destruct (JSON_stringify v); auto. destruct (Z.ltb _ _); auto.
Qed.

Lemma Inv_update_file (d : db) (k : string) (e : entry) (v : value) :
  Inv d -> own_property (index d) k = Some e ->
  i e < archive_total (meta_archive d) ->
  Inv (_update_file d k v).
Proof.
  intros HI Ho Hlt.
  destruct (archived_slot d k e HI Ho Hlt) as (parsed & Hp & Hrange).
  rewrite (_update_file_archived d k e v parsed Ho Hp Hrange).
  apply (Inv_same_lengths d); try reflexivity; [exact HI |].
  intros a content Ha. cbn.
  destruct (decide (a = f e)) as [-> | Hne].
  - rewrite lookup_insert_eq. eexists. split; [reflexivity |].
    unfold file_content. rewrite length_map, length_insert. congruence.
  - rewrite lookup_insert_ne by congruence. eauto.
Qed.

Lemma Inv_set (d : db) (now : Z) (key v : value) : Inv d -> Inv (snd (set d now key v)).
Proof.
  intros HI.
  destruct (check_key_values (cfg d) key) as [Hk | Hk];
    [| unfold set; rewrite Hk; exact HI].
  destruct (check_value_values (cfg d) v) as [Hv | Hv];
    [| unfold set; rewrite Hk, Hv; exact HI].
  pose proof Hk as Hk'. apply check_key_accepts in Hk' as (k & -> & _).
  destruct (index_get (index d) k) as [e | |] eqn:Hg.
  - apply index_get_Own in Hg.
    pose proof (own_seq_bound d k e HI Hg) as Hb.
    destruct (Z.lt_ge_cases (index_size d - (i e + 1)) (cache_size d)) as [Hlt | Hge].
    + rewrite (set_cached d now k e v HI Hk Hv Hg Hlt). cbn [snd].
      apply (Inv_same_lengths d); try reflexivity; [exact HI | | eauto].
      cbn. apply length_insert.
    + rewrite (set_archived d now k e v Hk Hv Hg Hge). cbn [snd].
      apply (Inv_update_file d k e v HI Hg).
      pose proof (inv_cache d HI). lia.
  - rewrite (set_inherited d now k v Hk Hv Hg). exact HI.
  - rewrite (set_new d now k v Hk Hv Hg). cbn [snd].
    apply index_get_Absent in Hg as [Hown Hinh].
    apply (Inv_insert d _ k {| i := index_size d; f := cache_file_name d; c := now |}
             HI Hown Hinh Hk); reflexivity.
Qed.

Lemma _persist_no_rotation (d : db) (t_delta t_name t_started : Z) :
  rotates d t_delta = false ->
  _persist d t_delta t_name t_started = Some (snd (_flush d)).
Proof.
  intros Hr. unfold _persist, rotates in *. cbn [_flush].
  change (archive_due (_flush_meta_file ?x) ?s ?t) with (archive_due d s t).
  change (cache_size (_flush_meta_file ?x)) with (cache_size d).
  rewrite Hr. reflexivity.
Qed.

(** What [_persist] leaves behind when it archives the cache. *)
Lemma _persist_rotation (d : db) (t_delta t_name t_started : Z) :
  rotates d t_delta = true ->
  exists d' : db,
    _persist d t_delta t_name t_started = Some d' /\
    cfg d' = cfg d /\ cache d' = [] /\ cache_file_name d' = t_name /\
    started d' = t_started /\ index d' = index d /\ rindex d' = rindex d /\
    meta_archive d' = archive_put (meta_archive d) (cache_file_name d) (cache_size d) /\
    archived_files (dir d')
      = <[cache_file_name d := file_content (cache d)]> (archived_files (dir d)).
Proof.
  intros Hr.
  assert (0 < cache_size d) as Hpos.
  { unfold rotates in Hr. apply andb_true_iff in Hr as [_ Hr]. apply Z.ltb_lt. exact Hr. }
  unfold _persist, rotates in *. cbn [_flush].
  change (archive_due (_flush_meta_file ?x) ?s ?t) with (archive_due d s t).
  change (cache_size (_flush_meta_file ?x)) with (cache_size d).
  rewrite Hr. unfold rename_to_archive.
  cbn [dir _flush_meta_file with_dir cache_file_name cache_files].
  destruct (Z.ltb_spec 0 (cache_size d)); [| lia].
  rewrite lookup_insert_eq. eexists. split; [reflexivity |]. repeat split.
Qed.

Lemma Inv_persist (d d' : db) (t_delta t_name t_started : Z) :
  Inv d ->
  (rotates d t_delta = true -> fresh_name d t_name = true) ->
  _persist d t_delta t_name t_started = Some d' ->
  Inv d'.
Proof.
  intros HI Hfresh Hp.
  destruct (rotates d t_delta) eqn:Hr.
  - specialize (Hfresh eq_refl).
    destruct (_persist_rotation d t_delta t_name t_started Hr)
      as (d1 & Hp1 & Hcfg & Hcache & Hname & _ & Hindex & Hrindex & Hmeta & Hfiles).
    rewrite Hp1 in Hp. injection Hp as <-.
    apply (Inv_rotate d d1 t_name HI Hfresh); assumption.
  - rewrite (_persist_no_rotation d _ _ _ Hr) in Hp. injection Hp as <-.
    apply (Inv_same_core d); [apply same_core_flush | exact HI].
Qed.

Lemma Inv_run_op (d d' : db) (o : op) :
  Inv d -> clock_ok d [o] = true -> run_op d o = Some d' -> Inv d'.
Proof.
  intros HI Hclock Hrun. destruct o as [now key v | key | ir tr | t1 t2 t3]; simpl in Hrun.
  - injection Hrun as <-. apply Inv_set. exact HI.
  - injection Hrun as <-. apply (Inv_same_core d); [apply same_core_get | exact HI].
  - destruct (getn d ir tr) as [[r d''] |] eqn:Hg; simpl in Hrun; [| discriminate].
    injection Hrun as <-.
    apply (Inv_same_core d); [eapply same_core_getn; exact Hg | exact HI].
  - apply (Inv_persist d d' t1 t2 t3 HI); [| exact Hrun].
    intros Hr. simpl in Hclock. rewrite Hr in Hclock.
    apply andb_true_iff in Hclock as [Hc _]. exact Hc.
Qed.

Lemma clock_ok_cons (d : db) (o : op) (rest : list op) :
  clock_ok d (o :: rest) = true ->
  clock_ok d [o] = true /\
  forall d', run_op d o = Some d' -> clock_ok d' rest = true.
Proof.
  simpl. intros H. apply andb_true_iff in H as [H1 H2]. split.
  - rewrite H1. destruct (run_op d o); reflexivity.
  - intros d' Hd. rewrite Hd in H2. exact H2.
Qed.

Lemma Inv_run (ops : list op) : forall (d d' : db),
  Inv d -> clock_ok d ops = true -> run d ops = Some d' -> Inv d'.
Proof.
  induction ops as [| o rest IH]; intros d d' HI Hclock Hrun.
  - injection Hrun as <-. exact HI.
  - apply clock_ok_cons in Hclock as [Ho Hrest]. simpl in Hrun.
    destruct (run_op d o) as [d1 |] eqn:Hd1; [| discriminate].
    apply (IH d1 d'); [| apply Hrest; reflexivity | exact Hrun].
    apply (Inv_run_op d d1 o HI Ho Hd1).
Qed.

(** Every state reached from a fresh database satisfies the invariant. *)
Lemma Inv_reachable (c : config) (t_started t_name : Z) (ops : list op) (d : db) :
  clock_ok (open_fresh c t_started t_name) ops = true ->
  run (open_fresh c t_started t_name) ops = Some d ->
  Inv d.
Proof. apply Inv_run, Inv_open_fresh. Qed.

(** ** Termination *)




(** ** Reading back what was written *)

Lemma own_key_valid (d : db) (k : string) (e : entry) :
  Inv d -> own_property (index d) k = Some e -> _check_key (cfg d) (VStr k) = 1.
Proof.
  intros HI Ho. destruct (own_property_lookup _ _ _ Ho) as [n Hn].
  apply (inv_keys d HI n k e Hn).
Qed.

(** [get] of a key whose value is in the cache. *)
Lemma get_cached (d : db) (k : string) (e : entry) :
  Inv d -> own_property (index d) k = Some e ->
  index_size d - (i e + 1) < cache_size d ->
  fst (get d (VStr k)) = array_get (cache d) (index_size d - (i e + 1)).
Proof.
  intros HI Ho Hlt. pose proof (own_seq_bound d k e HI Ho) as Hb.
  unfold get. rewrite (own_key_valid d k e HI Ho). simpl negb. cbv iota.
  rewrite (memory_cache_index_own d k e Ho).
  apply index_get_Own in Ho. rewrite Ho.
  destruct (Z.ltb_spec (index_size d - (i e + 1)) (cache_size d)); [| lia].
  destruct (Z.eqb_spec (index_size d - (i e + 1)) (-1)); [lia |]. reflexivity.
Qed.

(** [get] of a key whose value is archived: the slot
    [length - 1 - (seq - offset)] of its file. *)
Lemma get_archived (d : db) (k : string) (e : entry) (parsed : list value) :
  Inv d -> own_property (index d) k = Some e ->
  cache_size d <= index_size d - (i e + 1) ->
  archived_files (dir d) !! f e = Some parsed ->
  fst (get d (VStr k)) =
  array_get parsed
    (Z.of_nat (length parsed) - 1
     - (i e - archive_offset (cfg d) (meta_archive d) (f e))).
Proof.
  intros HI Ho Hge Hp.
  unfold get. rewrite (own_key_valid d k e HI Ho). simpl negb. cbv iota.
  rewrite (memory_cache_index_own d k e Ho).
  apply index_get_Own in Ho. rewrite Ho.
  destruct (Z.ltb_spec (index_size d - (i e + 1)) (cache_size d)); [lia |].
  simpl negb. cbv iota. unfold _load_from_file. rewrite Ho, Hp. reflexivity.
Qed.

(** The offset [_get_archived_index] computes for an archived file is the
    sum of the sizes of the segments archived before it. *)
Lemma archive_offset_sealed_before (c : config) (archive : list (Z * Z)) (file : Z) :
  names_ok c (map fst archive) -> In file (map fst archive) ->
  archive_offset c archive file = archive_total (sealed_before archive file).
Proof.
  induction archive as [| [n s] archive IH]; simpl; intros Hok Hin; [contradiction |].
  destruct (Z.eqb_spec n file) as [-> | Hne].
  - rewrite includes_own_name. reflexivity.
  - destruct Hin as [Heq | Hin]; [contradiction |].
    assert (includes (archive_name c n) (cache_name file) = false) as ->.
    { apply list_elem_of_In, list_elem_of_lookup in Hin as [q Hq].
      apply (Hok 0%nat (S q) n file); [reflexivity | exact Hq | lia]. }
    rewrite IH; [reflexivity | | exact Hin].
    intros p q a b Hp Hq Hlt. apply (Hok (S p) (S q) a b); [exact Hp | exact Hq | lia].
Qed.

Lemma names_ok_archived (d : db) : Inv d -> names_ok (cfg d) (map fst (meta_archive d)).
Proof.
  intros HI p q a b Hp Hq Hlt.
  apply (inv_names d HI p q a b); [| | exact Hlt]; unfold seg_names;
    apply lookup_app_Some; left; assumption.
Qed.

(** [get] of an archived key, with the offset as the specification words
    it. *)
Lemma get_archived_resolution (d : db) (k : string) (e : entry) :
  Inv d -> own_property (index d) k = Some e -> cached d e = false ->
  exists parsed : list value,
    archived_files (dir d) !! f e = Some parsed /\
    fst (get d (VStr k)) =
    array_get parsed
      (Z.of_nat (length parsed) - 1
       - (i e - archive_total (sealed_before (meta_archive d) (f e)))).
Proof.
  intros HI Ho Hc. unfold cached in Hc. apply Z.ltb_ge in Hc.
  assert (i e < archive_total (meta_archive d)) as Harch
    by (pose proof (inv_cache d HI); lia).
  destruct (inv_archived d HI k e Ho Harch) as (Hin & parsed & Hp & _).
  exists parsed. split; [exact Hp |].
  rewrite (get_archived d k e parsed HI Ho Hc Hp).
  rewrite (archive_offset_sealed_before _ _ _ (names_ok_archived d HI) Hin).
  reflexivity.
Qed.

(** After [set] on a stored key, [get] gives the new value when the key is
    in the cache, and what JSON makes of it when the key is archived. *)
Lemma get_after_update (d : db) (now : Z) (k : string) (e : entry) (v : value) :
  Inv d -> own_property (index d) k = Some e -> _check_value (cfg d) v = 1 ->
  fst (get (snd (set d now (VStr k) v)) (VStr k))
  = if cached d e then v else json_reparse v.
Proof.
  intros HI Ho Hv.
  pose proof (own_key_valid d k e HI Ho) as Hk.
  pose proof (Inv_set d now (VStr k) v HI) as HI'.
  unfold cached.
  destruct (Z.ltb_spec (index_size d - (i e + 1)) (cache_size d)) as [Hlt | Hge].
  - rewrite (set_cached d now k e v HI Hk Hv Ho Hlt) in *. cbn [snd] in *.
    pose proof (own_seq_bound d k e HI Ho) as Hb.
    rewrite (get_cached _ k e HI' Ho).
    + cbn. apply array_get_insert. unfold cache_size in Hlt.
      change (index_size (memory_write ?x)) with (index_size d). lia.
    + unfold cache_size, index_size in *. cbn. rewrite length_insert. exact Hlt.
  - rewrite (set_archived d now k e v Hk Hv Ho Hge) in *. cbn [snd] in *.
    assert (i e < archive_total (meta_archive d)) as Harch
      by (pose proof (inv_cache d HI); lia).
    destruct (archived_slot d k e HI Ho Harch) as (parsed & Hp & Hrange).
    rewrite (_update_file_archived d k e v parsed Ho Hp Hrange) in *.
    set (fi := _get_archived_index d (i e) (f e) (Z.of_nat (length parsed))) in *.
    rewrite (get_archived _ k e (file_content (<[Z.to_nat fi := v]> parsed)) HI' Ho).
    + unfold file_content. rewrite length_map, length_insert. cbn [cfg meta_archive file_write
        with_stats with_dir file_read].
      fold (_get_archived_index d (i e) (f e) (Z.of_nat (length parsed))). fold fi.
      unfold array_get. destruct (Z.ltb_spec fi 0); [lia |].
      rewrite list_lookup_fmap, list_lookup_insert_eq by lia. reflexivity.
    + exact Hge.
    + cbn. apply lookup_insert_eq.
Qed.

(** [set] on a stored key leaves both indexes alone. *)
Lemma set_update_frame (d : db) (now : Z) (k : string) (e : entry) (v : value) :
  Inv d -> own_property (index d) k = Some e -> _check_value (cfg d) v = 1 ->
  fst (set d now (VStr k) v) = true /\
  index (snd (set d now (VStr k) v)) = index d /\
  rindex (snd (set d now (VStr k) v)) = rindex d /\
  cache_size (snd (set d now (VStr k) v)) = cache_size d /\
  meta_archive (snd (set d now (VStr k) v)) = meta_archive d.
Proof.
  intros HI Ho Hv. pose proof (own_key_valid d k e HI Ho) as Hk.
  destruct (Z.lt_ge_cases (index_size d - (i e + 1)) (cache_size d)) as [Hlt | Hge].
  - rewrite (set_cached d now k e v HI Hk Hv Ho Hlt). cbn [fst snd].
    repeat split. unfold cache_size. cbn. rewrite length_insert. reflexivity.
  - rewrite (set_archived d now k e v Hk Hv Ho Hge). cbn [fst snd].
    assert (i e < archive_total (meta_archive d)) as Harch
      by (pose proof (inv_cache d HI); lia).
    destruct (archived_slot d k e HI Ho Harch) as (parsed & Hp & Hrange).
    rewrite (_update_file_archived d k e v parsed Ho Hp Hrange). repeat split.
Qed.

(** C4, as stated, fails: [Infinity] is a valid value (its JSON text is
    [null]); put on the archived key [a], it is written to the file as
    [null], and the following [get] returns [null], not [Infinity]. *)
Lemma C4_archived_value_is_reparsed :
  own_property (index archived_db) "a" = Some {| i := 0; f := 1001; c := 1002 |} /\
  _check_value (cfg archived_db) VInfinity = 1 /\
  fst (set archived_db 9004 (VStr "a") VInfinity) = true /\
  fst (get (snd (set archived_db 9004 (VStr "a") VInfinity)) (VStr "a")) = VNull.
Proof. vm_compute. auto. Qed.

(** C4 (amended): in a state reached from a fresh database by calls that
    give every new cache file a fresh name ([clock_ok]), [set] on a key of
    the index with a valid value succeeds and leaves the index (hence its
    size and the key's seq, file and creation time) and the reverse index as
    they were; a following [get] returns the new value when the key is in
    the cache, and the value as JSON reads it back when the key is archived,
    which is the new value whenever JSON keeps it. *)
Theorem C4_update_existing_key (c : config) (t_started t_name : Z) (ops : list op)
    (d : db) (now : Z) (k : string) (e : entry) (v : value) :
  clock_ok (open_fresh c t_started t_name) ops = true ->
  run (open_fresh c t_started t_name) ops = Some d ->
  own_property (index d) k = Some e ->
  _check_value (cfg d) v = 1 ->
  fst (set d now (VStr k) v) = true /\
  index_size (snd (set d now (VStr k) v)) = index_size d /\
  index (snd (set d now (VStr k) v)) = index d /\
  own_property (index (snd (set d now (VStr k) v))) k = Some e /\
  rindex (snd (set d now (VStr k) v)) = rindex d /\
  fst (get (snd (set d now (VStr k) v)) (VStr k))
    = (if cached d e then v else json_reparse v) /\
  (json_reparse v = v -> fst (get (snd (set d now (VStr k) v)) (VStr k)) = v).
Proof.
  intros Hclock Hrun Ho Hv.
  pose proof (Inv_reachable c t_started t_name ops d Hclock Hrun) as HI.
  pose proof (get_after_update d now k e v HI Ho Hv) as Hget.
  destruct (set_update_frame d now k e v HI Ho Hv) as (Hok & Hidx & Hridx & _).
  unfold index_size. rewrite Hidx.
  split; [exact Hok |]. split; [reflexivity |]. split; [reflexivity |].
  split; [exact Ho |]. split; [exact Hridx |]. split; [exact Hget |].
  intros Hstable. rewrite Hget, Hstable. destruct (cached d e); reflexivity.
Qed.

Lemma C4_update_existing_key_witness :
  own_property (index archived_db) "a" = Some {| i := 0; f := 1001; c := 1002 |} /\
  fst (set archived_db 9004 (VStr "a") (VStr "va2")) = true /\
  index_size (snd (set archived_db 9004 (VStr "a") (VStr "va2"))) = index_size archived_db /\
  fst (get (snd (set archived_db 9004 (VStr "a") (VStr "va2"))) (VStr "a")) = VStr "va2".
Proof.
  assert (own_property (index archived_db) "a" = Some {| i := 0; f := 1001; c := 1002 |})
    as Ho by (vm_compute; reflexivity).
  split; [exact Ho |].
  destruct (C4_update_existing_key test_config 1000 1001 archive_ops archived_db 9004
              "a" {| i := 0; f := 1001; c := 1002 |} (VStr "va2"))
    as (H1 & H2 & _ & _ & _ & _ & H7).
  - vm_compute. reflexivity.
  - vm_compute. reflexivity.
  - exact Ho.
  - vm_compute. reflexivity.
  - split; [exact H1 |]. split; [exact H2 | apply H7; reflexivity].
Defined.

(** After [set] on a key that is no inherited name, [get] gives the value
    (as JSON reads it back, when the key was archived before). *)
Lemma get_after_set (d : db) (now : Z) (k : string) (v : value) :
  Inv d ->
  _check_key (cfg d) (VStr k) = 1 -> _check_value (cfg d) v = 1 ->
  is_inherited k = false ->
  fst (get (snd (set d now (VStr k) v)) (VStr k))
  = if is_archived d k then json_reparse v else v.
Proof.
  intros HI Hk Hv Hinh. unfold is_archived.
  destruct (own_property (index d) k) as [e |] eqn:Ho.
  - rewrite (get_after_update d now k e v HI Ho Hv). destruct (cached d e); reflexivity.
  - pose proof (Inv_set d now (VStr k) v HI) as HI'.
    assert (index_get (index d) k = Absent) as Hg by (apply index_get_Absent; auto).
    rewrite (set_new d now k v Hk Hv Hg) in *. cbn [snd] in *.
    rewrite (get_cached _ k {| i := index_size d; f := cache_file_name d; c := now |} HI').
    + unfold index_size. cbn. rewrite length_app. simpl.
      replace (Z.of_nat (length (index d) + 1) - (Z.of_nat (length (index d)) + 1)) with 0 by lia.
      reflexivity.
    + cbn. rewrite own_property_app, Ho. simpl. rewrite String.eqb_refl. reflexivity.
    + unfold index_size, cache_size. cbn. rewrite length_app. simpl. lia.
Qed.

(** C1, as stated, fails: [Infinity] is a valid value; put on the archived
    key [b] and read back at once, it comes back as [null]. *)
Lemma C1_archived_value_is_reparsed :
  _check_key (cfg archived_db) (VStr "b") = 1 /\
  _check_value (cfg archived_db) VInfinity = 1 /\
  is_archived archived_db "b" = true /\
  fst (get (snd (set archived_db 9004 (VStr "b") VInfinity)) (VStr "b")) = VNull.
Proof. vm_compute. auto. Qed.

(** C1 (amended): in a state reached from a fresh database by calls that
    give every new cache file a fresh name ([clock_ok]), for a valid key that is no property name of
    [Object.prototype] and a valid value, [get] right after [set] returns the
    value when the key is new or in the cache, and the value as JSON reads
    it back (the value itself, whenever JSON keeps it) when the key is
    archived; in that case [get] reads the slot
    [length - 1 - (seq - offset)] of the key's archived file, the offset
    being the sum of the sizes of the segments archived before it. *)
Theorem C1_get_after_set (c : config) (t_started t_name : Z) (ops : list op)
    (d : db) (now : Z) (k : string) (v : value) :
  clock_ok (open_fresh c t_started t_name) ops = true ->
  run (open_fresh c t_started t_name) ops = Some d ->
  _check_key (cfg d) (VStr k) = 1 -> _check_value (cfg d) v = 1 ->
  is_inherited k = false ->
  fst (get (snd (set d now (VStr k) v)) (VStr k))
    = (if is_archived d k then json_reparse v else v) /\
  (json_reparse v = v -> fst (get (snd (set d now (VStr k) v)) (VStr k)) = v) /\
  (is_archived d k = true ->
   exists (e : entry) (parsed : list value),
     own_property (index (snd (set d now (VStr k) v))) k = Some e /\
     archived_files (dir (snd (set d now (VStr k) v))) !! f e = Some parsed /\
     fst (get (snd (set d now (VStr k) v)) (VStr k)) =
     array_get parsed
       (Z.of_nat (length parsed) - 1
        - (i e - archive_total
                   (sealed_before (meta_archive (snd (set d now (VStr k) v))) (f e))))).
Proof.
  intros Hclock Hrun Hk Hv Hinh.
  pose proof (Inv_reachable c t_started t_name ops d Hclock Hrun) as HI.
  pose proof (get_after_set d now k v HI Hk Hv Hinh) as Hget.
  split; [exact Hget |]. split.
  - intros Hstable. rewrite Hget, Hstable. destruct (is_archived d k); reflexivity.
  - unfold is_archived. destruct (own_property (index d) k) as [e |] eqn:Ho; [| discriminate].
    intros Hc. apply negb_true_iff in Hc.
    pose proof (Inv_set d now (VStr k) v HI) as HI'.
    destruct (set_update_frame d now k e v HI Ho Hv) as (_ & Hidx & _ & Hcs & _).
    assert (own_property (index (snd (set d now (VStr k) v))) k = Some e) as Ho'
      by (rewrite Hidx; exact Ho).
    assert (cached (snd (set d now (VStr k) v)) e = false) as Hc'.
    { unfold cached, index_size in *. rewrite Hcs, Hidx. exact Hc. }
    destruct (get_archived_resolution _ k e HI' Ho' Hc') as (parsed & Hp & Hres).
    exists e, parsed. auto.
Qed.

Lemma C1_get_after_set_witness :
  is_archived archived_db "b" = true /\
  fst (get (snd (set archived_db 9004 (VStr "b") (VStr "vb2"))) (VStr "b")) = VStr "vb2".
Proof.
  split; [vm_compute; reflexivity |].
  destruct (C1_get_after_set test_config 1000 1001 archive_ops archived_db 9004
              "b" (VStr "vb2")) as (_ & H & _).
  - vm_compute. reflexivity.
  - vm_compute. reflexivity.
  - vm_compute. reflexivity.
  - vm_compute. reflexivity.
  - vm_compute. reflexivity.
  - apply H. reflexivity.
Defined.

(** ** Sequence numbers *)

(** X17: in every state reached from a fresh database by calls that
    give every new cache file a fresh name ([clock_ok]): the seq fields of the
    index, in insertion order, are 0, 1, ..., n-1; no key occurs twice; the
    reverse index has the size of the index and maps each seq to its key;
    and the cache length is the index size minus the archived sizes. *)
Lemma reachable_index_shape (c : config) (t_started t_name : Z) (ops : list op) (d : db) :
  clock_ok (open_fresh c t_started t_name) ops = true ->
  run (open_fresh c t_started t_name) ops = Some d ->
  map (fun p => i (snd p)) (index d) = seqZ 0 (index_size d) /\
  NoDup (map fst (index d)) /\
  rindex_size d = index_size d /\
  (forall (n : nat) (k : string) (e : entry),
     index d !! n = Some (k, e) -> rindex d !! Z.of_nat n = Some k) /\
  cache_size d = index_size d - archive_total (meta_archive d).
Proof.
  intros Hclock Hrun.
  pose proof (Inv_reachable c t_started t_name ops d Hclock Hrun) as HI.
  split; [| split; [| split; [| split]]].
  - apply list_eq. intros n. unfold index_size.
    rewrite list_lookup_fmap.
    destruct (index d !! n) as [[k e] |] eqn:Hn; simpl.
    + destruct (inv_seq d HI n k e Hn) as [Hi _]. symmetry.
      apply lookup_seqZ. apply lookup_lt_Some in Hn. simpl. lia.
    + symmetry. apply lookup_seqZ_ge. apply lookup_ge_None in Hn. lia.
  - apply NoDup_alt. intros n1 n2 k H1 H2.
    rewrite list_lookup_fmap in H1, H2.
    destruct (index d !! n1) as [[k1 e1] |] eqn:E1; [| discriminate].
    destruct (index d !! n2) as [[k2 e2] |] eqn:E2; [| discriminate].
    simpl in H1, H2. injection H1 as ->. injection H2 as ->.
    destruct (inv_seq d HI n1 k e1 E1) as [Hi1 Ho1].
    destruct (inv_seq d HI n2 k e2 E2) as [Hi2 Ho2].
    rewrite Ho1 in Ho2. injection Ho2 as ->. lia.
  - unfold rindex_size, index_size. rewrite (inv_rsize d HI). reflexivity.
  - intros n k e Hn. apply (inv_rindex d HI). eauto.
  - apply (inv_cache d HI).
Qed.

Lemma _update_file_index (d : db) (k : string) (v : value) :
  index (_update_file d k v) = index d.
Proof.
  unfold _update_file. destruct (index_get (index d) k); try reflexivity.
  destruct (archived_files (dir d) !! f e); [| reflexivity].
  destruct (_ && _); reflexivity.
Qed.

(** [set] never changes an entry of the index: it leaves the index alone or
    appends one entry whose seq is the index size. *)
Lemma set_index (d : db) (now : Z) (key v : value) :
  index (snd (set d now key v)) = index d \/
  exists k : string,
    key = VStr k /\ index_get (index d) k = Absent /\
    index (snd (set d now key v))
    = index d ++ [(k, {| i := index_size d; f := cache_file_name d; c := now |})].
Proof.
  unfold set. destruct (negb _); [left; reflexivity |].
  destruct (negb _); [left; reflexivity |].
  destruct key; try (left; reflexivity).
  destruct (index_get (index d) s) eqn:Hg.
  - left. destruct (negb _); [destruct (_ && _); reflexivity | apply _update_file_index].
  - left. destruct (negb _); [destruct (_ && _); reflexivity | apply _update_file_index].
  - right. exists s. auto.
Qed.

(** C2, at the failing input: two distinct valid keys are put into a fresh
    database and both calls report success, but only one seq is assigned:
    the key [constructor] never reaches the index. *)
Theorem C2_inherited_key_gets_no_seq :
  let r1 := set fresh_db 1002 (VStr "constructor") (VStr "x") in
  let r2 := set (snd r1) 1003 (VStr "a") (VStr "va") in
  fst r1 = true /\ fst r2 = true /\
  map (fun p => (fst p, i (snd p))) (index (snd r2)) = [("a", 0)] /\
  index_size (snd r2) = 1.
Proof. vm_compute. auto. Qed.

(** ** The index lists the keys in the order of their first put *)

Lemma own_property_existsb {A : Type} (o : list (string * A)) (k : string) :
  existsb (String.eqb k) (map fst o) = bool_decide (own_property o k <> None).
Proof.
  induction o as [| [k' a] o IH]; simpl; [reflexivity |].
  rewrite String.eqb_sym. destruct (String.eqb k' k); simpl; [reflexivity | exact IH].
Qed.

Lemma set_cfg (d : db) (now : Z) (key v : value) : cfg (snd (set d now key v)) = cfg d.
Proof.
  unfold set. destruct (negb _); [reflexivity |]. destruct (negb _); [reflexivity |].
  destruct key; try reflexivity.
  destruct (index_get (index d) s) eqn:Hg; try reflexivity.
  - destruct (negb _); [destruct (_ && _); reflexivity |].
    unfold _update_file. rewrite Hg. destruct (_ !! _); [| reflexivity].
    destruct (_ && _); reflexivity.
  - destruct (negb _); [destruct (_ && _); reflexivity |].
    unfold _update_file. rewrite Hg. reflexivity.
Qed.

(** The index after [set]: one entry more for a storable key that is not in
    the index, the same index otherwise. *)
Lemma set_index_storable (d : db) (now : Z) (key v : value) :
  index (snd (set d now key v)) =
  match storable (cfg d) key v with
  | Some k =>
      match own_property (index d) k with
      | Some _ => index d
      | None =>
          index d ++ [(k, {| i := index_size d; f := cache_file_name d; c := now |})]
      end
  | None => index d
  end.
Proof.
  destruct (set_index d now key v) as [Hsame | (k & -> & Hg & Happ)].
  - unfold storable. destruct key; try exact Hsame.
    destruct (_ && _ && _) eqn:Hst; [| exact Hsame].
    apply andb_true_iff in Hst as [Hst Hinh]. apply andb_true_iff in Hst as [Hk Hv].
    apply Z.eqb_eq in Hk, Hv. apply negb_true_iff in Hinh.
    destruct (own_property (index d) s) eqn:Ho; [exact Hsame |].
    assert (index_get (index d) s = Absent) as Hg by (apply index_get_Absent; auto).
    rewrite (set_new d now s v Hk Hv Hg). reflexivity.
  - apply index_get_Absent in Hg as [Ho Hinh].
    destruct (Z.eqb (_check_key (cfg d) (VStr k)) 1 && Z.eqb (_check_value (cfg d) v) 1) eqn:Hst;
      unfold storable; rewrite Hst, ?Hinh; cbn [negb andb]; [rewrite Ho; exact Happ |].
    unfold set. apply andb_false_iff in Hst as [Hst | Hst]; rewrite Hst; cbn [negb].
    + reflexivity.
    + destruct (negb _); reflexivity.
Qed.

Lemma run_op_frame (d d' : db) (o : op) :
  run_op d o = Some d' ->
  cfg d' = cfg d /\
  (match o with Set_ _ _ _ => True | _ => index d' = index d end).
Proof.
  destruct o as [now key v | key | ir tr | t1 t2 t3]; simpl.
  - intros [= <-]. split; [apply set_cfg | exact I].
  - intros [= <-]. destruct (same_core_get d key) as (H1 & _ & _ & H2 & _). auto.
  - destruct (getn d ir tr) as [[r d''] |] eqn:Hg; simpl; [| discriminate].
    intros [= <-]. destruct (same_core_getn d d'' ir tr r Hg) as (H1 & _ & _ & H2 & _). auto.
  - intros Hp. destruct (rotates d t1) eqn:Hr.
    + destruct (_persist_rotation d t1 t2 t3 Hr) as (d1 & Hp1 & Hcfg & _ & _ & _ & Hidx & _).
      rewrite Hp1 in Hp. injection Hp as <-. auto.
    + rewrite (_persist_no_rotation d _ _ _ Hr) in Hp. injection Hp as <-.
      split; reflexivity.
Qed.

Lemma put_keys_run (ops : list op) : forall d d' : db,
  run d ops = Some d' ->
  map fst (index d') = put_keys (cfg d) ops (map fst (index d)).
Proof.
  induction ops as [| o rest IH]; intros d d' Hrun; simpl in Hrun.
  - injection Hrun as <-. reflexivity.
  - destruct (run_op d o) as [d1 |] eqn:Hd1; [| discriminate].
    destruct (run_op_frame d d1 o Hd1) as [Hcfg Hidx].
    rewrite (IH d1 d' Hrun), Hcfg.
    destruct o as [now key v | key | ir tr | t1 t2 t3]; simpl;
      try (rewrite Hidx; reflexivity).
    simpl in Hd1. injection Hd1 as <-.
    rewrite set_index_storable.
    destruct (storable (cfg d) key v) as [k |]; [| reflexivity].
    rewrite own_property_existsb.
    destruct (own_property (index d) k) eqn:Ho.
    + rewrite bool_decide_eq_true_2 by discriminate. reflexivity.
    + rewrite bool_decide_eq_false_2 by (intros H; apply H; reflexivity).
      rewrite map_app. reflexivity.
Qed.

(** X16: from a fresh database, the keys of the index, in seq order, are the
    storable keys of the [set] calls, each once, in the order of their first
    [set]. *)
Lemma index_keys_in_put_order (c : config) (t_started t_name : Z) (ops : list op) (d : db) :
  run (open_fresh c t_started t_name) ops = Some d ->
  map fst (index d) = put_keys c ops [].
Proof. intros Hrun. apply (put_keys_run ops _ d Hrun). Qed.

(** ** The constructor on an empty directory *)

(** X18: with a configuration that passes [_check_config], [new DBjs(config)] on
    an empty directory passes the consistency checks and serves the fresh
    database the sequences of calls above start from. *)
Lemma DBjs_new_empty_directory (c : config) (t_started t_name : Z) :
  _check_config c = None ->
  DBjs_new c empty_disk t_started t_name = Serving (open_fresh c t_started t_name).
Proof.
  intros Hc. unfold DBjs_new. rewrite Hc.
  unfold _load_cache. cbn [dir cache_files empty_disk].
  rewrite map_to_list_empty. cbn [map merge_sort].
  assert (merge_sort (flip Z.le) [] = []) as -> by reflexivity.
  assert (_consistency_checks
            (with_meta_archive
               (with_rindex
                  (with_index
                     (_create_cache_file
                        {| cfg := c; cache := []; cache_file_name := 0;
                           started := t_started; index := []; rindex := ∅;
                           meta_archive := []; stats := zero_counters;
                           dir := empty_disk |} t_name)
                     (default [] (index_json empty_disk)))
                  (default ∅ (rindex_json empty_disk)))
               (default [] (meta_json empty_disk))) = None) as ->.
  { unfold _consistency_checks, rindex_size, index_size, cache_size, _getFiles, items_on_disk.
    cbn [rindex index cache meta_archive dir with_meta_archive with_rindex with_index
         _create_cache_file with_dir with_cache with_cache_file_name with_cache_files
         archived_files cache_files empty_disk default from_option index_json rindex_json
         meta_json].
    rewrite map_to_list_empty, insert_empty, map_to_list_singleton. reflexivity. }
  reflexivity.
Qed.

(** * Further properties of the engine *)

(** ** The cases of [set] *)

Lemma set_cases (d : db) (now : Z) (key v : value) : Inv d -> set_case d now key v.
Proof.
  intros HI.
  destruct (check_key_values (cfg d) key) as [Hk | Hk];
    [| apply set_rejects; unfold set; rewrite Hk; reflexivity].
  destruct (check_value_values (cfg d) v) as [Hv | Hv];
    [| apply set_rejects; unfold set; rewrite Hk, Hv; reflexivity].
  pose proof Hk as Hk'. apply check_key_accepts in Hk' as (k & -> & _).
  destruct (index_get (index d) k) as [e | |] eqn:Hg.
  - apply index_get_Own in Hg.
    pose proof (own_seq_bound d k e HI Hg) as Hb.
    destruct (Z.lt_ge_cases (index_size d - (i e + 1)) (cache_size d)) as [Hlt | Hge].
    + apply (set_overwrites_cache d now _ v k e eq_refl Hg); [lia |].
      apply (set_cached d now k e v HI Hk Hv Hg Hlt).
    + assert (i e < archive_total (meta_archive d)) as Harch
        by (pose proof (inv_cache d HI); lia).
      destruct (archived_slot d k e HI Hg Harch) as (parsed & Hp & Hrange).
      apply (set_overwrites_file d now _ v k e parsed eq_refl Hg Hge Hp Hrange).
      rewrite (set_archived d now k e v Hk Hv Hg Hge).
      rewrite (_update_file_archived d k e v parsed Hg Hp Hrange). reflexivity.
  - apply (set_ignores d now _ v k eq_refl Hg). apply (set_inherited d now k v Hk Hv Hg).
  - pose proof Hg as Hg'. apply index_get_Absent in Hg' as [Ho Hinh].
    apply (set_inserts d now _ v k eq_refl Ho Hinh). apply (set_new d now k v Hk Hv Hg).
Qed.

(** ** Reads leave the directory alone *)

Lemma load_files_dir (to_load : list Z) : forall (d : db) (retval : list value),
  dir (snd (load_files d retval to_load)) = dir d.
Proof.
  induction to_load as [| file rest IH]; intros d retval; simpl; [reflexivity |].
  rewrite IH. reflexivity.
Qed.

Lemma get_dir (d : db) (key : value) : dir (snd (get d key)) = dir d.
Proof.
  unfold get. destruct (negb _); [reflexivity |].
  destruct key; try reflexivity.
  destruct (index_get (index d) s) eqn:Hg; try reflexivity;
    (destruct (negb _); [reflexivity |]); unfold _load_from_file; rewrite Hg;
    [destruct (archived_files (dir d) !! f e) |]; reflexivity.
Qed.

Lemma getn_range_dir (d : db) (s e : Z) : dir (snd (getn_range d s e)) = dir d.
Proof.
  unfold getn_range.
  destruct (Z.ltb (index_size d) e || Z.ltb (index_size d) s);
    (destruct (_ || _ || _); [reflexivity |]);
    (destruct (Z.leb _ _); [reflexivity |]);
    (destruct (rindex d !! _); [| reflexivity]);
    (destruct (negb _); [| reflexivity]);
    destruct (index_get _ _); try reflexivity;
    match goal with
    | |- dir (snd (let '(_, _) := load_files ?d1 ?r ?l in _)) = _ =>
        pose proof (load_files_dir l d1 r) as Hd;
        destruct (load_files d1 r l) as [retval d']; exact Hd
    end.
Qed.

Lemma getn_dir (d d' : db) (ir tr : option (list Z)) (r : outcome (list value)) :
  getn d ir tr = Some (r, d') -> dir d' = dir d.
Proof.
  unfold getn. destruct (getn_bounds d ir tr) as [[[s e] |] |].
  - intros [= H]. replace d' with (snd (getn_range d s e)) by (rewrite H; reflexivity).
    apply getn_range_dir.
  - discriminate.
  - intros [= <- <-]. reflexivity.
Qed.

(** ** The invariant of the directory holds in every reachable state *)

Lemma json_reparse_idem (v : value) : json_reparse (json_reparse v) = json_reparse v.
Proof. destruct v; reflexivity. Qed.

Lemma file_content_json (a : list value) : map json_reparse (file_content a) = file_content a.
Proof.
  unfold file_content. rewrite map_map. apply map_ext. intros v. apply json_reparse_idem.
Qed.

Lemma file_content_length (a : list value) : length (file_content a) = length a.
Proof. unfold file_content. apply length_map. Qed.

Lemma DiskInv_open_fresh (c : config) (t_started t_name : Z) :
  DiskInv (open_fresh c t_started t_name).
Proof.
  split; cbn.
  - intros a content H. rewrite lookup_empty in H. discriminate.
  - intros a. rewrite lookup_empty. split; [intros [x H]; discriminate | contradiction].
  - contradiction.
  - constructor.
  - contradiction.
  - exists []. split; [| reflexivity]. rewrite insert_empty. reflexivity.
Qed.

Lemma DiskInv_same (d d' : db) :
  DiskInv d ->
  archived_files (dir d') = archived_files (dir d) ->
  cache_files (dir d') = cache_files (dir d) ->
  meta_archive d' = meta_archive d -> cache_file_name d' = cache_file_name d ->
  (cache d' = [] -> cache d = []) ->
  DiskInv d'.
Proof.
  intros [H1 H2 H3 H4 H5 (fc & H6 & H7)] Ha Hc Hm Hn Hcache.
  split; rewrite ?Ha, ?Hc, ?Hm, ?Hn; try assumption.
  exists fc. split; [exact H6 | auto].
Qed.

Lemma DiskInv_file_update (d d' : db) (a : Z) (parsed new : list value) :
  DiskInv d ->
  archived_files (dir d) !! a = Some parsed -> length new = length parsed ->
  archived_files (dir d') = <[a := file_content new]> (archived_files (dir d)) ->
  cache_files (dir d') = cache_files (dir d) ->
  meta_archive d' = meta_archive d -> cache_file_name d' = cache_file_name d ->
  cache d' = cache d ->
  DiskInv d'.
Proof.
  intros [H1 H2 H3 H4 H5 (fc & H6 & H7)] Hp Hlen Ha Hc Hm Hn Hcache.
  split; rewrite ?Ha, ?Hc, ?Hm, ?Hn, ?Hcache; try assumption.
  - intros b content. destruct (decide (b = a)) as [-> | Hne].
    + rewrite lookup_insert_eq. intros [= <-]. apply file_content_json.
    + rewrite lookup_insert_ne by congruence. apply H1.
  - intros b. rewrite <- H2. destruct (decide (b = a)) as [-> | Hne].
    + rewrite lookup_insert_eq, Hp. split; eauto.
    + rewrite lookup_insert_ne by congruence. reflexivity.
  - intros b s content Hin. destruct (decide (b = a)) as [-> | Hne].
    + rewrite lookup_insert_eq. intros [= <-].
      rewrite file_content_length, Hlen. apply (H3 a s parsed Hin Hp).
    + rewrite lookup_insert_ne by congruence. apply H3. exact Hin.
  - exists fc. split; [exact H6 | exact H7].
Qed.

Lemma DiskInv_set (d : db) (now : Z) (key v : value) :
  Inv d -> DiskInv d -> DiskInv (snd (set d now key v)).
Proof.
  intros HI HD.
  destruct (set_cases d now key v HI)
    as [-> | k _ _ -> | k _ _ _ -> | k e _ _ Hci -> | k e parsed _ _ _ Hp Hfi ->]; cbn [snd].
  - exact HD.
  - exact HD.
  - apply (DiskInv_same d); try reflexivity; [exact HD | discriminate].
  - apply (DiskInv_same d); try reflexivity; [exact HD |].
    cbn. intros H. apply (f_equal length) in H. rewrite length_insert in H.
    destruct (cache d); [reflexivity | discriminate].
  - apply (DiskInv_file_update d _ (f e) parsed
             (<[Z.to_nat (_get_archived_index d (i e) (f e) (Z.of_nat (length parsed))) := v]>
                parsed) HD Hp (length_insert _ _ _)); reflexivity.
Qed.

(** The cache files after an archiving [_persist]. *)
Lemma _persist_rotation_cache_files (d d' : db) (t_delta t_name t_started : Z) :
  rotates d t_delta = true ->
  _persist d t_delta t_name t_started = Some d' ->
  cache_files (dir d')
  = <[t_name := []]>
      (delete (cache_file_name d)
         (<[cache_file_name d := file_content (cache d)]> (cache_files (dir d)))).
Proof.
  intros Hr Hp.
  assert (0 < cache_size d) as Hpos.
  { unfold rotates in Hr. apply andb_true_iff in Hr as [_ Hr]. apply Z.ltb_lt. exact Hr. }
  unfold _persist, rotates in *. cbn [_flush] in Hp.
  change (archive_due (_flush_meta_file ?x) ?s ?t) with (archive_due d s t) in Hp.
  change (cache_size (_flush_meta_file ?x)) with (cache_size d) in Hp.
  rewrite Hr in Hp. unfold rename_to_archive in Hp.
  cbn [dir _flush_meta_file with_dir cache_file_name cache_files] in Hp.
  destruct (Z.ltb_spec 0 (cache_size d)); [| lia].
  rewrite lookup_insert_eq in Hp. injection Hp as <-. reflexivity.
Qed.

Lemma DiskInv_persist (d d' : db) (t_delta t_name t_started : Z) :
  Inv d -> DiskInv d ->
  _persist d t_delta t_name t_started = Some d' ->
  DiskInv d'.
Proof.
  intros HI HD Hp.
  pose proof HD as [H1 H2 H3 H4 H5 (fc & H6 & H7)].
  destruct (rotates d t_delta) eqn:Hr.
  - pose proof (_persist_rotation_cache_files d d' _ _ _ Hr Hp) as Hcf.
    destruct (_persist_rotation d t_delta t_name t_started Hr)
      as (d1 & Hp1 & Hcfg & Hcache & Hname & _ & Hindex & Hrindex & Hmeta & Hfiles).
    rewrite Hp1 in Hp. injection Hp as ->.
    pose proof (cache_file_not_archived d HI) as Hnotin.
    rewrite (archive_put_fresh _ _ _ Hnotin) in Hmeta.
    assert (0 < cache_size d) as Hpos.
    { unfold rotates in Hr. apply andb_true_iff in Hr as [_ Hr]. apply Z.ltb_lt. exact Hr. }
    split; rewrite ?Hfiles, ?Hmeta, ?Hname, ?Hcache.
    + intros a content. destruct (decide (a = cache_file_name d)) as [-> | Hne].
      * rewrite lookup_insert_eq. intros [= <-]. apply file_content_json.
      * rewrite lookup_insert_ne by congruence. apply H1.
    + intros a. rewrite map_app, in_app_iff. simpl.
      destruct (decide (a = cache_file_name d)) as [-> | Hne].
      * rewrite lookup_insert_eq. split; eauto.
      * rewrite lookup_insert_ne by congruence. rewrite H2. split; [auto |].
        intros [H | [H | []]]; [exact H | congruence].
    + intros a s content Hin. apply in_app_iff in Hin as [Hin | [[= <- <-] | []]].
      * assert (a <> cache_file_name d) as Hne.
        { intros ->. apply Hnotin. apply (in_map fst) in Hin. exact Hin. }
        rewrite lookup_insert_ne by congruence. apply H3. exact Hin.
      * rewrite lookup_insert_eq. intros [= <-]. rewrite file_content_length. reflexivity.
    + rewrite map_app. simpl. apply NoDup_app. split; [exact H4 |]. split.
      * intros a Ha Ha'. apply list_elem_of_In in Ha. apply list_elem_of_singleton in Ha'.
        subst a. contradiction.
      * apply NoDup_singleton.
    + intros a s Hin. apply in_app_iff in Hin as [Hin | [[= <- <-] | []]];
        [apply (H5 a s Hin) | exact Hpos].
    + exists []. split; [| reflexivity].
      rewrite Hcf, H6, insert_singleton_eq, delete_singleton_eq, insert_empty. reflexivity.
  - rewrite (_persist_no_rotation d _ _ _ Hr) in Hp. injection Hp as <-.
    split; cbn [_flush snd dir _flush_meta_file with_dir archived_files meta_archive
                cache_file_name cache cache_files]; try assumption.
    destruct (Z.ltb_spec 0 (cache_size d)) as [Hpos | Hzero].
    + exists (file_content (cache d)). split.
      * rewrite H6, insert_singleton_eq. reflexivity.
      * intros ->. reflexivity.
    + exists fc. split; [exact H6 | exact H7].
Qed.

Lemma DiskInv_run_op (d d' : db) (o : op) :
  Inv d -> DiskInv d -> run_op d o = Some d' -> DiskInv d'.
Proof.
  intros HI HD Hrun. destruct o as [now key v | key | ir tr | t1 t2 t3]; simpl in Hrun.
  - injection Hrun as <-. apply DiskInv_set; assumption.
  - injection Hrun as <-.
    destruct (same_core_get d key) as (_ & Hc & Hn & _ & _ & Hm & Ha).
    apply (DiskInv_same d); try assumption; [rewrite get_dir; reflexivity |].
    rewrite Hc. auto.
  - destruct (getn d ir tr) as [[r d''] |] eqn:Hg; simpl in Hrun; [| discriminate].
    injection Hrun as <-.
    destruct (same_core_getn d d'' ir tr r Hg) as (_ & Hc & Hn & _ & _ & Hm & Ha).
    apply (DiskInv_same d); try assumption; [rewrite (getn_dir _ _ _ _ _ Hg); reflexivity |].
    rewrite Hc. auto.
  - apply (DiskInv_persist d d' t1 t2 t3 HI HD Hrun).
Qed.

Lemma invariants_run (ops : list op) : forall (d d' : db),
  Inv d -> DiskInv d -> clock_ok d ops = true -> run d ops = Some d' ->
  Inv d' /\ DiskInv d'.
Proof.
  induction ops as [| o rest IH]; intros d d' HI HD Hclock Hrun.
  - injection Hrun as <-. auto.
  - apply clock_ok_cons in Hclock as [Ho Hrest]. simpl in Hrun.
    destruct (run_op d o) as [d1 |] eqn:Hd1; [| discriminate].
    apply (IH d1 d'); [| | apply Hrest; reflexivity | exact Hrun].
    + apply (Inv_run_op d d1 o HI Ho Hd1).
    + apply (DiskInv_run_op d d1 o HI HD Hd1).
Qed.

(** Both invariants hold in every state reached from a fresh database. *)
Lemma invariants_reachable (c : config) (t_started t_name : Z) (ops : list op) (d : db) :
  clock_ok (open_fresh c t_started t_name) ops = true ->
  run (open_fresh c t_started t_name) ops = Some d ->
  Inv d /\ DiskInv d.
Proof.
  apply invariants_run; [apply Inv_open_fresh | apply DiskInv_open_fresh].
Qed.

(** ** [set] on one key leaves the other keys alone *)

Lemma own_seq_inj (d : db) (k k' : string) (e e' : entry) :
  Inv d -> own_property (index d) k = Some e -> own_property (index d) k' = Some e' ->
  i e = i e' -> k = k'.
Proof.
  intros HI Ho Ho' Hi.
  destruct (own_property_lookup _ _ _ Ho) as [n Hn].
  destruct (own_property_lookup _ _ _ Ho') as [n' Hn'].
  destruct (inv_seq d HI n k e Hn) as [Hin _].
  destruct (inv_seq d HI n' k' e' Hn') as [Hin' _].
  assert (n = n') as -> by lia. congruence.
Qed.

(** [get] of a key that is not in the index. *)
Lemma get_not_own (d : db) (k : string) :
  own_property (index d) k = None ->
  fst (get d (VStr k)) =
  if Z.eqb (_check_key (cfg d) (VStr k)) 1 && is_inherited k then VNull else VUndefined.
Proof.
  intros Ho. unfold get, _get_memory_cache_index, _load_from_file, index_get.
  rewrite Ho. destruct (Z.eqb _ 1); [| reflexivity].
  destruct (is_inherited k); reflexivity.
Qed.

Lemma array_get_cons (v : value) (a : list value) (n : Z) :
  0 <= n -> array_get (v :: a) (n + 1) = array_get a n.
Proof.
  intros Hn. unfold array_get.
  destruct (Z.ltb_spec (n + 1) 0); [lia |]. destruct (Z.ltb_spec n 0); [lia |].
  replace (Z.to_nat (n + 1)) with (S (Z.to_nat n)) by lia. reflexivity.
Qed.

Lemma array_get_insert_ne (a : list value) (n m : Z) (v : value) :
  0 <= n -> 0 <= m -> n <> m -> array_get (<[Z.to_nat n := v]> a) m = array_get a m.
Proof.
  intros Hn Hm Hne. unfold array_get. destruct (Z.ltb_spec m 0); [lia |].
  rewrite list_lookup_insert_ne by lia. reflexivity.
Qed.

Lemma array_get_json (a : list value) (n : Z) :
  map json_reparse a = a -> 0 <= n < Z.of_nat (length a) ->
  json_reparse (array_get a n) = array_get a n.
Proof.
  intros Hj Hn. unfold array_get. destruct (Z.ltb_spec n 0); [lia |].
  destruct (a !! Z.to_nat n) as [x |] eqn:Hx; [| apply lookup_ge_None in Hx; lia].
  simpl. assert (map json_reparse a !! Z.to_nat n = Some (json_reparse x)) as Hjx
    by (rewrite list_lookup_fmap, Hx; reflexivity).
  rewrite Hj, Hx in Hjx. congruence.
Qed.

Lemma array_get_file_content (a : list value) (n : Z) :
  0 <= n < Z.of_nat (length a) ->
  array_get (file_content a) n = json_reparse (array_get a n).
Proof.
  intros Hn. unfold array_get, file_content. destruct (Z.ltb_spec n 0); [lia |].
  rewrite list_lookup_fmap.
  destruct (a !! Z.to_nat n) as [x |] eqn:Hx; [reflexivity |].
  apply lookup_ge_None in Hx. lia.
Qed.

(** X1: in a state reached from a fresh database by calls that
    give every new cache file a fresh name ([clock_ok]), a call of [set] with
    any key and value leaves the answer of [get] for every other key as it
    was. *)
Theorem set_keeps_other_keys (c : config) (t_started t_name : Z) (ops : list op)
    (d : db) (now : Z) (key v : value) (k' : string) :
  clock_ok (open_fresh c t_started t_name) ops = true ->
  run (open_fresh c t_started t_name) ops = Some d ->
  key <> VStr k' ->
  fst (get (snd (set d now key v)) (VStr k')) = fst (get d (VStr k')).
Proof.
  intros Hclock Hrun Hne.
  destruct (invariants_reachable c t_started t_name ops d Hclock Hrun) as [HI HD].
  pose proof (Inv_set d now key v HI) as HI'.
  pose proof (set_cfg d now key v) as Hcfg.
  destruct (set_cases d now key v HI)
    as [Hs | k _ _ Hs | k -> Hok Hinh Hs | k e -> Hok Hci Hs | k e parsed -> Hok Hge Hp Hfi Hs];
    rewrite Hs in *; cbn [snd] in *; try reflexivity.
  - (* a new key *)
    assert (k <> k') as Hkk by congruence.
    destruct (own_property (index d) k') as [e' |] eqn:Ho'.
    + assert (own_property (index (with_rindex
                 (with_index (memory_write (with_cache d (v :: cache d)))
                    (index d ++ [(k, {| i := index_size d; f := cache_file_name d; c := now |})]))
                 (<[index_size d := k]> (rindex d)))) k' = Some e') as Ho''.
      { cbn. rewrite own_property_app, Ho'. reflexivity. }
      pose proof (own_seq_bound d k' e' HI Ho') as Hb.
      destruct (Z.lt_ge_cases (index_size d - (i e' + 1)) (cache_size d)) as [Hlt | Hge].
      * rewrite (get_cached _ k' e' HI' Ho''), (get_cached d k' e' HI Ho' Hlt).
        -- unfold index_size. cbn. rewrite length_app. simpl.
           replace (Z.of_nat (length (index d) + 1) - (i e' + 1))
             with ((Z.of_nat (length (index d)) - (i e' + 1)) + 1) by lia.
           apply array_get_cons. unfold index_size in Hb. lia.
        -- unfold index_size, cache_size in *. cbn. rewrite length_app. simpl. lia.
      * assert (i e' < archive_total (meta_archive d)) as Harch
          by (pose proof (inv_cache d HI); lia).
        destruct (archived_slot d k' e' HI Ho' Harch) as (parsed & Hp & _).
        rewrite (get_archived _ k' e' parsed HI' Ho''), (get_archived d k' e' parsed HI Ho' Hge Hp).
        -- reflexivity.
        -- unfold index_size, cache_size in *. cbn. rewrite length_app. simpl. lia.
        -- exact Hp.
    + rewrite !get_not_own; [rewrite Hcfg; reflexivity | exact Ho' |].
      cbn. rewrite own_property_app, Ho'. simpl.
      destruct (String.eqb_spec k k'); [contradiction | reflexivity].
  - (* a key in the cache *)
    assert (k <> k') as Hkk by congruence.
    destruct (own_property (index d) k') as [e' |] eqn:Ho'.
    + pose proof (own_seq_bound d k' e' HI Ho') as Hb.
      assert (i e <> i e') as Hii
        by (intros Heq; apply Hkk; apply (own_seq_inj d k k' e e' HI Hok Ho' Heq)).
      destruct (Z.lt_ge_cases (index_size d - (i e' + 1)) (cache_size d)) as [Hlt | Hge].
      * rewrite (get_cached _ k' e' HI' Ho'), (get_cached d k' e' HI Ho' Hlt).
        -- cbn. change (index_size (memory_write ?x)) with (index_size d).
           apply array_get_insert_ne; lia.
        -- unfold index_size, cache_size in *. cbn. rewrite length_insert. exact Hlt.
      * assert (i e' < archive_total (meta_archive d)) as Harch
          by (pose proof (inv_cache d HI); lia).
        destruct (archived_slot d k' e' HI Ho' Harch) as (parsed & Hp & _).
        rewrite (get_archived _ k' e' parsed HI' Ho'), (get_archived d k' e' parsed HI Ho' Hge Hp).
        -- reflexivity.
        -- unfold index_size, cache_size in *. cbn. rewrite length_insert. exact Hge.
        -- exact Hp.
    + rewrite !get_not_own; [rewrite Hcfg; reflexivity | exact Ho' | exact Ho'].
  - (* an archived key *)
    assert (k <> k') as Hkk by congruence.
    destruct (own_property (index d) k') as [e' |] eqn:Ho'.
    + pose proof (own_seq_bound d k' e' HI Ho') as Hb.
      assert (i e <> i e') as Hii
        by (intros Heq; apply Hkk; apply (own_seq_inj d k k' e e' HI Hok Ho' Heq)).
      destruct (Z.lt_ge_cases (index_size d - (i e' + 1)) (cache_size d)) as [Hlt | Hge'].
      * rewrite (get_cached _ k' e' HI' Ho'), (get_cached d k' e' HI Ho' Hlt);
          [reflexivity | exact Hlt].
      * assert (i e' < archive_total (meta_archive d)) as Harch
          by (pose proof (inv_cache d HI); lia).
        destruct (inv_archived d HI k' e' Ho' Harch) as (_ & parsed' & Hp' & Hrange').
        rewrite (get_archived d k' e' parsed' HI Ho' Hge' Hp').
        destruct (decide (f e' = f e)) as [Hff | Hff].
        -- rewrite Hff in *. assert (parsed' = parsed) as -> by congruence.
           set (fi := _get_archived_index d (i e) (f e) (Z.of_nat (length parsed))) in *.
           rewrite (get_archived _ k' e' (file_content (<[Z.to_nat fi := v]> parsed)) HI' Ho');
             [| exact Hge' | cbn; rewrite Hff; apply lookup_insert_eq].
           rewrite file_content_length, length_insert.
           cbn [cfg meta_archive file_write with_stats with_dir file_read].
           rewrite Hff.
           set (fi' := Z.of_nat (length parsed) - 1
                        - (i e' - archive_offset (cfg d) (meta_archive d) (f e))) in *.
           assert (fi <> fi') as Hfifi.
           { subst fi fi'. unfold _get_archived_index. lia. }
           rewrite array_get_file_content by (rewrite length_insert; lia).
           rewrite array_get_insert_ne by (subst fi fi'; unfold _get_archived_index in *; lia).
           apply array_get_json; [apply (disk_json d HD (f e) parsed Hp) | lia].
        -- rewrite (get_archived _ k' e' parsed' HI' Ho');
             [reflexivity | exact Hge' |].
           cbn. rewrite lookup_insert_ne by congruence. exact Hp'.
    + rewrite !get_not_own; [rewrite Hcfg; reflexivity | exact Ho' | exact Ho'].
Qed.

Lemma set_keeps_other_keys_witness :
  fst (get (snd (set archived_db 9004 (VStr "a") (VStr "va2"))) (VStr "b"))
  = fst (get archived_db (VStr "b")).
Proof.
  apply (set_keeps_other_keys test_config 1000 1001 archive_ops archived_db 9004
           (VStr "a") (VStr "va2") "b").
  - vm_compute. reflexivity.
  - vm_compute. reflexivity.
  - discriminate.
Defined.

(** ** A checkpoint keeps the values *)

Lemma get_same_core (d d' : db) (key : value) :
  same_core d d' -> fst (get d' key) = fst (get d key).
Proof.
  intros (Hc & Hca & Hn & Hi & Hr & Hm & Ha).
  unfold get, _get_memory_cache_index, _load_from_file, _get_archived_index,
    index_size, cache_size.
  rewrite Hc, Hca, Hi.
  destruct (negb _); [reflexivity |]. destruct key; try reflexivity.
  destruct (index_get (index d) s); try reflexivity.
  destruct (negb _); [reflexivity |].
  rewrite Ha. destruct (archived_files (dir d) !! f e); [| reflexivity].
  cbn [fst cfg meta_archive file_read with_stats]. rewrite Hc, Hm. reflexivity.
Qed.

(** X2: in a state reached from a fresh database by calls that
    give every new cache file a fresh name ([clock_ok]), a
    [_persist] that, when it archives, also gives the new cache file a fresh
    name leaves the answer of [get] for every key as it was, except that a
    value it moves from the cache into an archived file is from then on read
    back through JSON. *)
Theorem persist_keeps_values (c : config) (t_started0 t_name0 : Z) (ops : list op)
    (d d' : db) (t_delta t_name t_started : Z) (k : string) :
  clock_ok (open_fresh c t_started0 t_name0) ops = true ->
  run (open_fresh c t_started0 t_name0) ops = Some d ->
  (rotates d t_delta = true -> fresh_name d t_name = true) ->
  _persist d t_delta t_name t_started = Some d' ->
  fst (get d' (VStr k)) =
  if rotates d t_delta && is_cached d k
  then json_reparse (fst (get d (VStr k)))
  else fst (get d (VStr k)).
Proof.
  intros Hclock Hrun Hfresh Hp.
  destruct (invariants_reachable c t_started0 t_name0 ops d Hclock Hrun) as [HI HD].
  pose proof (Inv_persist d d' t_delta t_name t_started HI Hfresh Hp) as HI'.
  destruct (rotates d t_delta) eqn:Hr; cbn [andb].
  - destruct (_persist_rotation d t_delta t_name t_started Hr)
      as (d1 & Hp1 & Hcfg & Hcache & Hname & _ & Hindex & Hrindex & Hmeta & Hfiles).
    rewrite Hp1 in Hp. injection Hp as ->.
    pose proof (cache_file_not_archived d HI) as Hnotin.
    rewrite (archive_put_fresh _ _ _ Hnotin) in Hmeta.
    unfold is_cached. destruct (own_property (index d) k) as [e |] eqn:Ho.
    + assert (own_property (index d') k = Some e) as Ho' by (rewrite Hindex; exact Ho).
      pose proof (own_seq_bound d k e HI Ho) as Hb.
      assert (cache_size d' <= index_size d' - (i e + 1)) as Hge'.
      { unfold cache_size, index_size in *. rewrite Hcache, Hindex. simpl. lia. }
      unfold cached. destruct (Z.ltb_spec (index_size d - (i e + 1)) (cache_size d)) as [Hlt | Hge].
      * assert (f e = cache_file_name d) as Hf
          by (apply (inv_cached d HI k e Ho); pose proof (inv_cache d HI); lia).
        rewrite (get_cached d k e HI Ho Hlt).
        rewrite (get_archived d' k e (file_content (cache d)) HI' Ho' Hge');
          [| rewrite Hfiles, Hf; apply lookup_insert_eq].
        rewrite Hcfg, Hmeta, Hf, file_content_length.
        rewrite archive_offset_new
          by (intros a Ha; apply (names_ok_earlier d a HI Ha)).
        pose proof (inv_cache d HI) as Hcs. fold (cache_size d).
        replace (cache_size d - 1 - (i e - archive_total (meta_archive d)))
          with (index_size d - (i e + 1)) by lia.
        apply array_get_file_content. unfold cache_size in Hlt. lia.
      * assert (i e < archive_total (meta_archive d)) as Harch
          by (pose proof (inv_cache d HI); lia).
        destruct (inv_archived d HI k e Ho Harch) as (Hin & parsed & Hpa & _).
        rewrite (get_archived d k e parsed HI Ho Hge Hpa).
        rewrite (get_archived d' k e parsed HI' Ho' Hge').
        -- rewrite Hcfg, Hmeta. rewrite archive_offset_found; [reflexivity |].
           exists (f e). split; [exact Hin | apply includes_own_name].
        -- rewrite Hfiles, lookup_insert_ne; [exact Hpa |].
           intros Heq. apply Hnotin. rewrite Heq. exact Hin.
    + rewrite !get_not_own; [rewrite Hcfg; reflexivity | exact Ho | rewrite Hindex; exact Ho].
  - rewrite (_persist_no_rotation d _ _ _ Hr) in Hp. injection Hp as <-.
    apply get_same_core, same_core_flush.
Qed.

Lemma persist_keeps_values_witness :
  exists d' : db,
    _persist three_keys 9000 9001 9002 = Some d' /\
    fst (get d' (VStr "b")) = json_reparse (fst (get three_keys (VStr "b"))).
Proof.
  destruct (_persist three_keys 9000 9001 9002) as [d' |] eqn:Hp;
    [| vm_compute in Hp; discriminate].
  exists d'. split; [reflexivity |].
  apply (persist_keeps_values test_config 1000 1001
           [ Set_ 1002 (VStr "a") (VStr "va"); Set_ 1003 (VStr "b") (VStr "vb");
             Set_ 1004 (VStr "c") (VStr "vc") ]
           three_keys d' 9000 9001 9002 "b").
  - vm_compute. reflexivity.
  - vm_compute. reflexivity.
  - intros _. vm_compute. reflexivity.
  - exact Hp.
Defined.

(** ** Ranges inside the cache *)

Lemma archive_total_nonneg (d : db) : DiskInv d -> 0 <= archive_total (meta_archive d).
Proof.
  intros HD. pose proof (disk_positive d HD) as Hpos.
  unfold archive_total. induction (meta_archive d) as [| [a s] l IH]; simpl; [lia |].
  assert (0 < s) by (apply (Hpos a s); left; reflexivity).
  assert (0 <= foldr Z.add 0 (map snd l)) by (apply IH; intros b t Hb; apply (Hpos b t); right; exact Hb).
  lia.
Qed.

Lemma slice_all (a : list value) : slice a 0 (Z.of_nat (length a)) = a.
Proof.
  unfold slice. simpl. rewrite drop_0. apply firstn_all2. lia.
Qed.

(** X3: in every state whose cache is no longer than its index, a range that
    ends inside the cache is answered from memory:
    [getn([start, end])] returns that slice of the cache and only counts one
    memory read; in particular [getn()] without arguments returns the whole
    cache. *)
Theorem getn_from_cache (d : db) (start_index end_index : Z) :
  cache_size d <= index_size d ->
  0 <= start_index <= end_index -> end_index <= cache_size d ->
  getn d (Some [start_index; end_index]) None
    = Some (Returns (slice (cache d) start_index end_index), memory_read d) /\
  getn d None None = Some (Returns (cache d), memory_read d).
Proof.
  intros Hcs Hse He.
  assert (forall s e, 0 <= s <= e -> e <= cache_size d ->
            getn_range d s e = (Returns (slice (cache d) s e), memory_read d)) as Hrange.
  { intros s e Hs Hle. unfold getn_range.
    destruct (Z.ltb_spec (index_size d) e); [lia |].
    destruct (Z.ltb_spec (index_size d) s); [lia |]. cbn [orb].
    destruct (Z.ltb_spec s 0); [lia |]. destruct (Z.ltb_spec e 0); [lia |].
    destruct (Z.ltb_spec e s); [lia |]. cbn [orb].
    destruct (Z.leb_spec e (cache_size d)); [reflexivity | lia]. }
  split.
  - unfold getn, getn_bounds. rewrite Hrange by assumption. reflexivity.
  - unfold getn, getn_bounds. rewrite Hrange by (unfold cache_size; lia).
    unfold cache_size. rewrite slice_all. reflexivity.
Qed.

Lemma getn_from_cache_witness :
  getn archived_db (Some [0; 1]) None
    = Some (Returns (slice (cache archived_db) 0 1), memory_read archived_db) /\
  getn archived_db None None = Some (Returns (cache archived_db), memory_read archived_db).
Proof.
  apply (getn_from_cache archived_db 0 1).
  - vm_compute. discriminate.
  - lia.
  - vm_compute. discriminate.
Defined.

(** ** A second checkpoint changes nothing *)

Lemma _flush_idempotent (d : db) : snd (_flush (snd (_flush d))) = snd (_flush d).
Proof.
  destruct (Z.ltb 0 (cache_size d)) eqn:Hc.
  - unfold _flush at 1. cbn [snd].
    change (cache_size (snd (_flush d))) with (cache_size d). rewrite Hc.
    unfold _flush. rewrite Hc. cbn. rewrite insert_insert_eq. reflexivity.
  - unfold _flush at 1. cbn [snd].
    change (cache_size (snd (_flush d))) with (cache_size d). rewrite Hc.
    unfold _flush. rewrite Hc. reflexivity.
Qed.

(** X4: a [_persist] that follows a [_persist] and does not archive leaves
    the whole state, memory and files, as the first one left it. *)
Theorem persist_twice (d d1 : db) (t_delta t_name t_started t_delta' t_name' t_started' : Z) :
  _persist d t_delta t_name t_started = Some d1 ->
  rotates d1 t_delta' = false ->
  _persist d1 t_delta' t_name' t_started' = Some d1.
Proof.
  intros Hp Hr'. rewrite (_persist_no_rotation d1 _ _ _ Hr'). f_equal.
  destruct (rotates d t_delta) eqn:Hr.
  - assert (0 < cache_size d) as Hpos.
    { unfold rotates in Hr. apply andb_true_iff in Hr as [_ Hr]. apply Z.ltb_lt. exact Hr. }
    unfold _persist, rotates in *. cbn [_flush] in Hp.
    change (archive_due (_flush_meta_file ?x) ?s ?t) with (archive_due d s t) in Hp.
    change (cache_size (_flush_meta_file ?x)) with (cache_size d) in Hp.
    rewrite Hr in Hp. unfold rename_to_archive in Hp.
    cbn [dir _flush_meta_file with_dir cache_file_name cache_files] in Hp.
    destruct (Z.ltb_spec 0 (cache_size d)); [| lia].
    rewrite lookup_insert_eq in Hp. injection Hp as <-. reflexivity.
  - rewrite (_persist_no_rotation d _ _ _ Hr) in Hp. injection Hp as <-.
    apply _flush_idempotent.
Qed.

Lemma persist_twice_witness :
  exists d1 : db,
    _persist three_keys 9000 9001 9002 = Some d1 /\
    _persist d1 9500 9501 9502 = Some d1.
Proof.
  destruct (_persist three_keys 9000 9001 9002) as [d1 |] eqn:Hp;
    [| vm_compute in Hp; discriminate].
  exists d1. split; [reflexivity |].
  apply (persist_twice three_keys d1 9000 9001 9002 9500 9501 9502 Hp).
  vm_compute in Hp. injection Hp as <-. vm_compute. reflexivity.
Defined.

(** ** The hit counters *)

Lemma set_accepts (d : db) (now : Z) (key v : value) :
  _check_key (cfg d) key = 1 -> _check_value (cfg d) v = 1 ->
  fst (set d now key v) = true.
Proof.
  intros Hk Hv. pose proof Hk as Hk'. apply check_key_accepts in Hk' as (k & -> & _).
  unfold set. rewrite Hk, Hv. cbn [negb Z.eqb Pos.eqb].
  destruct (index_get (index d) k); try reflexivity; destruct (negb _); reflexivity.
Qed.

(** X5: in a state reached from a fresh database by calls that
    give every new cache file a fresh name ([clock_ok]), an accepted [set] on a
    key that is no inherited name counts exactly one write: a memory write when
    the key is new or in the cache, a file write (after one file read) when
    the key is archived; the memory read counter stays. *)
Theorem set_counts_one_write (c : config) (t_started t_name : Z) (ops : list op)
    (d : db) (now : Z) (k : string) (v : value) :
  clock_ok (open_fresh c t_started t_name) ops = true ->
  run (open_fresh c t_started t_name) ops = Some d ->
  _check_key (cfg d) (VStr k) = 1 -> _check_value (cfg d) v = 1 ->
  is_inherited k = false ->
  let s := stats d in
  let s' := stats (snd (set d now (VStr k) v)) in
  _memory_cache_read_counter s' = _memory_cache_read_counter s /\
  (if is_archived d k
   then _memory_cache_write_counter s' = _memory_cache_write_counter s /\
        _file_cache_write_counter s' = _file_cache_write_counter s + 1 /\
        _file_cache_read_counter s' = _file_cache_read_counter s + 1
   else _memory_cache_write_counter s' = _memory_cache_write_counter s + 1 /\
        _file_cache_write_counter s' = _file_cache_write_counter s /\
        _file_cache_read_counter s' = _file_cache_read_counter s).
Proof.
  intros Hclock Hrun Hk Hv Hinh. cbv zeta.
  destruct (invariants_reachable c t_started t_name ops d Hclock Hrun) as [HI HD].
  pose proof (set_accepts d now (VStr k) v Hk Hv) as Hok.
  unfold is_archived, cached.
  destruct (set_cases d now (VStr k) v HI)
    as [Hs | k0 [= <-] Hg Hs | k0 [= <-] Ho _ Hs | k0 e [= <-] Ho Hci Hs
        | k0 e parsed [= <-] Ho Hge Hp Hfi Hs];
    rewrite Hs in *; cbn [fst snd] in *.
  - discriminate.
  - apply index_get_Inherited in Hg as [_ Hg]. congruence.
  - rewrite Ho. cbn. auto.
  - rewrite Ho. destruct (Z.ltb_spec (index_size d - (i e + 1)) (cache_size d)); [| lia].
    cbn. auto.
  - rewrite Ho. destruct (Z.ltb_spec (index_size d - (i e + 1)) (cache_size d)); [lia |].
    cbn. auto.
Qed.

Lemma set_counts_one_write_witness :
  _file_cache_write_counter (stats (snd (set archived_db 9004 (VStr "a") (VStr "va2"))))
  = _file_cache_write_counter (stats archived_db) + 1.
Proof.
  pose proof (set_counts_one_write test_config 1000 1001 archive_ops archived_db 9004
                "a" (VStr "va2")) as H.
  cbv zeta in H.
  assert (is_archived archived_db "a" = true) as Ha by (vm_compute; reflexivity).
  rewrite Ha in H. apply H; vm_compute; reflexivity.
Defined.

(** ** Every stored key has its slot *)

(** X6: in a state reached from a fresh database by calls that
    give every new cache file a fresh name ([clock_ok]), [get] of a key of the
    index reads an existing slot: the slot [index_size - (seq + 1)] of the cache, or
    the slot [length - 1 - (seq - offset)] of the key's archived file, which
    exists and holds a value that JSON keeps. *)
Theorem stored_key_has_slot (c : config) (t_started t_name : Z) (ops : list op)
    (d : db) (k : string) (e : entry) :
  clock_ok (open_fresh c t_started t_name) ops = true ->
  run (open_fresh c t_started t_name) ops = Some d ->
  own_property (index d) k = Some e ->
  if cached d e
  then cache d !! Z.to_nat (index_size d - (i e + 1)) = Some (fst (get d (VStr k)))
  else exists parsed : list value,
         archived_files (dir d) !! f e = Some parsed /\
         parsed !! Z.to_nat (Z.of_nat (length parsed) - 1
                             - (i e - archive_offset (cfg d) (meta_archive d) (f e)))
           = Some (fst (get d (VStr k))) /\
         json_reparse (fst (get d (VStr k))) = fst (get d (VStr k)).
Proof.
  intros Hclock Hrun Ho.
  destruct (invariants_reachable c t_started t_name ops d Hclock Hrun) as [HI HD].
  pose proof (own_seq_bound d k e HI Ho) as Hb.
  unfold cached. destruct (Z.ltb_spec (index_size d - (i e + 1)) (cache_size d)) as [Hlt | Hge].
  - rewrite (get_cached d k e HI Ho Hlt). unfold array_get.
    destruct (Z.ltb_spec (index_size d - (i e + 1)) 0); [lia |].
    destruct (cache d !! _) eqn:Hx; [reflexivity |].
    apply lookup_ge_None in Hx. unfold cache_size in Hlt. lia.
  - assert (i e < archive_total (meta_archive d)) as Harch
      by (pose proof (inv_cache d HI); lia).
    destruct (inv_archived d HI k e Ho Harch) as (_ & parsed & Hp & Hrange).
    exists parsed. split; [exact Hp |].
    rewrite (get_archived d k e parsed HI Ho Hge Hp).
    set (slot := Z.of_nat (length parsed) - 1
                 - (i e - archive_offset (cfg d) (meta_archive d) (f e))) in *.
    assert (0 <= slot < Z.of_nat (length parsed)) as Hslot by (subst slot; lia).
    split.
    + unfold array_get. destruct (Z.ltb_spec slot 0); [lia |].
      destruct (parsed !! _) eqn:Hx; [reflexivity |].
      apply lookup_ge_None in Hx. lia.
    + apply array_get_json; [apply (disk_json d HD (f e) parsed Hp) | exact Hslot].
Qed.

Lemma stored_key_has_slot_witness :
  exists parsed : list value,
    archived_files (dir archived_db) !! 1001 = Some parsed /\
    parsed !! 1%nat = Some (fst (get archived_db (VStr "a"))).
Proof.
  pose proof (stored_key_has_slot test_config 1000 1001 archive_ops archived_db
                "a" {| i := 0; f := 1001; c := 1002 |}) as H.
  destruct H as (parsed & Hp & Hslot & _).
  - vm_compute. reflexivity.
  - vm_compute. reflexivity.
  - vm_compute. reflexivity.
  - exists parsed. split; [exact Hp |].
    assert (length parsed = 2%nat) as Hlen.
    { vm_compute in Hp. injection Hp as <-. reflexivity. }
    rewrite Hlen in Hslot. exact Hslot.
Defined.

(** ** The list of archived files *)



(** ** What the constructor guarantees *)

Lemma in_archive_In (archive : list (Z * Z)) (file : Z) :
  in_archive archive file = true <-> In file (map fst archive).
Proof.
  unfold in_archive. rewrite existsb_exists, in_map_iff. split.
  - intros ([a s] & Hin & Heq). apply Z.eqb_eq in Heq. exists (a, s). auto.
  - intros ([a s] & Heq & Hin). exists (a, s). split; [exact Hin |]. apply Z.eqb_eq. exact Heq.
Qed.

Lemma In_getFiles (d : db) (file : Z) :
  In file (_getFiles d) <-> is_Some (archived_files (dir d) !! file).
Proof.
  unfold _getFiles. rewrite <- list_elem_of_In, merge_sort_Permutation, list_elem_of_fmap.
  split.
  - intros ([a x] & -> & Hx). apply elem_of_map_to_list in Hx. eauto.
  - intros [x Hx]. exists (file, x). split; [reflexivity |].
    apply elem_of_map_to_list. exact Hx.
Qed.

(** X8: when [new DBjs(config)] returns an engine, the configuration is in
    range, index and reverse index have the same size, the keys of a
    non-empty reverse index sum to n(n-1)/2, every archived file of the
    directory is in [meta.archive], the segment files hold as many items as
    the index has keys, and the sizes in [meta.archive] add up to the index
    size minus the cache size. *)
Theorem DBjs_new_serving (c : config) (k : disk) (t_started t_name : Z) (d : db) :
  DBjs_new c k t_started t_name = Serving d ->
  _check_config c = None /\
  index_size d = rindex_size d /\
  (0 < rindex_size d -> rindex_sum_ok (map fst (map_to_list (rindex d))) = true) /\
  (forall file : Z, is_Some (archived_files (dir d) !! file) ->
                    In file (map fst (meta_archive d))) /\
  items_on_disk (dir d) = index_size d /\
  archive_total (meta_archive d) = index_size d - cache_size d.
Proof.
  unfold DBjs_new. destruct (_check_config c); [discriminate |].
  destruct (_consistency_checks _) eqn:Hchecks; [discriminate |].
  intros [= <-]. split; [reflexivity |].
  match type of Hchecks with _consistency_checks ?x = None => set (d4 := x) in * end.
  unfold _consistency_checks in Hchecks.
  destruct (Z.ltb 0 (rindex_size d4) && negb (rindex_sum_ok _)) eqn:H1; [discriminate |].
  destruct (negb (Z.eqb (index_size d4) (rindex_size d4))) eqn:H2; [discriminate |].
  destruct (negb (forallb _ _)) eqn:H3; [discriminate |].
  destruct (negb (Z.eqb (index_size d4) _) && negb _) eqn:H4; [discriminate |].
  destruct (negb (Z.eqb _ (index_size d4 - cache_size d4)) || negb _) eqn:H5; [discriminate |].
  apply negb_false_iff, Z.eqb_eq in H2.
  apply negb_false_iff in H3. rewrite forallb_forall in H3.
  apply orb_false_iff in H5 as [H5 _]. apply negb_false_iff, Z.eqb_eq in H5.
  split; [exact H2 |]. split; [| split; [| split; [| exact H5]]].
  - intros Hpos. apply andb_false_iff in H1 as [H1 | H1].
    + apply Z.ltb_ge in H1. lia.
    + apply negb_false_iff in H1. exact H1.
  - intros file Hfile. apply in_archive_In, H3, In_getFiles. exact Hfile.
  - apply andb_false_iff in H4 as [H4 | H4]; apply negb_false_iff, Z.eqb_eq in H4; lia.
Qed.

Lemma DBjs_new_serving_witness :
  exists d : db,
    DBjs_new test_config (dir persisted_db) 30000 30001 = Serving d /\
    index_size d = 5 /\ cache_size d = 1 /\
    _check_config test_config = None /\
    index_size d = rindex_size d /\
    (0 < rindex_size d -> rindex_sum_ok (map fst (map_to_list (rindex d))) = true) /\
    (forall file : Z, is_Some (archived_files (dir d) !! file) ->
                      In file (map fst (meta_archive d))) /\
    items_on_disk (dir d) = index_size d /\
    archive_total (meta_archive d) = index_size d - cache_size d.
Proof.
  destruct (DBjs_new test_config (dir persisted_db) 30000 30001) as [d | msg] eqn:Hnew.
  - exists d. split; [reflexivity |].
    assert (Some (index_size d, cache_size d) = Some (5, 1)) as Hsizes.
    { transitivity (match DBjs_new test_config (dir persisted_db) 30000 30001 with
                    | Serving d0 => Some (index_size d0, cache_size d0)
                    | Fatal _ => None
                    end); [rewrite Hnew; reflexivity | vm_compute; reflexivity]. }
    injection Hsizes as H5 H1.
    split; [exact H5 |]. split; [exact H1 |].
    apply (DBjs_new_serving test_config (dir persisted_db) 30000 30001 d Hnew).
  - exfalso.
    assert (match DBjs_new test_config (dir persisted_db) 30000 30001 with
            | Serving _ => true
            | Fatal _ => false
            end = true) as H by (vm_compute; reflexivity).
    rewrite Hnew in H. discriminate.
Defined.

(** ** Closing and opening again *)

Lemma run_cfg (ops : list op) : forall d d' : db, run d ops = Some d' -> cfg d' = cfg d.
Proof.
  induction ops as [| o rest IH]; intros d d' Hrun; simpl in Hrun.
  - injection Hrun as <-. reflexivity.
  - destruct (run_op d o) as [d1 |] eqn:Hd1; [| discriminate].
    destruct (run_op_frame d d1 o Hd1) as [Hcfg _].
    rewrite (IH d1 d' Hrun). exact Hcfg.
Qed.

(** After [_persist] the files of the directory show the state in memory. *)
Lemma _persist_snapshot (d d1 : db) (t_delta t_name t_started : Z) :
  DiskInv d ->
  _persist d t_delta t_name t_started = Some d1 ->
  index_json (dir d1) = Some (index d1) /\
  rindex_json (dir d1) = Some (rindex d1) /\
  meta_json (dir d1) = Some (meta_archive d1) /\
  cache_files (dir d1) = {[cache_file_name d1 := file_content (cache d1)]}.
Proof.
  intros HD Hp. destruct (disk_cache_file d HD) as (fc & Hfc & Hempty).
  destruct (rotates d t_delta) eqn:Hr.
  - pose proof (_persist_rotation_cache_files d d1 _ _ _ Hr Hp) as Hcf.
    assert (0 < cache_size d) as Hpos.
    { unfold rotates in Hr. apply andb_true_iff in Hr as [_ Hr]. apply Z.ltb_lt. exact Hr. }
    unfold _persist, rotates in *. cbn [_flush] in Hp.
    change (archive_due (_flush_meta_file ?x) ?s ?t) with (archive_due d s t) in Hp.
    change (cache_size (_flush_meta_file ?x)) with (cache_size d) in Hp.
    rewrite Hr in Hp. unfold rename_to_archive in Hp.
    cbn [dir _flush_meta_file with_dir cache_file_name cache_files] in Hp.
    destruct (Z.ltb_spec 0 (cache_size d)); [| lia].
    rewrite lookup_insert_eq in Hp. injection Hp as <-.
    repeat (split; [reflexivity |]).
    rewrite Hcf, Hfc, insert_singleton_eq, delete_singleton_eq, insert_empty. reflexivity.
  - rewrite (_persist_no_rotation d _ _ _ Hr) in Hp. injection Hp as <-.
    repeat (split; [reflexivity |]).
    cbn. destruct (Z.ltb_spec 0 (cache_size d)) as [Hpos | Hzero].
    + rewrite Hfc, insert_singleton_eq. reflexivity.
    + assert (cache d = []) as Hc by (unfold cache_size in Hzero; destruct (cache d); simpl in *; [reflexivity | lia]).
      rewrite Hfc, (Hempty Hc), Hc. reflexivity.
Qed.

Lemma rindex_keys_range (d : db) :
  Inv d -> map fst (map_to_list (rindex d)) ≡ₚ seqZ 0 (index_size d).
Proof.
  intros HI. apply NoDup_Permutation.
  - apply NoDup_fst_map_to_list.
  - apply NoDup_seqZ.
  - intros j. rewrite elem_of_seqZ, list_elem_of_fmap. split.
    + intros ([j' k] & -> & Hk). apply elem_of_map_to_list in Hk.
      apply (inv_rindex d HI) in Hk as (n & e & -> & Hn).
      apply lookup_lt_Some in Hn. unfold index_size. simpl. lia.
    + intros Hj. unfold index_size in Hj.
      destruct (lookup_lt_is_Some_2 (index d) (Z.to_nat j)) as [[k e] Hn]; [lia |].
      exists (j, k). split; [reflexivity |]. apply elem_of_map_to_list.
      apply (inv_rindex d HI). exists (Z.to_nat j), e. split; [lia | exact Hn].
Qed.

Lemma NoDup_pairs {A B : Type} (l : list (A * B)) : NoDup (map fst l) -> NoDup l.
Proof. apply NoDup_fmap_1. Qed.

Lemma archived_items_total (d : db) :
  DiskInv d ->
  foldr Z.add 0 (map (fun p => Z.of_nat (length (snd p))) (map_to_list (archived_files (dir d))))
  = archive_total (meta_archive d).
Proof.
  intros HD. unfold archive_total.
  set (sized := map (fun p : Z * list value => (fst p, Z.of_nat (length (snd p))))
                    (map_to_list (archived_files (dir d)))).
  assert (sized ≡ₚ meta_archive d) as Hperm.
  { apply NoDup_Permutation.
    - apply NoDup_pairs. subst sized. rewrite map_map. simpl.
      apply (NoDup_fst_map_to_list (archived_files (dir d))).
    - apply NoDup_pairs, (disk_nodup d HD).
    - intros [a s]. subst sized. rewrite list_elem_of_fmap. split.
      + intros ([a' content] & [= -> ->] & Hx). apply elem_of_map_to_list in Hx. simpl.
        assert (In a' (map fst (meta_archive d))) as Hin
          by (apply (disk_files d HD); eauto).
        apply in_map_iff in Hin as ([a0 s0] & Heq & Hin). simpl in Heq. subst a0.
        rewrite (disk_sizes d HD a' s0 content Hin Hx).
        apply list_elem_of_In. exact Hin.
      + intros Hin. apply list_elem_of_In in Hin.
        assert (is_Some (archived_files (dir d) !! a)) as [content Hx].
        { apply (disk_files d HD). apply in_map_iff. exists (a, s). auto. }
        exists (a, content). split.
        * simpl. rewrite (disk_sizes d HD a s content Hin Hx). reflexivity.
        * apply elem_of_map_to_list. exact Hx. }
  transitivity (zsum (map snd sized));
    [| exact (zsum_Permutation _ _ (Permutation_map snd Hperm))].
  subst sized. rewrite map_map. reflexivity.
Qed.

(** The consistency checks pass on a state that satisfies the invariants and
    whose cache file has the length of the cache. *)
Lemma consistency_checks_pass (d : db) (fc : list value) :
  Inv d -> DiskInv d ->
  cache_files (dir d) = {[cache_file_name d := fc]} -> length fc = length (cache d) ->
  _consistency_checks d = None.
Proof.
  intros HI HD Hfc Hlen. unfold _consistency_checks.
  pose proof (inv_cache d HI) as Hcs.
  assert (rindex_size d = index_size d) as Hrs
    by (unfold rindex_size, index_size; rewrite (inv_rsize d HI); reflexivity).
  assert (rindex_sum_ok (map fst (map_to_list (rindex d))) = true) as ->.
  { apply rindex_sum_ok_spec. rewrite (zsum_Permutation _ _ (rindex_keys_range d HI)).
    rewrite (Permutation_length (rindex_keys_range d HI)), length_seqZ.
    pose proof (zsum_seqZ 0 (Z.to_nat (index_size d))) as Hsum.
    rewrite Z2Nat.id in Hsum by (unfold index_size; lia).
    rewrite Hsum, Z2Nat.id by (unfold index_size; lia). lia. }
  rewrite andb_false_r, Hrs, Z.eqb_refl. cbn [negb].
  assert (forallb (in_archive (meta_archive d)) (_getFiles d) = true) as ->.
  { apply forallb_forall. intros file Hfile. apply in_archive_In, (disk_files d HD), In_getFiles.
    exact Hfile. }
  cbn [negb].
  assert (items_on_disk (dir d) = index_size d) as ->.
  { unfold items_on_disk. rewrite (archived_items_total d HD), Hfc, map_to_list_singleton.
    simpl. rewrite Hlen. unfold cache_size in Hcs. lia. }
  rewrite Z.eqb_refl. cbn [negb andb].
  assert (archive_total (meta_archive d) = index_size d - cache_size d) as -> by lia.
  rewrite Z.eqb_refl. reflexivity.
Qed.

(** X9: in a state reached from a fresh database by calls that
    give every new cache file a fresh name ([clock_ok]), with a configuration
    that passes [_check_config]: after a [_persist], as [close()] runs it,
    that gives a new cache file a fresh name, [new DBjs(config)] on the same
    directory passes the consistency checks and serves an engine with
    the same index, reverse index, catalogue and cache file name, whose cache
    is the old cache as JSON reads it back; [get] answers as before for every
    key, a cached value being read back through JSON. *)
Theorem reopen_after_persist (c : config) (t_started0 t_name0 : Z) (ops : list op)
    (d d1 : db) (t_delta t_name t_started t_started' t_name' : Z) :
  _check_config c = None ->
  clock_ok (open_fresh c t_started0 t_name0) ops = true ->
  run (open_fresh c t_started0 t_name0) ops = Some d ->
  (rotates d t_delta = true -> fresh_name d t_name = true) ->
  _persist d t_delta t_name t_started = Some d1 ->
  exists d2 : db,
    DBjs_new (cfg d1) (dir d1) t_started' t_name' = Serving d2 /\
    index d2 = index d1 /\ rindex d2 = rindex d1 /\
    meta_archive d2 = meta_archive d1 /\
    cache_file_name d2 = cache_file_name d1 /\
    cache d2 = file_content (cache d1) /\
    dir d2 = dir d1 /\
    forall k : string,
      fst (get d2 (VStr k)) =
      if is_cached d1 k then json_reparse (fst (get d1 (VStr k)))
      else fst (get d1 (VStr k)).
Proof.
  intros Hconfig Hclock Hrun Hfresh Hp.
  destruct (invariants_reachable c t_started0 t_name0 ops d Hclock Hrun) as [HI HD].
  pose proof (Inv_persist d d1 t_delta t_name t_started HI Hfresh Hp) as HI1.
  pose proof (DiskInv_persist d d1 t_delta t_name t_started HI HD Hp) as HD1.
  destruct (_persist_snapshot d d1 _ _ _ HD Hp) as (Hij & Hrj & Hmj & Hcf).
  assert (cfg d1 = c) as Hcfg.
  { destruct (run_op_frame d d1 (Persist t_delta t_name t_started) Hp) as [H _].
    rewrite H. apply (run_cfg ops _ d Hrun). }
  set (d2 := {| cfg := cfg d1; cache := file_content (cache d1);
                cache_file_name := cache_file_name d1; started := t_started';
                index := index d1; rindex := rindex d1; meta_archive := meta_archive d1;
                stats := zero_counters; dir := dir d1 |}).
  assert (Inv d2) as HI2.
  { apply (Inv_same_lengths d1); try reflexivity; [exact HI1 | apply file_content_length | eauto]. }
  assert (DiskInv d2) as HD2.
  { apply (DiskInv_same d1); try reflexivity; [exact HD1 |].
    cbn. unfold file_content. intros H. apply map_eq_nil in H. exact H. }
  exists d2. split; [| split; [| split; [| split; [| split; [| split; [| split]]]]]]; try reflexivity.
  - unfold DBjs_new. rewrite Hcfg, Hconfig.
    unfold _load_cache. cbn [dir cache_files].
    rewrite Hcf, map_to_list_singleton. cbn [map fst].
    assert (merge_sort (flip Z.le) [cache_file_name d1] = [cache_file_name d1]) as ->
      by reflexivity.
    rewrite lookup_singleton_eq, Hij, Hrj, Hmj.
    cbn [default from_option id with_cache_file_name with_cache with_index with_rindex
         with_meta_archive cfg cache cache_file_name started index rindex meta_archive
         stats dir].
    rewrite <- Hcfg.
    change (match _consistency_checks d2 with
            | Some msg => Fatal msg
            | None => Serving d2
            end = Serving d2).
    rewrite (consistency_checks_pass d2 (file_content (cache d1)) HI2 HD2 Hcf eq_refl).
    reflexivity.
  - intros k. unfold is_cached.
    destruct (own_property (index d1) k) as [e |] eqn:Ho.
    + pose proof (own_seq_bound d1 k e HI1 Ho) as Hb.
      assert (own_property (index d2) k = Some e) as Ho2 by exact Ho.
      unfold cached.
      destruct (Z.ltb_spec (index_size d1 - (i e + 1)) (cache_size d1)) as [Hlt | Hge].
      * rewrite (get_cached d1 k e HI1 Ho Hlt), (get_cached d2 k e HI2 Ho2).
        -- cbn [cache d2]. change (index_size d2) with (index_size d1).
           apply array_get_file_content. unfold cache_size in Hlt. lia.
        -- unfold cache_size, index_size in *. cbn. rewrite file_content_length. exact Hlt.
      * assert (i e < archive_total (meta_archive d1)) as Harch
          by (pose proof (inv_cache d1 HI1); lia).
        destruct (inv_archived d1 HI1 k e Ho Harch) as (_ & parsed & Hpa & _).
        rewrite (get_archived d1 k e parsed HI1 Ho Hge Hpa).
        rewrite (get_archived d2 k e parsed HI2 Ho2); [reflexivity | | exact Hpa].
        unfold cache_size, index_size in *. cbn. rewrite file_content_length. exact Hge.
    + rewrite !get_not_own; [reflexivity | exact Ho | exact Ho].
Qed.

Lemma reopen_after_persist_witness :
  exists d1 d2 : db,
    _persist archived_db 9500 9501 9502 = Some d1 /\
    DBjs_new (cfg d1) (dir d1) 20000 20001 = Serving d2 /\
    index d2 = index d1 /\
    fst (get d2 (VStr "a")) = fst (get d1 (VStr "a")).
Proof.
  destruct (_persist archived_db 9500 9501 9502) as [d1 |] eqn:Hp;
    [| vm_compute in Hp; discriminate].
  destruct (reopen_after_persist test_config 1000 1001 archive_ops archived_db d1
              9500 9501 9502 20000 20001) as (d2 & Hnew & Hidx & _ & _ & _ & _ & _ & Hget).
  - vm_compute. reflexivity.
  - vm_compute. reflexivity.
  - vm_compute. reflexivity.
  - intros H. vm_compute in H. discriminate.
  - exact Hp.
  - exists d1, d2. split; [reflexivity |]. split; [exact Hnew |]. split; [exact Hidx |].
    rewrite (Hget "a").
    assert (is_cached d1 "a" = false) as ->; [| reflexivity].
    vm_compute in Hp. injection Hp as <-. vm_compute. reflexivity.
Defined.

(** ** _getn and walk *)

Lemma concat_length_zsum (d : db) (files : list Z) :
  Z.of_nat (length (concat (map (read_archived d) files)))
  = zsum (map (fun file => Z.of_nat (length (read_archived d file))) files).
Proof.
  induction files as [| file rest IH]; [reflexivity |].
  cbn [map concat]. rewrite length_app, Nat2Z.inj_add, IH. reflexivity.
Qed.

Lemma zsum_take_le (g : Z -> Z) (n : nat) (files : list Z) :
  (forall x, 0 <= g x) -> zsum (map g (take n files)) <= zsum (map g files).
Proof.
  intros Hg. revert n. induction files as [| file rest IH]; intros [| n]; cbn; try lia.
  - assert (0 <= zsum (map g rest)); [| pose proof (Hg file); unfold zsum in *; lia].
    clear IH. induction rest as [| x l IHl]; cbn; [lia |]. pose proof (Hg x).
    unfold zsum in *. lia.
  - specialize (IH n). unfold zsum in *. lia.
Qed.

(** The archived files that [_getFiles] lists hold as many items as the
    catalogue says. *)
Lemma getFiles_items_total (d : db) :
  DiskInv d ->
  zsum (map (fun file => Z.of_nat (length (read_archived d file))) (_getFiles d))
  = archive_total (meta_archive d).
Proof.
  intros HD. rewrite <- (archived_items_total d HD).
  unfold _getFiles.
  rewrite (zsum_Permutation _ (map (fun file => Z.of_nat (length (read_archived d file)))
                                   (map fst (map_to_list (archived_files (dir d)))))).
  2: { apply Permutation_map. apply merge_sort_Permutation. }
  rewrite map_map. unfold zsum. f_equal.
  apply map_ext_in. intros [a content] Hin.
  apply list_elem_of_In, elem_of_map_to_list in Hin.
  unfold read_archived. cbn [fst snd]. rewrite Hin. reflexivity.
Qed.

Lemma _getn_files_prefix (limit : Z) (files : list Z) :
  forall (d : db) (retval : list value),
  exists n : nat,
    fst (_getn_files d limit retval files)
    = retval ++ concat (map (read_archived d) (take n files)) /\
    (limit < Z.of_nat (length (fst (_getn_files d limit retval files)))
     \/ take n files = files).
Proof.
  induction files as [| file rest IH]; intros d retval.
  - exists 0%nat. cbn. rewrite app_nil_r. auto.
  - cbn [_getn_files].
    destruct (Z.ltb_spec limit (Z.of_nat (length (retval ++ read_archived d file))))
      as [Hlt | Hge].
    + exists 1%nat. cbn [take map concat fst]. rewrite app_nil_r. auto.
    + destruct (IH (file_read d) (retval ++ read_archived d file)) as (n & Heq & Hor).
      exists (S n). cbn [take map concat].
      change (read_archived (file_read d)) with (read_archived d) in Heq.
      rewrite Heq, <- app_assoc. split; [reflexivity |].
      rewrite Heq in Hor. rewrite <- app_assoc in Hor.
      destruct Hor as [H | H]; [left; exact H | right; rewrite H; reflexivity].
Qed.

(** X10: in every state reached from a fresh database by calls that
    give every new cache file a fresh name ([clock_ok]), [_getn(limit)]
    returns the cache followed by items of archived files, never more than
    the index holds, and it stops short of everything only with more than
    [limit] items. *)
Theorem _getn_returns_enough (c : config) (t_started t_name : Z) (ops : list op)
    (d : db) (limit : Z) :
  clock_ok (open_fresh c t_started t_name) ops = true ->
  run (open_fresh c t_started t_name) ops = Some d ->
  (exists rest : list value, fst (_getn d limit) = cache d ++ rest) /\
  Z.of_nat (length (fst (_getn d limit))) <= index_size d /\
  (limit < Z.of_nat (length (fst (_getn d limit)))
   \/ Z.of_nat (length (fst (_getn d limit))) = index_size d).
Proof.
  intros Hclock Hrun.
  destruct (invariants_reachable c t_started t_name ops d Hclock Hrun) as [HI HD].
  pose proof (inv_cache d HI) as Hcache. unfold cache_size in Hcache.
  pose proof (getFiles_items_total d HD) as Htotal.
  pose proof (archive_total_nonneg d HD) as Hnn.
  unfold _getn.
  destruct (Z.ltb_spec limit (Z.of_nat (length (cache d)))) as [Hlt | Hge]; cbn [fst].
  - split; [exists []; rewrite app_nil_r; reflexivity |]. split; [lia | left; exact Hlt].
  - destruct (_getn_files_prefix limit (_getFiles d) (memory_read d) (cache d))
      as (n & Heq & Hor).
    change (read_archived (memory_read d)) with (read_archived d) in Heq.
    rewrite Heq in *.
    assert (zsum (map (fun file => Z.of_nat (length (read_archived d file)))
                      (take n (_getFiles d)))
            <= zsum (map (fun file => Z.of_nat (length (read_archived d file)))
                         (_getFiles d))) as Hle
      by (apply zsum_take_le; intros x; apply Nat2Z.is_nonneg).
    rewrite length_app, Nat2Z.inj_add, concat_length_zsum in *.
    split; [eauto |]. split; [lia |].
    destruct Hor as [H | H]; [left; exact H | right].
    rewrite H. lia.
Qed.

Lemma _getn_returns_enough_witness :
  (exists rest : list value, fst (_getn archived_db 2) = cache archived_db ++ rest) /\
  Z.of_nat (length (fst (_getn archived_db 2))) <= index_size archived_db /\
  (2 < Z.of_nat (length (fst (_getn archived_db 2)))
   \/ Z.of_nat (length (fst (_getn archived_db 2))) = index_size archived_db).
Proof.
  apply (_getn_returns_enough test_config 1000 1001 archive_ops archived_db 2);
    vm_compute; reflexivity.
Defined.







(** ** Calls that read *)

Lemma counters_apart_refl (d : db) : counters_apart d d.
Proof. destruct d. eexists. reflexivity. Qed.

Lemma counters_apart_stats (d0 d : db) (s : counters) :
  counters_apart d0 d -> counters_apart d0 (with_stats d s).
Proof. intros [s0 ->]. exists s. reflexivity. Qed.

Lemma counters_apart_memory_read (d0 d : db) :
  counters_apart d0 d -> counters_apart d0 (memory_read d).
Proof. apply counters_apart_stats. Qed.

Lemma counters_apart_file_read (d0 d : db) :
  counters_apart d0 d -> counters_apart d0 (file_read d).
Proof. apply counters_apart_stats. Qed.

Create HintDb counters.

#[local] Hint Resolve counters_apart_refl counters_apart_memory_read
  counters_apart_file_read : counters.

Lemma counters_apart_load_files (d0 : db) (to_load : list Z) :
  forall (d : db) (retval : list value),
    counters_apart d0 d -> counters_apart d0 (snd (load_files d retval to_load)).
Proof.
  induction to_load as [| file rest IH]; intros d retval H; cbn [load_files];
    [exact H | apply IH; auto with counters].
Qed.

Lemma counters_apart_get (d : db) (key : value) : counters_apart d (snd (get d key)).
Proof.
  unfold get. destruct (negb _); [auto with counters |].
  destruct key; auto with counters.
  destruct (index_get (index d) s) eqn:Hg; auto with counters;
    (destruct (negb _); [cbn [snd]; auto with counters |]);
    unfold _load_from_file; rewrite Hg; auto with counters.
  destruct (archived_files (dir d) !! f e); cbn [snd]; auto with counters.
Qed.

Lemma counters_apart_getn_range (d : db) (s e : Z) :
  counters_apart d (snd (getn_range d s e)).
Proof.
  unfold getn_range.
  destruct (Z.ltb (index_size d) e || Z.ltb (index_size d) s);
    (destruct (_ || _ || _); [auto with counters |]);
    (destruct (Z.leb _ _); [cbn [snd]; auto with counters |]);
    (destruct (rindex d !! _); [| auto with counters]);
    (destruct (negb _); [| auto with counters]);
    destruct (index_get _ _); auto with counters;
    match goal with
    | |- counters_apart d (snd (let '(_, _) := load_files ?d1 ?r ?l in _)) =>
        pose proof (counters_apart_load_files d l d1 r) as Hd;
        destruct (load_files d1 r l) as [retval d']; apply Hd; auto with counters
    end.
Qed.

Lemma counters_apart_getn_files (d0 : db) (limit : Z) (files : list Z) :
  forall (d : db) (retval : list value),
    counters_apart d0 d -> counters_apart d0 (snd (_getn_files d limit retval files)).
Proof.
  induction files as [| file rest IH]; intros d retval H; cbn [_getn_files];
    [exact H |].
  destruct (Z.ltb _ _); [cbn [snd] | apply IH]; auto with counters.
Qed.

(** X12: [get], [getn] and [_getn] leave the engine as it was apart from
    the four counters: the configuration, cache, index, reverse index,
    catalogue and every file are the same afterwards. *)
Theorem reads_change_counters_only (d : db) :
  (forall key : value, counters_apart d (snd (get d key))) /\
  (forall (index_range time_range : option (list Z)) (r : outcome (list value)) (d' : db),
     getn d index_range time_range = Some (r, d') -> counters_apart d d') /\
  (forall limit : Z, counters_apart d (snd (_getn d limit))).
Proof.
  split; [| split].
  - apply counters_apart_get.
  - intros ir tr r d'. unfold getn.
    destruct (getn_bounds d ir tr) as [[[s e] |] |].
    + intros [= H]. replace d' with (snd (getn_range d s e)) by (rewrite H; reflexivity).
      apply counters_apart_getn_range.
    + discriminate.
    + intros [= <- <-]. apply counters_apart_refl.
  - intros limit. unfold _getn.
    destruct (Z.ltb _ _); [cbn [snd]; auto with counters |].
    apply counters_apart_getn_files. auto with counters.
Qed.

(** ** Instances on the example stores *)

Lemma _binary_search_not_found_witness :
  (fun p => snd p + 1) <$> _binary_search [1002; 1003; 1005] 1004 = Some 2.
Proof.
  apply (_binary_search_not_found [1002; 1003; 1005] 1004).
  - intros j1 j2 x y H1 H2 Hle.
    destruct j1 as [| [| [| j1]]]; destruct j2 as [| [| [| j2]]];
      simpl in H1, H2; try discriminate; injection H1 as <-; injection H2 as <-; lia.
  - simpl. intros [H | [H | [H | H]]]; try discriminate H; exact H.
Defined.

Lemma index_keys_in_put_order_witness :
  map fst (index archived_db) = ["a"; "b"; "c"]%string.
Proof.
  apply (index_keys_in_put_order test_config 1000 1001 archive_ops archived_db).
  vm_compute. reflexivity.
Defined.

Lemma reachable_index_shape_witness :
  map (fun p => i (snd p)) (index archived_db) = seqZ 0 (index_size archived_db) /\
  NoDup (map fst (index archived_db)) /\
  rindex_size archived_db = index_size archived_db /\
  (forall (n : nat) (k : string) (e : entry),
     index archived_db !! n = Some (k, e) -> rindex archived_db !! Z.of_nat n = Some k) /\
  cache_size archived_db
  = index_size archived_db - archive_total (meta_archive archived_db).
Proof.
  apply (reachable_index_shape test_config 1000 1001 archive_ops archived_db);
    vm_compute; reflexivity.
Defined.

Lemma DBjs_new_empty_directory_witness :
  DBjs_new test_config empty_disk 1000 1001 = Serving fresh_db.
Proof.
  apply (DBjs_new_empty_directory test_config 1000 1001). vm_compute. reflexivity.
Defined.

(** ** Ranges that reach into the archive *)


















(** ** Clock readings that grow *)

Lemma set_seg_names (d : db) (now : Z) (key v : value) :
  seg_names (snd (set d now key v)) = seg_names d.
Proof.
  unfold set. destruct (negb _); [reflexivity |]. destruct (negb _); [reflexivity |].
  destruct key; try reflexivity.
  destruct (index_get (index d) s) eqn:Hg; try reflexivity.
  - destruct (negb _); [destruct (_ && _); reflexivity |].
    unfold _update_file. rewrite Hg. destruct (_ !! _); [| reflexivity].
    destruct (_ && _); reflexivity.
  - destruct (negb _); [destruct (_ && _); reflexivity |].
    unfold _update_file. rewrite Hg. reflexivity.
Qed.

Lemma same_core_seg_names (d d' : db) : same_core d d' -> seg_names d' = seg_names d.
Proof. intros (_ & _ & H1 & _ & _ & H2 & _). unfold seg_names. rewrite H1, H2. reflexivity. Qed.

Lemma StronglySorted_snoc_lt (l : list Z) (x y : Z) :
  StronglySorted Z.lt (l ++ [x]) -> x < y -> StronglySorted Z.lt ((l ++ [x]) ++ [y]).
Proof.
  intros Hs Hxy. apply StronglySorted_app.
  split; [| split; [exact Hs | repeat constructor]].
  intros a b Ha Hb. apply list_elem_of_singleton in Hb. subst b.
  apply elem_of_app in Ha as [Ha | Ha].
  - assert (a < x); [| lia].
    apply (StronglySorted_app_1_elem_of Z.lt l [x] a x Hs Ha). apply list_elem_of_singleton.
    reflexivity.
  - apply list_elem_of_singleton in Ha. subst a. exact Hxy.
Qed.

Lemma segments_ascending_step (d d' : db) (o : op) :
  segments_ascending d -> clock_ascending d [o] = true -> run_op d o = Some d' ->
  segments_ascending d'.
Proof.
  intros [Hs Hd] Hclock Hrun.
  assert (seg_names d' = seg_names d /\ cache_file_name d' = cache_file_name d ->
          segments_ascending d') as Hsame.
  { intros [H1 H2]. unfold segments_ascending. rewrite H1, H2. auto. }
  destruct o as [now key v | key | ir tr | t_delta t_name t_started]; simpl in Hrun.
  - injection Hrun as <-. apply Hsame. split; [apply set_seg_names |].
    pose proof (set_seg_names d now key v) as H. unfold seg_names in H.
    apply app_inj_tail in H as [_ H]. exact H.
  - injection Hrun as <-. apply Hsame.
    pose proof (same_core_get d key) as Hc. split; [apply same_core_seg_names, Hc |].
    destruct Hc as (_ & _ & H & _). exact H.
  - destruct (getn d ir tr) as [[r d''] |] eqn:Hg; simpl in Hrun; [| discriminate].
    injection Hrun as <-. apply Hsame.
    pose proof (same_core_getn d d'' ir tr r Hg) as Hc.
    split; [apply same_core_seg_names, Hc |]. destruct Hc as (_ & _ & H & _). exact H.
  - simpl in Hclock. destruct (rotates d t_delta) eqn:Hr.
    + apply andb_true_iff in Hclock as [Hclock _].
      apply andb_true_iff in Hclock as [Hlt Hlen].
      apply Z.ltb_lt in Hlt. apply Nat.eqb_eq in Hlen.
      destruct (_persist_rotation d t_delta t_name t_started Hr)
        as (d1 & Hp & _ & _ & Hname & _ & _ & _ & Hmeta & _).
      rewrite Hp in Hrun. injection Hrun as <-.
      assert (~ In (cache_file_name d) (map fst (meta_archive d))) as Hnotin.
      { intros Hin. apply list_elem_of_In in Hin.
        pose proof (StronglySorted_app_1_elem_of Z.lt _ [cache_file_name d] _
                      (cache_file_name d) Hs Hin) as H.
        assert (cache_file_name d < cache_file_name d); [| lia].
        apply H, list_elem_of_singleton. reflexivity. }
      rewrite (archive_put_fresh _ _ _ Hnotin) in Hmeta.
      assert (seg_names d1 = seg_names d ++ [t_name]) as Hseg.
      { unfold seg_names. rewrite Hmeta, Hname, map_app. reflexivity. }
      unfold segments_ascending. rewrite Hseg, Hname. split.
      * apply StronglySorted_snoc_lt; assumption.
      * intros a Ha. apply in_app_or in Ha as [Ha | [<- | []]]; [| reflexivity].
        rewrite (Hd a Ha). exact Hlen.
    + rewrite (_persist_no_rotation d _ _ _ Hr) in Hrun. injection Hrun as <-.
      apply Hsame. split; reflexivity.
Qed.

Lemma clock_ascending_fresh (d : db) (t_name : Z) :
  no_dot (file_prefix (cfg d)) = true -> segments_ascending d ->
  cache_file_name d < t_name ->
  String.length (pretty (cache_file_name d)) = String.length (pretty t_name) ->
  fresh_name d t_name = true.
Proof.
  intros Hdot [Hs Hd] Hlt Hlen. unfold fresh_name. apply forallb_forall. intros a Ha.
  apply negb_true_iff, timestamp_names_differ; [exact Hdot | |].
  - rewrite (Hd a Ha). exact Hlen.
  - intros ->. apply in_app_or in Ha as [Ha | [Ha | []]]; [| lia].
    apply list_elem_of_In in Ha.
    pose proof (StronglySorted_app_1_elem_of Z.lt _ [cache_file_name d] _
                  (cache_file_name d) Hs Ha) as H.
    assert (t_name < cache_file_name d); [| lia].
    apply H, list_elem_of_singleton. reflexivity.
Qed.

Lemma clock_ascending_run (ops : list op) : forall d : db,
  no_dot (file_prefix (cfg d)) = true -> segments_ascending d ->
  clock_ascending d ops = true ->
  clock_ok d ops = true /\
  forall d' : db, run d ops = Some d' -> segments_ascending d'.
Proof.
  induction ops as [| o rest IH]; intros d Hdot Hseg Hclock.
  - split; [reflexivity |]. intros d' [= <-]. exact Hseg.
  - cbn [clock_ascending] in Hclock. apply andb_true_iff in Hclock as [Ho Hrest].
    assert (clock_ascending d [o] = true) as Ho1.
    { cbn [clock_ascending]. rewrite Ho. destruct (run_op d o); reflexivity. }
    cbn [clock_ok run].
    assert (match o with
            | Persist t_delta t_name _ =>
                if rotates d t_delta then fresh_name d t_name else true
            | _ => true
            end = true) as ->.
    { destruct o as [| | | t_delta t_name t_started]; try reflexivity.
      destruct (rotates d t_delta); [| reflexivity].
      apply andb_true_iff in Ho as [Hlt Hlen].
      apply clock_ascending_fresh; [exact Hdot | exact Hseg | |].
      - apply Z.ltb_lt, Hlt.
      - apply Nat.eqb_eq, Hlen. }
    cbn [andb].
    destruct (run_op d o) as [d1 |] eqn:Hd1.
    + destruct (run_op_frame d d1 o Hd1) as [Hcfg _].
      apply IH; [rewrite Hcfg; exact Hdot | | exact Hrest].
      apply (segments_ascending_step d d1 o Hseg Ho1 Hd1).
    + split; [reflexivity | discriminate].
Qed.

(** X14: with a file prefix without a dot and clock readings that grow and
    keep their number of digits, every name [_persist] picks for a new cache
    file is fresh, and in every state reached from a fresh database the
    timestamps of the archived files grow along the catalogue and have the
    same number of digits. *)
Theorem ascending_clock_is_ok (c : config) (t_started t_name : Z) (ops : list op) (d : db) :
  no_dot (file_prefix c) = true ->
  clock_ascending (open_fresh c t_started t_name) ops = true ->
  run (open_fresh c t_started t_name) ops = Some d ->
  clock_ok (open_fresh c t_started t_name) ops = true /\
  timestamps_ascending d /\ same_digits d /\
  (forall a : Z, In a (map fst (meta_archive d)) -> a < cache_file_name d).
Proof.
  intros Hdot Hclock Hrun.
  assert (segments_ascending (open_fresh c t_started t_name)) as Hseg0.
  { split.
    - cbn. repeat constructor.
    - cbn. intros a [<- | []]. reflexivity. }
  destruct (clock_ascending_run ops (open_fresh c t_started t_name) Hdot Hseg0 Hclock)
    as [Hok Hseg].
  split; [exact Hok |].
  destruct (Hseg d Hrun) as [Hs Hd]. unfold seg_names in *.
  split; [| split].
  - apply (StronglySorted_app_1_l Z.lt _ _ Hs).
  - intros a b Ha Hb. rewrite (Hd a), (Hd b); [reflexivity | |];
      apply in_or_app; left; assumption.
  - intros a Ha. apply list_elem_of_In in Ha.
    apply (StronglySorted_app_1_elem_of Z.lt _ [cache_file_name d] a _ Hs Ha).
    apply list_elem_of_singleton. reflexivity.
Qed.

Lemma ascending_clock_is_ok_witness :
  clock_ok (open_fresh test_config 10000 10001) two_archives_ops = true /\
  timestamps_ascending two_archives_db /\ same_digits two_archives_db /\
  (forall a : Z, In a (map fst (meta_archive two_archives_db)) ->
                 a < cache_file_name two_archives_db).
Proof.
  apply (ascending_clock_is_ok test_config 10000 10001 two_archives_ops two_archives_db);
    vm_compute; reflexivity.
Defined.

(** ** Ranges by position *)







(** ** A cache file name used twice *)

(** X20: the condition on the names of new cache files cannot be dropped.
    When two checkpoints archive within one millisecond, the second cache
    file gets the name of the first, the second archived file replaces the
    first one, and the catalogue keeps one entry: the index has two keys, but
    [get] answers the value of [b] for the key [a], and [undefined] for the
    key [b]. *)
Theorem reused_name_loses_value :
  run fresh_db reused_name_ops <> None /\
  clock_ok fresh_db reused_name_ops = false /\
  map fst (index reused_name_db) = ["a"; "b"]%string /\
  meta_archive reused_name_db = [(1001, 1)] /\
  cache reused_name_db = [] /\
  fst (get reused_name_db (VStr "a")) = big_value' /\
  fst (get reused_name_db (VStr "b")) = VUndefined.
Proof.
  split; [| split; [| split; [| split; [| split; [| split]]]]].
  - intros H.
    assert (match run fresh_db reused_name_ops with Some _ => true | None => false end
            = true) as Hrun by (vm_compute; reflexivity).
    rewrite H in Hrun. discriminate.
  - vm_compute. reflexivity.
  - vm_compute. reflexivity.
  - vm_compute. reflexivity.
  - vm_compute. reflexivity.
  - apply (bool_decide_eq_true_1 (fst (get reused_name_db (VStr "a")) = big_value')).
    vm_compute. reflexivity.
  - vm_compute. reflexivity.
Qed.
